(** * A shallow embedding of the multicast dissemination engine

    Sources embedded here:
    - [src/peer.js]        the peer record ([Peer]);
    - [src/index.js]       the engine with synchronous forwarding validators;
    - the second form of the engine, whose forwarding hooks are
      callback-style predicates ([addFrwdHook], [removeFrwdHook]);
    - the facade that wraps the engine ([subscribe] with [options.frwdHooks],
      [unsubscribe], [publish], [ls], [peers]).

    JavaScript objects are records, [Map]s and [Set]s that are iterated are
    lists in insertion order, [Map]s that are only looked up are [gmap]s,
    and every method is a computation in a small state-and-exception monad
    that also records the observable effects (pushes on a peer stream,
    local emits, cache insertions, log lines, callback invocations). *)

From stdpp Require Import base option list strings gmap.
From Stdlib Require Import ZArith Lia.

Local Open Scope Z_scope.

(** ** Data model *)

Definition Topic := string.
Definition PeerId := string.
Definition MsgId := string.

(** A Node.js [Buffer]: a sequence of bytes. *)
Definition Buffer := list Byte.byte.

(** Functions are compared by reference in JavaScript ([Set.add],
    [removeListener]); a function value is modelled by its identity. *)
Definition Hook := nat.
Definition Handler := nat.
Definition Callback := nat.

(** JavaScript error values. *)
Inductive JsError :=
| Error (message : string)
| TypeError (message : string)
| AssertionError (message : string).

(** A message as the engine holds it after [normalizeInRpcMessages]:
    [from] is the Base58 text of the sender, [seqno] a buffer. *)
Record Message := {
  from : string;
  data : Buffer;
  seqno : Buffer;
  hops : Z;
  topicIDs : list Topic
}.

(** The wire schema ([src/message/rpc.proto.js]). *)
Module rpc.

Record SubOpts := { subscribe : bool; topicCID : Topic }.

(** On the wire [from] is a buffer. *)
Record Message := {
  from : Buffer;
  data : Buffer;
  seqno : Buffer;
  hops : Z;
  topicIDs : list Topic
}.

(** A field that an object literal leaves out is [None]. *)
Record RPC := {
  subscriptions : option (list SubOpts);
  msgs : option (list Message)
}.

End rpc.

#[global] Instance byte_eq_dec : EqDecision Byte.byte := Byte.byte_eq_dec.
#[global] Instance JsError_eq_dec : EqDecision JsError.
Proof. solve_decision. Defined.
#[global] Instance Message_eq_dec : EqDecision Message.
Proof. solve_decision. Defined.
#[global] Instance SubOpts_eq_dec : EqDecision rpc.SubOpts.
Proof. solve_decision. Defined.
#[global] Instance wire_Message_eq_dec : EqDecision rpc.Message.
Proof. solve_decision. Defined.
#[global] Instance RPC_eq_dec : EqDecision rpc.RPC.
Proof. solve_decision. Defined.

(** What a forwarding validator answers for a peer and a message: a truthy or
    falsy value, or an error (a thrown exception for the synchronous
    signature, [cb(err)] for the callback signature). *)
Inductive VResult := VOk (truthy : bool) | VErr (e : JsError).

(** The arguments of the [log] calls. *)
Inductive LogLine :=
| LogRpcFrom (id : PeerId)
| LogSkipHopZero
| LogPublish
| LogPublishMsgs (topics : list Topic) (to : PeerId)
| LogHasHooks
| LogNoHooks
| LogError (e : JsError).

(** Observable effects, in the order in which they happen. *)
Inductive Event :=
| Push (to : PeerId) (r : rpc.RPC)                 (* peer.stream.push(r) *)
| Invoke (cb : Callback) (err : option JsError)  (* cb(err) *)
| Defer (cb : Callback) (err : option JsError)  (* setImmediate(() => cb(err)) *)
| CachePut (id : MsgId)                        (* this.cache.put(id) *)
| Emit (topic : Topic) (m : Message)           (* this.emit(topic, m) *)
| Log (l : LogLine)                            (* this.log(...) *)
| Postpone (to : PeerId) (topic : Topic).
    (* the callback handed to [filter] for this peer and topic has not run
       when the call returns: it runs in a later turn, once the hooks that
       have not called back yet do *)

#[global] Instance LogLine_eq_dec : EqDecision LogLine.
Proof. solve_decision. Defined.
#[global] Instance Event_eq_dec : EqDecision Event.
Proof. solve_decision. Defined.

(** ** The monad of methods

    A method runs on a state [S], may throw, and records its effects.  A
    thrown exception keeps the state changes made before it. *)

Inductive Outcome (A : Type) :=
| Return (a : A)
| Throw (e : JsError).
Arguments Return {A} a.
Arguments Throw {A} e.

Definition M (S A : Type) : Type := S → Outcome A * S * list Event.

Definition ret {S A} (a : A) : M S A := λ s, (Return a, s, []).

Definition bind {S A B} (m : M S A) (k : A → M S B) : M S B := λ s,
  match m s with
  | (Return a, s1, t1) => let '(o, s2, t2) := k a s1 in (o, s2, t1 ++ t2)
  | (Throw e, s1, t1) => (Throw e, s1, t1)
  end.

#[global] Instance M_ret S : MRet (M S) := λ A, @ret S A.
#[global] Instance M_bind S : MBind (M S) := λ A B k m, bind m k.

Definition throw {S A} (e : JsError) : M S A := λ s, (Throw e, s, []).
Definition tell {S} (e : Event) : M S unit := λ s, (Return tt, s, [e]).
Definition get {S} : M S S := λ s, (Return s, s, []).
Definition put {S} (s : S) : M S unit := λ _, (Return tt, s, []).
Definition gets {S A} (f : S → A) : M S A := λ s, (Return (f s), s, []).
Definition modify {S} (f : S → S) : M S unit := λ s, (Return tt, f s, []).

(** [when c m]: an [if] without [else]. *)
Definition when {S} (c : bool) (m : M S unit) : M S unit :=
  if c then m else ret tt.

(** [xs.forEach(f)]: in order, stopping at the first exception. *)
Fixpoint forEach {S A} (xs : list A) (f : A → M S unit) : M S unit :=
  match xs with
  | [] => ret tt
  | x :: xs' => f x ;; forEach xs' f
  end.

(** [xs.every(f)]: stops at the first falsy answer. *)
Fixpoint Array_every {S A} (xs : list A) (f : A → M S bool) : M S bool :=
  match xs with
  | [] => ret true
  | x :: xs' => b ← f x; if b : bool then Array_every xs' f else ret false
  end.

(** [xs.filter(f)] *)
Fixpoint Array_filter {S A} (xs : list A) (f : A → M S bool) : M S (list A) :=
  match xs with
  | [] => ret []
  | x :: xs' =>
      b ← f x; rest ← Array_filter xs' f;
      ret (if b : bool then x :: rest else rest)
  end.

(** [xs.map(f)] *)
Fixpoint Array_map {S A B} (xs : list A) (f : A → M S B) : M S (list B) :=
  match xs with
  | [] => ret []
  | x :: xs' => y ← f x; rest ← Array_map xs' f; ret (y :: rest)
  end.

(** The projections of a finished run. *)
Definition outcome {S A} (r : Outcome A * S * list Event) : Outcome A := r.1.1.
Definition final {S A} (r : Outcome A * S * list Event) : S := r.1.2.
Definition trace {S A} (r : Outcome A * S * list Event) : list Event := r.2.

(** ** The peer record ([src/peer.js]) *)

Module Peer.

(** [stream] is the pushable: [None] is [null], [Some q] holds the records
    pushed so far, oldest first.  [pending] is the listener table of the
    record's event emitter: the engine's [subscribe] is its only client, and
    each entry stands for one [onConnection] closure (with the topics it
    captured) together with the one-shot [close] listener that cancels it. *)
Record t := {
  info : PeerId;              (* this.info.id.toB58String() *)
  topics : list Topic;        (* Set, in insertion order *)
  stream : option (list rpc.RPC);
  _references : nat;
  pending : list (list Topic)
}.

#[global] Instance eq_dec : EqDecision t.
Proof. solve_decision. Defined.

Definition new (id : PeerId) : t :=
  {| info := id; topics := []; stream := None; _references := 0;
     pending := [] |}.

Definition isConnected (p : t) : bool := bool_decide (is_Some (stream p)).
Definition isWritable (p : t) : bool := bool_decide (is_Some (stream p)).

Definition set_stream (s : option (list rpc.RPC)) (p : t) : t :=
  {| info := info p; topics := topics p; stream := s;
     _references := _references p; pending := pending p |}.

Definition set_topics (ts : list Topic) (p : t) : t :=
  {| info := info p; topics := ts; stream := stream p;
     _references := _references p; pending := pending p |}.

Definition set_pending (l : list (list Topic)) (p : t) : t :=
  {| info := info p; topics := topics p; stream := stream p;
     _references := _references p; pending := l |}.

(** [cb = cb || noop; cb(err)]: an omitted callback is the no-op. *)
Definition call {S} (cb : option Callback) (err : option JsError) : M S unit :=
  match cb with
  | Some c => tell (Invoke c err)
  | None => ret tt
  end.

Definition write (msg : rpc.RPC) (cb : option Callback) : M t unit :=
  p ← get;
  if negb (isWritable p) then
    let id := info p in
    call cb (Some (Error ("No writable connection to " +:+ id)))
  else
    put (set_stream ((λ q, q ++ [msg]) <$> stream p) p) ;;
    tell (Push (info p) msg) ;;
    call cb None.

(** The argument of [sendSubscriptions]: a [Set] or an [Array] of topics.
    Only a [Set] has a [size]; on an [Array] the property is [undefined]. *)
Inductive TopicColl :=
| JsSet (ts : list Topic)
| JsArray (ts : list Topic).

Definition size (c : TopicColl) : option nat :=
  match c with
  | JsSet ts => Some (length ts)
  | JsArray _ => None
  end.

Definition items (c : TopicColl) : list Topic :=
  match c with JsSet ts | JsArray ts => ts end.

Definition _sendRawSubscriptions (topics : TopicColl) (subscribe : bool)
  : M t unit :=
  if bool_decide (size topics = Some 0%nat) then ret tt
  else
    let subs :=
      (λ topic, {| rpc.subscribe := subscribe; rpc.topicCID := topic |})
        <$> items topics in
    write {| rpc.subscriptions := Some subs; rpc.msgs := None |} None.

Definition sendSubscriptions (topics : TopicColl) : M t unit :=
  _sendRawSubscriptions topics true.

Definition sendUnsubscriptions (topics : TopicColl) : M t unit :=
  _sendRawSubscriptions topics false.

Definition sendMessages (msgs : list rpc.Message) : M t unit :=
  write {| rpc.subscriptions := None; rpc.msgs := Some msgs |} None.

(** [Set.add] and [Set.delete] on a set kept in insertion order. *)
Definition set_add `{EqDecision A} (x : A) (s : list A) : list A :=
  if bool_decide (x ∈ s) then s else s ++ [x].
Definition set_delete `{EqDecision A} (x : A) (s : list A) : list A :=
  filter (λ y, y ≠ x) s.

Definition updateSubscriptions (changes : list rpc.SubOpts) : M t unit :=
  forEach changes (λ subopt,
    modify (λ p,
      if rpc.subscribe subopt
      then set_topics (set_add (rpc.topicCID subopt) (topics p)) p
      else set_topics (set_delete (rpc.topicCID subopt) (topics p)) p)).

(** [createStream] installs a fresh pushable and emits [connection]: every
    pending [onConnection] listener removes itself and, the record being
    writable now, sends the topics it captured. *)
Definition createStream : M t unit :=
  p ← get;
  put (set_pending [] (set_stream (Some []) p)) ;;
  forEach (pending p) (λ ts, sendSubscriptions (JsArray ts)).

(** [onStreamEnd] clears the stream and emits [close]: every one-shot
    [close] listener removes the [onConnection] listener it guards. *)
Definition onStreamEnd : M t unit :=
  modify (λ p, set_pending [] (set_stream None p)).

End Peer.

(** ** Collaborators

    What the engine consumes but does not define: the text and byte
    conversions of [Buffer] and of the Base58 codec, the random source, the
    behaviour of the registered validator functions, and the [stop] of the
    base protocol class (which owns [started] and the peer map).

    [validator] is what a validator answers: for the signature of
    [src/index.js] the value it returns or the exception it throws, for the
    callback signature the arguments of its call of [cb].  [timing] is how
    a validator with the callback signature hands over.  [listener] is what
    a listener of the engine's event emitter does with a message: [Some e]
    when it throws [e].  Validators and listeners are functions of their
    arguments: one that calls back into the engine, or that changes the
    record or the message it is given, is outside this model. *)
Inductive HookTiming :=
| InPlace                 (* the hook calls [cb] before it returns *)
| Later                   (* it returns, and calls [cb] in a later turn *)
| Throwing (e : JsError). (* it throws instead *)

Record Host := {
  Buffer_toString : Buffer → string;            (* buf.toString() *)
  Buffer_from : string → Buffer;                (* Buffer.from(str) *)
  bs58_encode : Buffer → string;
  bs58_decode : string → Buffer;
  randomSeqno : nat → string;                   (* the n-th draw *)
  validator : Hook → Peer.t → Message → VResult;
  timing : Hook → Peer.t → Message → HookTiming;
  listener : Handler → Message → option JsError;
  super_stop : bool * list Peer.t → option JsError * (bool * list Peer.t)
}.

(** ** [utils] *)
Module utils.

(** Modelled from the spec: [utils.js] is not among the sources.  The
    message identifier is the concatenation of [from] and the text of
    [seqno]. *)
Definition msgId (from : string) (seqno : string) : MsgId := from +:+ seqno.

(** Modelled from the spec: [utils.js] is not among the sources.  True
    unless the two collections of topics are disjoint. *)
Definition anyMatch (a b : list Topic) : bool :=
  bool_decide (Exists (λ x, x ∈ b) a).

(** An argument that is one value or an array of values. *)
Inductive OneOrMany (A : Type) := One (a : A) | Many (l : list A).
Arguments One {A} a.
Arguments Many {A} l.

(** Modelled from the spec: [utils.js] is not among the sources.  Publish
    and subscribe take "one or more" topics and payloads. *)
Definition ensureArray {A} (x : OneOrMany A) : list A :=
  match x with One a => [a] | Many l => l end.

(** Modelled from the spec: [utils.js] is not among the sources.  Inbound
    messages get the textual form of [from]; the other fields are kept. *)
Definition normalizeInRpcMessages (h : Host) (msgs : list rpc.Message)
  : list Message :=
  (λ w, {| from := bs58_encode h (rpc.from w); data := rpc.data w;
           seqno := rpc.seqno w; hops := rpc.hops w;
           topicIDs := rpc.topicIDs w |}) <$> msgs.

(** Modelled from the spec: [utils.js] is not among the sources.  Outbound
    messages get the byte form of [from]; the other fields are kept. *)
Definition normalizeOutRpcMessages (h : Host) (msgs : list Message)
  : list rpc.Message :=
  (λ m, {| rpc.from := bs58_decode h (from m); rpc.data := data m;
           rpc.seqno := seqno m; rpc.hops := hops m;
           rpc.topicIDs := topicIDs m |}) <$> msgs.

End utils.

(** ** The duplicate-suppression cache *)
Module TimeCache.

(** Modelled from the spec: the cache package is not among the sources.  A
    mapping from message identifier to the time of insertion, bounded by a
    validity window. *)
Record t := {
  validityMs : Z;
  entries : gmap MsgId Z
}.

(** Modelled from the spec: the cache package is not among the sources.
    A new cache is empty. *)
Definition new (validityMs : Z) : t :=
  {| validityMs := validityMs; entries := ∅ |}.

(** Modelled from the spec: the cache package is not among the sources.
    [has] is true only for live entries. *)
Definition has (c : t) (now : Z) (key : MsgId) : bool :=
  match entries c !! key with
  | Some stamp => bool_decide (now < stamp + validityMs c)
  | None => false
  end.

(** Modelled from the spec: the cache package is not among the sources.
    Entries older than the window are evicted. *)
Definition sweep (c : t) (now : Z) : t :=
  {| validityMs := validityMs c;
     entries := filter (λ kv, now < kv.2 + validityMs c) (entries c) |}.

(** Modelled from the spec: the cache package is not among the sources.
    Eviction is lazy: it happens when an identifier is inserted. *)
Definition put (c : t) (now : Z) (key : MsgId) : t :=
  {| validityMs := validityMs c;
     entries := <[key := now]> (entries (sweep c now)) |}.

End TimeCache.

(** ** The [async] combinators

    The package is external.  Its two combinators are given first for
    iteratees that call back before they return, in the order in which they
    are started, and then ([every_run]) for iteratees that may also call back
    in a later turn or throw. *)
Module async.

(** Modelled from the spec: the [async] package is not among the sources.
    Validators of a topic are combined by conjunction with short-circuit
    semantics: in [every(coll, iteratee, cb)] the first iteratee that errors
    or answers falsy decides. *)
Fixpoint every {A} (coll : list A) (iteratee : A → VResult) : VResult :=
  match coll with
  | [] => VOk true
  | x :: coll' =>
      match iteratee x with
      | VOk true => every coll' iteratee
      | VOk false => VOk false
      | VErr e => VErr e
      end
  end.

(** Modelled from the spec: the [async] package is not among the sources.
    In [filter(coll, iteratee, cb)] the first error is handed to [cb];
    without one, [cb] gets the items with a truthy answer. *)
Fixpoint filter {A} (coll : list A) (iteratee : A → VResult)
  : JsError + list A :=
  match coll with
  | [] => inr []
  | x :: coll' =>
      match iteratee x with
      | VErr e => inl e
      | VOk b =>
          match filter coll' iteratee with
          | inl e => inl e
          | inr l => inr (if b then x :: l else l)
          end
      end
  end.

(** What the call of an iteratee comes to, as its caller sees it: it has
    called back when it returns, it will call back in a later turn, or it
    throws. *)
Inductive Call :=
| Answers (r : VResult)
| AnswersLater
| Raises (e : JsError).

(** Modelled from the spec: the [async] package is not among the sources.
    A validator is an asynchronous predicate whose callback may complete out
    of line.  [every] starts its iteratees one after the other without
    waiting for their answers and with nothing to catch what they throw.
    [every_run calls decided waiting] is what it has come to when it returns
    or is left by an exception: the answer that its callback has been called
    with, if it has been called ([decided]: the first answer that is an error
    or falsy decides at once, and with every answer in and truthy the
    callback gets a truthy one; [waiting]: an iteratee has not answered),
    and the exception of the first iteratee that throws, which ends the
    starting. *)
Fixpoint every_run (calls : list Call) (decided : option VResult)
  (waiting : bool) : option VResult * option JsError :=
  match calls with
  | [] =>
      (match decided with
       | Some r => Some r
       | None => if waiting then None else Some (VOk true)
       end, None)
  | Raises e :: _ => (decided, Some e)
  | AnswersLater :: calls' => every_run calls' decided true
  | Answers (VOk true) :: calls' => every_run calls' decided waiting
  | Answers r :: calls' =>
      every_run calls' (Some (default r decided)) waiting
  end.

End async.

(** The two forms of the forward procedure. *)
Inductive Form :=
| SyncForm      (* [src/index.js]: validators return a boolean *)
| AsyncForm.    (* the form with [addFrwdHook]: validators take a callback *)

(** ** The engine *)
Module Multicast.

Record t := {
  localId : PeerId;           (* this.libp2p.peerInfo.id.toB58String() *)
  started : bool;
  peers : list Peer.t;        (* Map keyed by [info], in insertion order *)
  cache : TimeCache.t;
  subscriptions : list Topic; (* Set *)
  fwrdHooks : gmap Topic (list Hook);  (* [_fwrdValidators] in [src/index.js] *)
  listeners : gmap Topic (list Handler);  (* the event emitter's table *)
  entropy : nat               (* number of random draws made so far *)
}.

Definition set_started (b : bool) (ps : list Peer.t) (s : t) : t :=
  {| localId := localId s; started := b; peers := ps; cache := cache s;
     subscriptions := subscriptions s; fwrdHooks := fwrdHooks s;
     listeners := listeners s; entropy := entropy s |}.

Definition set_peers (ps : list Peer.t) (s : t) : t :=
  set_started (started s) ps s.

Definition set_cache (c : TimeCache.t) (s : t) : t :=
  {| localId := localId s; started := started s; peers := peers s; cache := c;
     subscriptions := subscriptions s; fwrdHooks := fwrdHooks s;
     listeners := listeners s; entropy := entropy s |}.

Definition set_subscriptions (l : list Topic) (s : t) : t :=
  {| localId := localId s; started := started s; peers := peers s;
     cache := cache s; subscriptions := l; fwrdHooks := fwrdHooks s;
     listeners := listeners s; entropy := entropy s |}.

Definition set_fwrdHooks (r : gmap Topic (list Hook)) (s : t) : t :=
  {| localId := localId s; started := started s; peers := peers s;
     cache := cache s; subscriptions := subscriptions s; fwrdHooks := r;
     listeners := listeners s; entropy := entropy s |}.

Definition set_listeners (l : gmap Topic (list Handler)) (s : t) : t :=
  {| localId := localId s; started := started s; peers := peers s;
     cache := cache s; subscriptions := subscriptions s;
     fwrdHooks := fwrdHooks s; listeners := l; entropy := entropy s |}.

Definition set_entropy (n : nat) (s : t) : t :=
  {| localId := localId s; started := started s; peers := peers s;
     cache := cache s; subscriptions := subscriptions s;
     fwrdHooks := fwrdHooks s; listeners := listeners s; entropy := n |}.

Definition set_hops (k : Z) (m : Message) : Message :=
  {| from := from m; data := data m; seqno := seqno m; hops := k;
     topicIDs := topicIDs m |}.

(** [assert(cond, message)] *)
Definition assert {S} (cond : bool) (message : string) : M S unit :=
  if cond then ret tt else throw (AssertionError message).

(** [this.cache.put(id)] at time [now]. *)
Definition cache_put (now : Z) (id : MsgId) : M t unit :=
  modify (λ s, set_cache (TimeCache.put (cache s) now id) s) ;;
  tell (CachePut id).

(** [this.peers.forEach(f)]: [f] runs on each record in turn; an exception
    leaves the remaining records untouched. *)
Fixpoint each_peer (f : M Peer.t unit) (ps : list Peer.t)
  : Outcome unit * list Peer.t * list Event :=
  match ps with
  | [] => (Return tt, [], [])
  | p :: rest =>
      match f p with
      | (Return _, p', t1) =>
          let '(o, rest', t2) := each_peer f rest in (o, p' :: rest', t1 ++ t2)
      | (Throw e, p', t1) => (Throw e, p' :: rest, t1)
      end
  end.

Definition peers_forEach (f : M Peer.t unit) : M t unit := λ s,
  let '(o, ps, tr) := each_peer f (peers s) in (o, set_peers ps s, tr).

(** [const peer = this.peers.get(id); if (peer) { f(peer) }] *)
Fixpoint on_peer (id : PeerId) (f : M Peer.t unit) (ps : list Peer.t)
  : Outcome unit * list Peer.t * list Event :=
  match ps with
  | [] => (Return tt, [], [])
  | p :: rest =>
      if bool_decide (Peer.info p = id)
      then let '(o, p', tr) := f p in (o, p' :: rest, tr)
      else let '(o, rest', tr) := on_peer id f rest in (o, p :: rest', tr)
  end.

Definition peers_get (id : PeerId) (f : M Peer.t unit) : M t unit := λ s,
  let '(o, ps, tr) := on_peer id f (peers s) in (o, set_peers ps s, tr).

Definition addFrwdHook (topic : Topic) (hook : Hook) : M t unit :=
  modify (λ s,
    let validators := default [] (fwrdHooks s !! topic) in
    set_fwrdHooks (<[topic := Peer.set_add hook validators]> (fwrdHooks s)) s).

(** The same method under the name it has in [src/index.js]. *)
Definition addFrwdValidator (topic : Topic) (func : Hook) : M t unit :=
  addFrwdHook topic func.

Definition removeFrwdHook (topic : Topic) (hook : Hook) : M t unit :=
  modify (λ s,
    match fwrdHooks s !! topic with
    | Some validators =>
        set_fwrdHooks
          (<[topic := Peer.set_delete hook validators]> (fwrdHooks s)) s
    | None => s
    end).

(** *** The forward procedure of [src/index.js] *)
Module Sync.
Section Sync.
Context (h : Host) (registry : gmap Topic (list Hook)).

(** [validator(peer, msg)]: a boolean, or an exception. *)
Definition call_validator (peer : Peer.t) (msg : Message) (v : Hook)
  : M Peer.t bool :=
  match validator h v peer msg with
  | VOk b => ret b
  | VErr e => throw e
  end.

(** The [for (let topic of peer.topics)] loop that narrows [msgs]. *)
Fixpoint validate (peer : Peer.t) (ts : list Topic) (msgs : list Message)
  : M Peer.t (list Message) :=
  match ts with
  | [] => ret msgs
  | topic :: ts' =>
      match registry !! topic with
      | Some validators =>
          msgs' ← Array_filter msgs (λ msg,
                    Array_every validators (call_validator peer msg));
          validate peer ts' msgs'
      | None => validate peer ts' msgs
      end
  end.

(** The body of [this.peers.forEach((peer) => ...)]. *)
Definition forward_to (topics : list Topic) (messages : list Message)
  : M Peer.t unit :=
  peer ← get;
  if negb (Peer.isWritable peer)
     || negb (utils.anyMatch (Peer.topics peer) topics)
  then ret tt
  else
    msgs ← validate peer (Peer.topics peer) messages;
    Peer.sendMessages (utils.normalizeOutRpcMessages h msgs) ;;
    tell (Log (LogPublishMsgs topics (Peer.info peer))).

End Sync.

Definition _forwardMessages (h : Host) (topics : list Topic)
  (messages : list Message) : M t unit :=
  s ← get;
  peers_forEach (forward_to h (fwrdHooks s) topics messages).

End Sync.

(** *** The forward procedure of the form with [addFrwdHook] *)
Module Async.
Section Async.
Context (h : Host) (registry : gmap Topic (list Hook)).

(** [validator(peer, msg, cb)] *)
Definition call_hook (peer : Peer.t) (msg : Message) (v : Hook)
  : async.Call :=
  match timing h v peer msg with
  | InPlace => async.Answers (validator h v peer msg)
  | Later => async.AnswersLater
  | Throwing e => async.Raises e
  end.

(** The answer of the iteratee handed to [filter] when every validator
    calls back before it returns. *)
Definition check (peer : Peer.t) (topic : Topic) (validators : list Hook)
  (msg : Message) : VResult :=
  if bool_decide (topic ∉ topicIDs msg) then VOk false
  else async.every validators (λ v, validator h v peer msg).

(** What [filter(messages, iteratee, callback)] has come to when it returns
    or is left by an exception. *)
Record Fate := {
  failed : option JsError;   (* [callback] has run with this error *)
  raised : option JsError;   (* a validator has thrown *)
  pending : bool;            (* the answer for a message is not in *)
  kept : list Message        (* the messages with a truthy answer *)
}.

(** Modelled from the spec: the [async] package is not among the sources.
    [filter] starts the iteratee on the messages one after the other without
    waiting for the answers; the first error that comes in is handed to
    [callback] at once, and otherwise [callback] gets the messages with a
    truthy answer when every answer is in.  The iteratee answers at once for
    a message that is not addressed to the topic, and starts [every] on the
    validators otherwise. *)
Fixpoint filter_run (peer : Peer.t) (topic : Topic) (validators : list Hook)
  (msgs : list Message) : Fate :=
  match msgs with
  | [] => {| failed := None; raised := None; pending := false; kept := [] |}
  | msg :: msgs' =>
      if bool_decide (topic ∉ topicIDs msg)
      then filter_run peer topic validators msgs'
      else
        let '(answer, thrown) :=
          async.every_run (call_hook peer msg <$> validators) None false in
        let rest :=
          match thrown with
          | Some e => {| failed := None; raised := Some e; pending := false;
                         kept := [] |}
          | None => filter_run peer topic validators msgs'
          end in
        match answer with
        | Some (VErr err) =>
            {| failed := Some err; raised := raised rest;
               pending := pending rest; kept := kept rest |}
        | Some (VOk true) =>
            {| failed := failed rest; raised := raised rest;
               pending := pending rest; kept := msg :: kept rest |}
        | Some (VOk false) => rest
        | None =>
            {| failed := failed rest; raised := raised rest;
               pending := true; kept := kept rest |}
        end
  end.

(** The body of the [for (let topic of peer.topics)] loop. *)
Definition forward_topic (topics : list Topic) (messages : list Message)
  (topic : Topic) : M Peer.t unit :=
  match registry !! topic with
  | Some validators =>
      tell (Log LogHasHooks) ;;
      peer ← get;
      let fate := filter_run peer topic validators messages in
      match failed fate with
      | Some err => tell (Log (LogError err))
      | None => ret tt
      end ;;
      match raised fate with
      | Some e => throw e
      | None =>
          match failed fate with
          | Some _ => ret tt
          | None =>
              if pending fate then tell (Postpone (Peer.info peer) topic)
              else if bool_decide (0 < length (kept fate))%nat then
                Peer.sendMessages
                  (utils.normalizeOutRpcMessages h (kept fate)) ;;
                tell (Log (LogPublishMsgs topics (Peer.info peer)))
              else ret tt
          end
      end
  | None =>
      tell (Log LogNoHooks) ;;
      peer ← get;
      Peer.sendMessages (utils.normalizeOutRpcMessages h messages) ;;
      tell (Log (LogPublishMsgs topics (Peer.info peer)))
  end.

(** The body of [this.peers.forEach((peer) => ...)]. *)
Definition forward_to (topics : list Topic) (messages : list Message)
  : M Peer.t unit :=
  peer ← get;
  if negb (Peer.isWritable peer)
     || negb (utils.anyMatch (Peer.topics peer) topics)
  then ret tt
  else forEach (Peer.topics peer) (forward_topic topics messages).

End Async.

Definition _forwardMessages (h : Host) (topics : list Topic)
  (messages : list Message) : M t unit :=
  s ← get;
  peers_forEach (forward_to h (fwrdHooks s) topics messages).

End Async.

(** *** What the two forms share *)
Section Engine.
Context (h : Host) (form : Form).

(** [this.emit(topic, message)] of the event emitter that the engine
    inherits: the listeners of the topic run in the order in which they were
    added, and what one of them throws leaves the call; an [error] event
    that nobody listens to is thrown, as an unhandled error whose wording
    depends on the release of the runtime. *)
Definition emit (topic : Topic) (message : Message) : M t unit :=
  tell (Emit topic message) ;;
  s ← get;
  match default [] (listeners s !! topic) with
  | [] =>
      if bool_decide (topic = "error") then throw (Error "Unhandled error.")
      else ret tt
  | handlers =>
      forEach handlers (λ f,
        match listener h f message with
        | Some e => throw e
        | None => ret tt
        end)
  end.

Definition _emitMessages (topics : list Topic) (messages : list Message)
  : M t unit :=
  forEach topics (λ topic,
    s ← get;
    if negb (bool_decide (topic ∈ subscriptions s)) then ret tt
    else forEach messages (λ message, emit topic message)).

Definition _forwardMessages (topics : list Topic) (messages : list Message)
  : M t unit :=
  match form with
  | SyncForm => Sync._forwardMessages h topics messages
  | AsyncForm => Async._forwardMessages h topics messages
  end.

(** The body of [msgs.forEach((msg) => ...)] in [_processRpcMessages]. *)
Definition process (now : Z) (msg : Message) : M t unit :=
  let seqno := utils.msgId (from msg) (Buffer_toString h (seqno msg)) in
  s ← get;
  if TimeCache.has (cache s) now seqno then ret tt
  else
    cache_put now seqno ;;
    _emitMessages (topicIDs msg) [msg] ;;
    if bool_decide (hops msg = 0) then tell (Log LogSkipHopZero)
    else
      let msg :=
        if bool_decide (0 < hops msg) then set_hops (hops msg - 1) msg
        else msg in
      _forwardMessages (topicIDs msg) [msg].

Definition _processRpcMessages (now : Z) (msgs : list Message) : M t unit :=
  forEach msgs (process now).

Definition _onRpc (now : Z) (idB58Str : PeerId) (rpc : option rpc.RPC)
  : M t unit :=
  match rpc with
  | None => ret tt
  | Some rpc =>
      tell (Log (LogRpcFrom idB58Str)) ;;
      match rpc.msgs rpc with
      | Some ((_ :: _) as msgs) =>
          _processRpcMessages now (utils.normalizeInRpcMessages h msgs)
      | _ => ret tt
      end ;;
      match rpc.subscriptions rpc with
      | Some ((_ :: _) as subs) =>
          peers_get idB58Str (Peer.updateSubscriptions subs)
      | _ => ret tt
      end
  end.

Definition stop (callback : Callback) : M t unit :=
  s ← get;
  let '(err, (started', peers')) := super_stop h (started s, peers s) in
  put (set_started started' peers' s) ;;
  match err with
  | Some e => tell (Invoke callback (Some e))
  | None =>
      modify (set_subscriptions []) ;;
      tell (Invoke callback None)
  end.

(** [buildMessage] inside [publish]. *)
Definition buildMessage (now : Z) (from : PeerId) (topics : list Topic)
  (hops : Z) (msg : Buffer) : M t Message :=
  s ← get;
  let seqno := randomSeqno h (entropy s) in
  put (set_entropy (S (entropy s)) s) ;;
  cache_put now (utils.msgId from seqno) ;;
  ret {| from := from; data := msg; hops := hops;
         seqno := Buffer_from h seqno; topicIDs := topics |}.

Definition publish (now : Z) (topics : utils.OneOrMany Topic)
  (messages : utils.OneOrMany Buffer) (hops : Z) : M t unit :=
  s ← get;
  assert (started s) "Multicast is not started" ;;
  tell (Log LogPublish) ;;
  let topics := utils.ensureArray topics in
  let messages := utils.ensureArray messages in
  let from := localId s in
  msgObjects ← Array_map messages (buildMessage now from topics hops);
  _emitMessages topics msgObjects ;;
  _forwardMessages topics msgObjects.

(** [sendSubscriptionsOnceReady] inside [subscribe]. *)
Definition sendSubscriptionsOnceReady (topics : list Topic) : M Peer.t unit :=
  peer ← get;
  if Peer.isWritable peer then Peer.sendSubscriptions (Peer.JsArray topics)
  else put (Peer.set_pending (Peer.pending peer ++ [topics]) peer).

Definition subscribe (topics : utils.OneOrMany Topic) : M t unit :=
  s ← get;
  assert (started s) "Multicast is not started" ;;
  let topics := utils.ensureArray topics in
  forEach topics (λ topic,
    modify (λ s, set_subscriptions (Peer.set_add topic (subscriptions s)) s)) ;;
  peers_forEach (sendSubscriptionsOnceReady topics).

(** The event emitter the engine inherits. *)
Definition listenerCount (topic : Topic) (s : t) : nat :=
  length (default [] (listeners s !! topic)).

Definition on (topic : Topic) (handler : Handler) : M t unit :=
  modify (λ s,
    set_listeners
      (<[topic := default [] (listeners s !! topic) ++ [handler]]>
         (listeners s)) s).

(** [removeListener] of the event emitter: the most recently added
    instance of the handler goes, and a topic left without handlers loses
    its slot in the table. *)
Fixpoint remove_first (handler : Handler) (l : list Handler) : list Handler :=
  match l with
  | [] => []
  | x :: l' =>
      if bool_decide (x = handler) then l' else x :: remove_first handler l'
  end.

Definition remove_last (handler : Handler) (l : list Handler) : list Handler :=
  reverse (remove_first handler (reverse l)).

Definition removeListener (topic : Topic) (handler : Handler) : M t unit :=
  modify (λ s,
    match listeners s !! topic with
    | None => s
    | Some l =>
        match remove_last handler l with
        | [] => set_listeners (delete topic (listeners s)) s
        | l' => set_listeners (<[topic := l']> (listeners s)) s
        end
    end).

(** What [unsubscribe] hands to [setImmediate]: [checkIfReady.bind(peer)].
    [bind] fixes [this], not the argument, so the call that the event loop
    makes later is [checkIfReady()] for the captured [topics], with [peer]
    undefined. *)
Inductive Immediate := CheckIfReady (topics : list Topic).

(** [checkIfReady(peer)] inside [unsubscribe], for a record of the peer
    map; the result lists what it hands to [setImmediate]. *)
Definition checkIfReady (topics : list Topic)
  : M Peer.t (list Immediate) :=
  peer ← get;
  if Peer.isWritable peer then
    Peer.sendUnsubscriptions (Peer.JsArray topics) ;; ret []
  else ret [CheckIfReady topics].

(** One turn of the event loop on a scheduled [checkIfReady()]: [peer] is
    undefined, so the test [peer && peer.isWritable] fails and the call
    schedules itself again; it has no record to write to. *)
Definition run_immediate (i : Immediate) : list Immediate :=
  match i with CheckIfReady topics => [CheckIfReady topics] end.

(** [this.peers.forEach(f)] for a body that schedules immediates. *)
Fixpoint each_peer_collect {A} (f : M Peer.t (list A)) (ps : list Peer.t)
  : Outcome (list A) * list Peer.t * list Event :=
  match ps with
  | [] => (Return [], [], [])
  | p :: rest =>
      match f p with
      | (Return l1, p', t1) =>
          match each_peer_collect f rest with
          | (Return l2, rest', t2) => (Return (l1 ++ l2), p' :: rest', t1 ++ t2)
          | (Throw e, rest', t2) => (Throw e, p' :: rest', t1 ++ t2)
          end
      | (Throw e, p', t1) => (Throw e, p' :: rest, t1)
      end
  end.

Definition peers_forEach_collect {A} (f : M Peer.t (list A))
  : M t (list A) :=
  λ s, let '(o, ps, tr) := each_peer_collect f (peers s) in
       (o, set_peers ps s, tr).

Definition unsubscribe (topics : utils.OneOrMany Topic)
  : M t (list Immediate) :=
  s ← get;
  if negb (started s) then ret []
  else
    let topics := utils.ensureArray topics in
    forEach topics (λ topic,
      modify (λ s,
        set_subscriptions (Peer.set_delete topic (subscriptions s)) s)) ;;
    peers_forEach_collect (checkIfReady topics).

(** [_onDial]: the base class's [_onDial] is not among the sources; it is
    the argument [super_onDial], a computation on the engine that answers
    with the error it hands to its callback, if any. *)
Definition _onDial (super_onDial : PeerId → M t (option JsError))
  (idB58Str : PeerId) (callback : Callback) : M t unit :=
  err ← super_onDial idB58Str;
  match err with
  | Some e => tell (Invoke callback (Some e))
  | None =>
      s ← get;
      if bool_decide (idB58Str ∈ Peer.info <$> peers s) then
        peers_get idB58Str
          (Peer.sendSubscriptions (Peer.JsSet (subscriptions s))) ;;
        tell (Defer callback None)
      else
        throw (TypeError
                 "Cannot read property 'sendSubscriptions' of undefined")
  end.

End Engine.
End Multicast.

(** ** The facade *)
Module Facade.

(** The [options] object of [subscribe]: either property may be absent. *)
Record Options := {
  frwdHooks : option (list Hook);
  frwdHook : option (list Hook)
}.

(** The second argument of [subscribe] is the options object or, when the
    options are left out, the handler. *)
Inductive OptionsArg :=
| IsFunction (f : Handler)
| IsObject (o : Options).

Record t := {
  node_isStarted : bool;       (* node.isStarted() *)
  multicast : Multicast.t
}.

Definition on_multicast {A} (m : M Multicast.t A) : M t A := λ s,
  let '(o, mc, tr) := m (multicast s) in
  (o, {| node_isStarted := node_isStarted s; multicast := mc |}, tr).

Definition NOT_STARTED_YET : string := "The libp2p node is not started yet".

Definition addFrwdHooks (topic : Topic) (hooks : list Hook) : M t unit :=
  forEach hooks (λ h, on_multicast (Multicast.addFrwdHook topic h)).

Definition removeFrwdHooks (topic : Topic) (hooks : list Hook) : M t unit :=
  forEach hooks (λ h, on_multicast (Multicast.removeFrwdHook topic h)).

Definition subscribe (topic : Topic) (options : OptionsArg)
  (handler : Handler) (callback : Callback) : M t unit :=
  let '(options, handler, callback) :=
    match options with
    | IsFunction f => ({| frwdHooks := None; frwdHook := None |}, f, handler)
    | IsObject o => (o, handler, callback)
    end in
  s ← get;
  if negb (node_isStarted s) && negb (Multicast.started (multicast s)) then
    tell (Defer callback (Some (Error NOT_STARTED_YET)))
  else
    when (bool_decide (Multicast.listenerCount topic (multicast s) = 0%nat))
      (on_multicast (Multicast.subscribe (utils.One topic))) ;;
    let frwdHooks' := default [] (frwdHooks options) in
    when (bool_decide (length frwdHooks' ≠ 0%nat))
      match frwdHook options with
      | None => throw (TypeError "Cannot read property 'forEach' of undefined")
      | Some hooks =>
          forEach hooks (λ h, on_multicast (Multicast.addFrwdHook topic h))
      end ;;
    on_multicast (Multicast.on topic handler) ;;
    tell (Defer callback None).

(** The [data] argument of [publish]: a buffer, or something else. *)
Inductive JsValue :=
| IsBuffer (b : Buffer)
| NotBuffer.

Definition unsubscribe (topic : Topic) (handler : Handler)
  : M t (list Multicast.Immediate) :=
  s ← get;
  if negb (node_isStarted s) && negb (Multicast.started (multicast s)) then
    throw (Error NOT_STARTED_YET)
  else
    on_multicast (Multicast.removeListener topic handler) ;;
    s ← get;
    if bool_decide (Multicast.listenerCount topic (multicast s) = 0%nat)
    then on_multicast (Multicast.unsubscribe (utils.One topic))
    else ret [].

Definition publish (h : Host) (form : Form) (now : Z)
  (topic : utils.OneOrMany Topic) (data : JsValue) (hops : Z)
  (callback : Callback) : M t unit :=
  s ← get;
  if negb (node_isStarted s) && negb (Multicast.started (multicast s)) then
    tell (Defer callback (Some (Error NOT_STARTED_YET)))
  else
    match data with
    | NotBuffer => tell (Defer callback (Some (Error "data must be a Buffer")))
    | IsBuffer b =>
        on_multicast (Multicast.publish h form now topic (utils.One b) hops) ;;
        tell (Defer callback None)
    end.

(** [ls] and [peers] hand their answer to the callback in a later turn of
    the event loop.  What that turn comes to is the result here: the
    callback is called with an error or with a value, or the deferred call
    itself fails. *)
Inductive Deferred (A : Type) :=
| Answer (r : JsError + A)
| Fails (e : JsError).
Arguments Answer {A} r.
Arguments Fails {A} e.

Definition ls : M t (Deferred (list Topic)) :=
  s ← get;
  if negb (node_isStarted s) && negb (Multicast.started (multicast s)) then
    ret (Answer (inl (Error NOT_STARTED_YET)))
  else ret (Answer (inr (Multicast.subscriptions (multicast s)))).

(** [topic ? peer.topics.has(topic) : true]: a topic that is left out, and
    the empty string, are falsy. *)
Definition peers_keep (topic : option Topic) (peer : Peer.t) : bool :=
  match topic with
  | None => true
  | Some t =>
      if bool_decide (t = "") then true else bool_decide (t ∈ Peer.topics peer)
  end.

(** [peers(topic, callback)], or [peers(callback)] with the topic left out
    ([None]).  The guard comes before the test that finds the callback in
    the place of the topic: when it fires on a call without topic, the
    deferred call has no function to call. *)
Definition peers (topic : option Topic) : M t (Deferred (list PeerId)) :=
  s ← get;
  if negb (node_isStarted s) && negb (Multicast.started (multicast s)) then
    match topic with
    | Some _ => ret (Answer (inl (Error NOT_STARTED_YET)))
    | None => ret (Fails (TypeError "callback is not a function"))
    end
  else
    ret (Answer (inr (Peer.info
                        <$> filter (λ peer, peers_keep topic peer)
                              (Multicast.peers (multicast s))))).

End Facade.

(** ** Reading a trace *)

(** The records pushed on the stream of peer [id]. *)
Definition pushed (id : PeerId) (tr : list Event) : list rpc.RPC :=
  omap (λ e, match e with
             | Push to r => if bool_decide (to = id) then Some r else None
             | _ => None
             end) tr.

(** The messages inside the records pushed on the stream of peer [id]. *)
Definition sent (id : PeerId) (tr : list Event) : list rpc.Message :=
  r ← pushed id tr; default [] (rpc.msgs r).

(** The local deliveries. *)
Definition emitted (tr : list Event) : list (Topic * Message) :=
  omap (λ e, match e with Emit t m => Some (t, m) | _ => None end) tr.

(** The identifier that the receive path gives a message. *)
Definition id_of (h : Host) (m : Message) : MsgId :=
  utils.msgId (from m) (Buffer_toString h (seqno m)).

(** The local deliveries of the messages with identifier [id]. *)
Definition emitted_for (h : Host) (id : MsgId) (tr : list Event)
  : list (Topic * Message) :=
  filter (λ tm, id_of h tm.2 = id) (emitted tr).

(** A run of the engine over inbound records: each arrives at a time, from
    a peer; an exception ends the handling of that record only. *)
Record Delivery := {
  at_time : Z;
  sender : PeerId;
  payload : option rpc.RPC
}.

Fixpoint deliver (h : Host) (form : Form) (ds : list Delivery)
  (s : Multicast.t) : Multicast.t * list Event :=
  match ds with
  | [] => (s, [])
  | d :: ds' =>
      let '(_, s1, t1) :=
        Multicast._onRpc h form (at_time d) (sender d) (payload d) s in
      let '(s2, t2) := deliver h form ds' s1 in
      (s2, t1 ++ t2)
  end.

(** ** Concrete collaborators and states, for the examples *)

(** The [n]-th draw of the demo random source: [n] strokes and a dot. *)
Fixpoint strokes (n : nat) : string :=
  match n with
  | O => "."
  | S n' => "|" +:+ strokes n'
  end.

(** Hook [0] approves, hook [1] rejects, any other hook fails. *)
Definition demo_validator (v : Hook) (_ : Peer.t) (_ : Message) : VResult :=
  match v with
  | 0%nat => VOk true
  | 1%nat => VOk false
  | _ => VErr (Error "boom")
  end.

Definition demo_host : Host :=
  {| Buffer_toString := String.string_of_list_byte;
     Buffer_from := String.list_byte_of_string;
     bs58_encode := String.string_of_list_byte;
     bs58_decode := String.list_byte_of_string;
     randomSeqno := strokes;
     validator := demo_validator;
     timing := λ _ _ _, InPlace;
     listener := λ _ _, None;
     super_stop := λ '(_, ps), (None, (false, [])) |}.

Definition demo_peer (id : PeerId) (ts : list Topic) : Peer.t :=
  {| Peer.info := id; Peer.topics := ts; Peer.stream := Some [];
     Peer._references := 1; Peer.pending := [] |}.

Definition demo_engine (ps : list Peer.t) (subs : list Topic)
  (reg : gmap Topic (list Hook)) : Multicast.t :=
  {| Multicast.localId := "QmSelf"; Multicast.started := true;
     Multicast.peers := ps; Multicast.cache := TimeCache.new 30000;
     Multicast.subscriptions := subs; Multicast.fwrdHooks := reg;
     Multicast.listeners := ∅; Multicast.entropy := 0 |}.

Definition demo_message (k : Z) (ts : list Topic) : Message :=
  {| from := "QmOther"; data := []; seqno := String.list_byte_of_string "s1";
     hops := k; topicIDs := ts |}.

(** A second message of the same origin, with the next sequence number. *)
Definition next_message (k : Z) (ts : list Topic) : Message :=
  {| from := "QmOther"; data := []; seqno := String.list_byte_of_string "s2";
     hops := k; topicIDs := ts |}.

(** ** Notions used in the statements and proofs *)

(** A computation on a peer record is local for a list of wire messages
    when it keeps the identity and the topics of the record and, apart from
    log lines and postponed answers, only pushes on the record's own stream
    records whose messages are taken from that list. *)
Definition is_local_event (id : PeerId) (allowed : list rpc.Message)
  (e : Event) : Prop :=
  match e with
  | Push to r => to = id ∧ default [] (rpc.msgs r) ⊆ allowed
  | Log _ => True
  | Postpone _ _ => True
  | _ => False
  end.

Definition local {A} (allowed : list rpc.Message) (m : M Peer.t A) : Prop :=
  ∀ p, Peer.info (final (m p)) = Peer.info p
       ∧ Peer.topics (final (m p)) = Peer.topics p
       ∧ Forall (is_local_event (Peer.info p) allowed) (trace (m p)).

(** A validator approves when it answers with a truthy value. *)
Definition approved (r : VResult) : bool :=
  match r with VOk true => true | _ => false end.

(** Every validator registered for [topic] approves [msg] for [peer]; a
    topic without an entry in the registry approves trivially. *)
Definition passes (h : Host) (registry : gmap Topic (list Hook))
  (peer : Peer.t) (msg : Message) (topic : Topic) : bool :=
  match registry !! topic with
  | Some validators =>
      forallb (λ v, approved (validator h v peer msg)) validators
  | None => true
  end.

(** [msg] passes every topic of [ts]. *)
Definition passes_all (h : Host) (registry : gmap Topic (list Hook))
  (peer : Peer.t) (ts : list Topic) (msg : Message) : bool :=
  forallb (passes h registry peer msg) ts.

(** The narrowing loop of the synchronous form, as a function. *)
Fixpoint narrow (h : Host) (registry : gmap Topic (list Hook))
  (peer : Peer.t) (ts : list Topic) (msgs : list Message)
  : JsError + list Message :=
  match ts with
  | [] => inr msgs
  | topic :: ts' =>
      match registry !! topic with
      | Some validators =>
          match async.filter msgs (λ msg,
                  async.every validators
                    (λ v, validator h v peer msg)) with
          | inl e => inl e
          | inr l => narrow h registry peer ts' l
          end
      | None => narrow h registry peer ts' msgs
      end
  end.

Definition of_sum {A} (r : JsError + A) : Outcome A :=
  match r with inl e => Throw e | inr a => Return a end.

Definition of_VResult (r : VResult) : Outcome bool :=
  match r with VOk b => Return b | VErr e => Throw e end.

(** One message in its wire form. *)
Definition on_wire (h : Host) (m : Message) : rpc.Message :=
  {| rpc.from := bs58_decode h (from m); rpc.data := data m;
     rpc.seqno := seqno m; rpc.hops := hops m; rpc.topicIDs := topicIDs m |}.

(** A computation that never throws. *)
Definition total {S A} (m : M S A) : Prop :=
  ∀ s, ∃ a, outcome (m s) = Return a.

(** Every validator of [vs] calls back before it returns, for record [q]
    and every message of the batch that is addressed to [t]. *)
Definition in_place (h : Host) (q : Peer.t) (t : Topic) (vs : list Hook)
  (messages : list Message) : Prop :=
  ∀ v m, v ∈ vs → m ∈ messages → t ∈ topicIDs m → timing h v q m = InPlace.

(** No validator of the registry throws on a message of the batch, whatever
    the record it is called for. *)
Definition never_throws (h : Host) (registry : gmap Topic (list Hook))
  (messages : list Message) : Prop :=
  ∀ t vs v p m e, registry !! t = Some vs → v ∈ vs → m ∈ messages →
                  timing h v p m ≠ Throwing e.

(** The condition under which the callback form lets [m] through for
    topic [t] of record [q] before it returns: the topic has no entry in the
    registry, or every validator of the entry approves [m], and on every
    message of the batch that is addressed to [t] none of them fails and each
    of them calls back before it returns, whatever has been pushed on the
    stream of [q] so far. *)
Definition lets_through (h : Host) (registry : gmap Topic (list Hook))
  (q : Peer.t) (messages : list Message) (m : Message)
  (t : Topic) : Prop :=
  match registry !! t with
  | None => True
  | Some vs =>
      (∀ st v, v ∈ vs →
         validator h v (Peer.set_stream (Some st) q) m = VOk true)
      ∧ (∀ st v m' e, v ∈ vs → m' ∈ messages → t ∈ topicIDs m' →
           validator h v (Peer.set_stream (Some st) q) m' ≠ VErr e)
      ∧ (∀ st v m', v ∈ vs → m' ∈ messages → t ∈ topicIDs m' →
           timing h v (Peer.set_stream (Some st) q) m' = InPlace)
  end.


(** The local deliveries of [_emitMessages]: for each topic, in order,
    that is locally subscribed, each message in order. *)
Definition deliveries (subs topics : list Topic) (messages : list Message)
  : list Event :=
  t ← filter (λ t, t ∈ subs) topics; Emit t <$> messages.

(** [emit topic message] returns: no listener of the topic throws on the
    message, and the event is not an [error] event without a listener. *)
Definition quiet (h : Host) (s : Multicast.t) (topic : Topic)
  (message : Message) : bool :=
  match default [] (Multicast.listeners s !! topic) with
  | [] => negb (bool_decide (topic = "error"))
  | handlers =>
      forallb (λ f, match listener h f message with
                    | Some _ => false
                    | None => true
                    end) handlers
  end.

(** Every local delivery of [_emitMessages topics messages] returns. *)
Definition calm (h : Host) (s : Multicast.t) (topics : list Topic)
  (messages : list Message) : bool :=
  forallb (λ topic, negb (bool_decide (topic ∈ Multicast.subscriptions s))
                    || forallb (quiet h s topic) messages) topics.

(** The cache holds [id] with a stamp that is not older than [T0]. *)
Definition live_since (T0 : Z) (c : TimeCache.t) (id : MsgId) : Prop :=
  ∃ stamp, TimeCache.entries c !! id = Some stamp ∧ T0 ≤ stamp.

(** All local deliveries for [id] in a trace come from one run of the
    local emit on one message: they are deliveries of that message, at most
    one for each entry of its [topicIDs]. *)
Definition one_run (h : Host) (id : MsgId) (tr : list Event) : Prop :=
  ∃ m, emitted_for h id tr `sublist_of` ((λ t, (t, m)) <$> topicIDs m).

(** What a stretch of engine activity inside the window that starts at
    [T0] does about identifier [id]: the window is kept; an identifier that
    is cached stays cached and is not delivered again; and the deliveries
    for [id] come from one run, after which [id] is cached. *)
Definition good_step (h : Host) (T0 : Z) (id : MsgId) (s s' : Multicast.t)
  (tr : list Event) : Prop :=
  TimeCache.validityMs (Multicast.cache s')
  = TimeCache.validityMs (Multicast.cache s)
  ∧ (live_since T0 (Multicast.cache s) id →
     live_since T0 (Multicast.cache s') id ∧ emitted_for h id tr = [])
  ∧ one_run h id tr
  ∧ (emitted_for h id tr ≠ [] → live_since T0 (Multicast.cache s') id).

(** The identifiers that [publish] caches for [n] payloads, the random
    source having been drawn [e] times before. *)
Fixpoint drawn_ids (h : Host) (from : PeerId) (e n : nat) : list MsgId :=
  match n with
  | O => []
  | S n' => utils.msgId from (randomSeqno h e) :: drawn_ids h from (S e) n'
  end.

(** The messages that [publish] builds. *)
Fixpoint built (h : Host) (from : PeerId) (topics : list Topic) (hops : Z)
  (e : nat) (payloads : list Buffer) : list Message :=
  match payloads with
  | [] => []
  | msg :: rest =>
      {| from := from; data := msg; hops := hops;
         seqno := Buffer_from h (randomSeqno h e); topicIDs := topics |}
      :: built h from topics hops (S e) rest
  end.

(** The subscription record that [_sendRawSubscriptions] builds. *)
Definition announcement (subscribe : bool) (ts : list Topic) : rpc.RPC :=
  {| rpc.subscriptions :=
       Some ((λ topic, {| rpc.subscribe := subscribe; rpc.topicCID := topic |})
               <$> ts);
     rpc.msgs := None |}.

(** The flag of the last delta of [changes] that names topic [t]. *)
Fixpoint last_delta (t : Topic) (changes : list rpc.SubOpts) : option bool :=
  match changes with
  | [] => None
  | c :: cs =>
      match last_delta t cs with
      | Some b => Some b
      | None =>
          if bool_decide (rpc.topicCID c = t) then Some (rpc.subscribe c)
          else None
      end
  end.

(** What [subscribe] and [unsubscribe] do to one record of the peer map. *)
Definition announced (ts : list Topic) (p : Peer.t) : Peer.t :=
  match Peer.stream p with
  | Some q => Peer.set_stream (Some (q ++ [announcement true ts])) p
  | None => Peer.set_pending (Peer.pending p ++ [ts]) p
  end.

Definition retracted (ts : list Topic) (p : Peer.t) : Peer.t :=
  match Peer.stream p with
  | Some q => Peer.set_stream (Some (q ++ [announcement false ts])) p
  | None => p
  end.

(** The pushes of a pass over the peer map that sends [r] to every
    writable record. *)
Definition broadcast (r : rpc.RPC) (ps : list Peer.t) : list Event :=
  p ← ps; if Peer.isWritable p then [Push (Peer.info p) r] else [].

(** A base [_onDial] for the examples: it adds a connected record for the
    peer and reports no error. *)
Definition demo_onDial (id : PeerId) : M Multicast.t (option JsError) :=
  modify (λ s, Multicast.set_peers
                 (Multicast.peers s ++ [demo_peer id []]) s) ;;
  ret None.

(** The facade with another engine. *)
Definition with_multicast (mc : Multicast.t) (s : Facade.t) : Facade.t :=
  {| Facade.node_isStarted := Facade.node_isStarted s;
     Facade.multicast := mc |}.

(** A host whose base [stop] fails and leaves the engine running. *)
Definition failing_host : Host :=
  {| Buffer_toString := String.string_of_list_byte;
     Buffer_from := String.list_byte_of_string;
     bs58_encode := String.string_of_list_byte;
     bs58_decode := String.list_byte_of_string;
     randomSeqno := strokes;
     validator := demo_validator;
     timing := λ _ _ _, InPlace;
     listener := λ _ _, None;
     super_stop := λ st, (Some (Error "not started"), st) |}.

(** A host with hooks and listeners that misbehave.  Hooks [0], [1] and
    [2] are those of the first host; hook [3] fails on a message with seven
    hops left and approves any other; hook [4] approves, but only calls back
    after it has returned; hook [5] throws.  Listener [9] throws. *)
Definition rough_validator (v : Hook) (_ : Peer.t) (m : Message) : VResult :=
  match v with
  | 0%nat | 4%nat | 5%nat => VOk true
  | 1%nat => VOk false
  | 3%nat => if bool_decide (hops m = 7) then VErr (Error "boom") else VOk true
  | _ => VErr (Error "boom")
  end.

Definition rough_timing (v : Hook) (_ : Peer.t) (_ : Message) : HookTiming :=
  match v with
  | 4%nat => Later
  | 5%nat => Throwing (Error "thrown")
  | _ => InPlace
  end.

Definition rough_listener (f : Handler) (_ : Message) : option JsError :=
  match f with
  | 9%nat => Some (Error "listener")
  | _ => None
  end.

Definition rough_host : Host :=
  {| Buffer_toString := String.string_of_list_byte;
     Buffer_from := String.list_byte_of_string;
     bs58_encode := String.string_of_list_byte;
     bs58_decode := String.list_byte_of_string;
     randomSeqno := strokes;
     validator := rough_validator;
     timing := rough_timing;
     listener := rough_listener;
     super_stop := λ '(_, ps), (None, (false, [])) |}.

(** * Properties *)

(** ** Running computations *)

Lemma run_bind {S A B} (m : M S A) (k : A → M S B) (s : S) :
  (m ≫= k) s =
    match m s with
    | (Return a, s1, t1) => let '(o, s2, t2) := k a s1 in (o, s2, t1 ++ t2)
    | (Throw e, s1, t1) => (Throw e, s1, t1)
    end.
Proof. reflexivity. Qed.

Lemma run_get {S B} (k : S → M S B) (s : S) : (get ≫= k) s = k s s.
Proof. rewrite run_bind. cbn. by destruct (k s s) as [[o s2] t2]. Qed.

(** ** The peer record *)

Lemma isWritable_false (p : Peer.t) :
  Peer.isWritable p = false ↔ Peer.stream p = None.
Proof.
  unfold Peer.isWritable. destruct (Peer.stream p); cbn; split; try done.
Qed.

Lemma isWritable_true (p : Peer.t) :
  Peer.isWritable p = true ↔ ∃ q, Peer.stream p = Some q.
Proof.
  unfold Peer.isWritable. destruct (Peer.stream p) as [q|]; cbn.
  - split; [eauto | done].
  - split; [done | by intros [q ?]].
Qed.

Lemma write_closed (p : Peer.t) (msg : rpc.RPC) (cb : option Callback) :
  Peer.stream p = None →
  Peer.write msg cb p =
    (Return tt, p,
     match cb with
     | Some c =>
         [Invoke c (Some (Error ("No writable connection to "
                                 +:+ Peer.info p)))]
     | None => []
     end).
Proof.
  intros E. unfold Peer.write. rewrite run_get.
  apply isWritable_false in E. rewrite E. cbn. by destruct cb.
Qed.

Lemma write_open (p : Peer.t) (q : list rpc.RPC) (msg : rpc.RPC) :
  Peer.stream p = Some q →
  Peer.write msg None p =
    (Return tt, Peer.set_stream (Some (q ++ [msg])) p,
     [Push (Peer.info p) msg]).
Proof.
  intros E. unfold Peer.write. rewrite run_get.
  assert (Peer.isWritable p = true) as -> by (apply isWritable_true; eauto).
  rewrite E. reflexivity.
Qed.

Lemma set_stream_same (p : Peer.t) : Peer.set_stream (Peer.stream p) p = p.
Proof. by destruct p. Qed.

(** C10. A [write] on a record that has no writable stream returns
    normally, leaves the record as it was, and hands the
    no-writable-connection error to the callback when there is one; without
    a callback nothing at all is observable. *)
Theorem write_without_stream (p : Peer.t) (msg : rpc.RPC)
  (cb : option Callback) :
  Peer.isWritable p = false →
  Peer.write msg cb p =
    (Return tt, p,
     match cb with
     | Some c =>
         [Invoke c (Some (Error ("No writable connection to "
                                 +:+ Peer.info p)))]
     | None => []
     end).
Proof. intros E. apply write_closed. by apply isWritable_false. Qed.

Lemma write_without_stream_witness :
  Peer.isWritable (Peer.new "QmA") = false ∧
  Peer.write {| rpc.subscriptions := None; rpc.msgs := Some [] |} None
    (Peer.new "QmA") = (Return tt, Peer.new "QmA", []).
Proof. split; [reflexivity | by apply write_without_stream]. Defined.

(** C7, as the code has it.  An empty [Set] of topics is a no-op.  On a
    record with a writable stream, [sendSubscriptions] and
    [sendUnsubscriptions] of a non-empty collection push exactly one record,
    with one entry per topic, in order, carrying [true] and [false]
    respectively, and [sendMessages] pushes exactly one record whose [msgs]
    is the list it was given, whatever its length.  On a record without a
    writable stream the three push nothing and change nothing. *)
Theorem send_pushes_one_record (p : Peer.t) :
  (∀ b, Peer._sendRawSubscriptions (Peer.JsSet []) b p = (Return tt, p, []))
  ∧ (∀ q topics, Peer.stream p = Some q → Peer.items topics ≠ [] →
       let subs b :=
         {| rpc.subscriptions :=
              Some ((λ t, {| rpc.subscribe := b; rpc.topicCID := t |})
                      <$> Peer.items topics);
            rpc.msgs := None |} in
       Peer.sendSubscriptions topics p =
         (Return tt, Peer.set_stream (Some (q ++ [subs true])) p,
          [Push (Peer.info p) (subs true)])
       ∧ Peer.sendUnsubscriptions topics p =
         (Return tt, Peer.set_stream (Some (q ++ [subs false])) p,
          [Push (Peer.info p) (subs false)]))
  ∧ (∀ q msgs, Peer.stream p = Some q →
       let r := {| rpc.subscriptions := None; rpc.msgs := Some msgs |} in
       Peer.sendMessages msgs p =
         (Return tt, Peer.set_stream (Some (q ++ [r])) p,
          [Push (Peer.info p) r]))
  ∧ (Peer.stream p = None → ∀ topics msgs,
       Peer.sendSubscriptions topics p = (Return tt, p, [])
       ∧ Peer.sendUnsubscriptions topics p = (Return tt, p, [])
       ∧ Peer.sendMessages msgs p = (Return tt, p, [])).
Proof.
  assert (∀ topics, Peer.items topics ≠ [] →
            bool_decide (Peer.size topics = Some 0%nat) = false) as Hsize.
  { intros [ts|ts] Hne; cbn in *; [|done].
    apply bool_decide_eq_false. intros [= E]. by destruct ts. }
  split; [done|]. split; [|split].
  - intros q topics Hq Hne subs.
    unfold Peer.sendSubscriptions, Peer.sendUnsubscriptions,
      Peer._sendRawSubscriptions.
    rewrite (Hsize _ Hne). split; by apply write_open.
  - intros q msgs Hq r. by apply write_open.
  - intros Hq topics msgs.
    unfold Peer.sendSubscriptions, Peer.sendUnsubscriptions,
      Peer.sendMessages, Peer._sendRawSubscriptions.
    repeat split; try case_bool_decide; try done;
      by rewrite (write_closed _ _ None Hq).
Qed.

Lemma send_pushes_one_record_witness :
  Peer.sendSubscriptions (Peer.JsArray ["foo"; "bar"]) (demo_peer "QmA" [])
  = (Return tt,
     Peer.set_stream
       (Some [{| rpc.subscriptions :=
                   Some [{| rpc.subscribe := true; rpc.topicCID := "foo" |};
                         {| rpc.subscribe := true; rpc.topicCID := "bar" |}];
                 rpc.msgs := None |}]) (demo_peer "QmA" []),
     [Push "QmA"
        {| rpc.subscriptions :=
             Some [{| rpc.subscribe := true; rpc.topicCID := "foo" |};
                   {| rpc.subscribe := true; rpc.topicCID := "bar" |}];
           rpc.msgs := None |}]).
Proof.
  destruct (send_pushes_one_record (demo_peer "QmA" [])) as (_ & H & _).
  destruct (H [] (Peer.JsArray ["foo"; "bar"])) as [H1 _];
    [reflexivity | discriminate | exact H1].
Defined.

(** C7, as the claim states it, fails: on a writable record [sendMessages]
    of the empty list is not a no-op (it pushes a record with no messages),
    and on a record without a stream [sendSubscriptions] pushes nothing. *)
Lemma send_claim_fails :
  Peer.sendMessages [] (demo_peer "QmA" []) ≠
    (Return tt, demo_peer "QmA" [], [])
  ∧ trace (Peer.sendSubscriptions (Peer.JsSet ["foo"]) (Peer.new "QmA")) = [].
Proof. split; [discriminate | reflexivity]. Qed.

(** The [size] test of [_sendRawSubscriptions] does not see an empty
    [Array]: a record with no entries is pushed. *)
Example sendSubscriptions_empty_array :
  trace (Peer.sendSubscriptions (Peer.JsArray []) (demo_peer "QmA" [])) =
    [Push "QmA" {| rpc.subscriptions := Some []; rpc.msgs := None |}].
Proof. reflexivity. Qed.

(** ** Lifecycle *)

(** C8. When the [stop] of the base protocol reports no error, the engine's
    [stop] completes with an empty local subscription set, and the registry
    of forwarding validators and the duplicate-suppression cache are what
    they were before. *)
Theorem stop_resets_subscriptions (h : Host) (callback : Callback)
  (s : Multicast.t) :
  (super_stop h (Multicast.started s, Multicast.peers s)).1 = None →
  let r := Multicast.stop h callback s in
  outcome r = Return tt
  ∧ trace r = [Invoke callback None]
  ∧ Multicast.subscriptions (final r) = []
  ∧ Multicast.fwrdHooks (final r) = Multicast.fwrdHooks s
  ∧ Multicast.cache (final r) = Multicast.cache s.
Proof.
  intros E r. subst r. unfold Multicast.stop. rewrite run_get.
  destruct (super_stop h _) as [err [started' peers']]. cbn in E. subst err.
  done.
Qed.

Lemma stop_resets_subscriptions_witness :
  let s := demo_engine [demo_peer "QmA" ["foo"]] ["foo"; "bar"]
             {["foo" := [0%nat]]} in
  Multicast.subscriptions (final (Multicast.stop demo_host 9%nat s)) = []
  ∧ Multicast.fwrdHooks (final (Multicast.stop demo_host 9%nat s))
    = {["foo" := [0%nat]]}.
Proof.
  intros s.
  destruct (stop_resets_subscriptions demo_host 9%nat s) as (_ & _ & H1 & H2 & _);
    [reflexivity | by split].
Defined.

(** When the base [stop] reports an error, the subscriptions stay. *)
Lemma stop_error_keeps_subscriptions (h : Host) (callback : Callback)
  (s : Multicast.t) (e : JsError) :
  (super_stop h (Multicast.started s, Multicast.peers s)).1 = Some e →
  Multicast.subscriptions (final (Multicast.stop h callback s))
  = Multicast.subscriptions s.
Proof.
  intros E. unfold Multicast.stop. rewrite run_get.
  destruct (super_stop h _) as [err [started' peers']]. cbn in E. subst err.
  done.
Qed.

(** ** The peer loop *)

(** [each_peer] handles a prefix of the records: all of them when it
    returns, and up to the one whose handling threw otherwise. *)
Lemma each_peer_prefix (f : M Peer.t unit) (ps : list Peer.t) :
  ∃ k : nat,
    (k ≤ length ps)%nat
    ∧ final (Multicast.each_peer f ps)
      = ((λ p, final (f p)) <$> take k ps) ++ drop k ps
    ∧ trace (Multicast.each_peer f ps)
      = concat ((λ p, trace (f p)) <$> take k ps)
    ∧ (outcome (Multicast.each_peer f ps) = Return tt → k = length ps).
Proof.
  induction ps as [|p rest IH]; cbn.
  - exists 0%nat. done.
  - destruct (f p) as [[o p'] t1] eqn:E. destruct o as [[]|e].
    + destruct IH as (k & Hk & Hf & Ht & Ho).
      destruct (Multicast.each_peer f rest) as [[o2 rest'] t2].
      cbn in *. exists (S k). cbn. rewrite E. cbn.
      repeat split; [lia | by rewrite Hf | by rewrite Ht |].
      intros ->. by rewrite Ho.
    + exists 1%nat. cbn. rewrite E. cbn. rewrite drop_0, app_nil_r.
      repeat split; [lia | done].
Qed.

Lemma local_ret {A} al (a : A) : local al (ret a).
Proof. intros p. by cbn. Qed.

Lemma local_throw {A} al (e : JsError) : local al (@throw _ A e).
Proof. intros p. by cbn. Qed.

Lemma local_tell_log al (l : LogLine) : local al (tell (Log l)).
Proof. intros p. cbn. repeat split. by repeat constructor. Qed.

Lemma local_bind {A B} al (m : M Peer.t A) (k : A → M Peer.t B) :
  local al m → (∀ a, local al (k a)) → local al (m ≫= k).
Proof.
  intros Hm Hk p. rewrite run_bind. specialize (Hm p).
  destruct (m p) as [[[a|e] p1] t1]; cbn in *; [|done].
  specialize (Hk a p1). destruct (k a p1) as [[o p2] t2]. cbn in *.
  destruct Hm as (Hi & Ht & Hl), Hk as (Hi' & Ht' & Hl').
  repeat split; [congruence | congruence |].
  apply Forall_app. split; [done|]. by rewrite <- Hi.
Qed.

Lemma local_get {B} al (k : Peer.t → M Peer.t B) :
  (∀ p, local al (k p)) → local al (get ≫= k).
Proof. intros Hk p. rewrite run_get. apply Hk. Qed.

Lemma local_forEach {A} al (xs : list A) (f : A → M Peer.t unit) :
  (∀ x, local al (f x)) → local al (forEach xs f).
Proof.
  intros Hf. induction xs as [|x xs IH]; cbn; [apply local_ret|].
  apply local_bind; [apply Hf | done].
Qed.

Lemma local_write al (msg : rpc.RPC) :
  default [] (rpc.msgs msg) ⊆ al → local al (Peer.write msg None).
Proof.
  intros Hal p. destruct (Peer.stream p) as [q|] eqn:E.
  - rewrite (write_open p q msg E). cbn. repeat split. by repeat constructor.
  - by rewrite (write_closed p msg None E).
Qed.

Lemma local_sendMessages al (msgs : list rpc.Message) :
  msgs ⊆ al → local al (Peer.sendMessages msgs).
Proof. intros. by apply local_write. Qed.

(** ** The combinators *)

Lemma every_VOk {A} (coll : list A) (f : A → VResult) (b : bool) :
  async.every coll f = VOk b →
  b = forallb (λ x, approved (f x)) coll.
Proof.
  induction coll as [|x coll IH]; cbn; [congruence|].
  destruct (f x) as [[]|e]; cbn; [done | congruence | done].
Qed.

Lemma every_VErr {A} (coll : list A) (f : A → VResult) (e : JsError) :
  async.every coll f = VErr e → ∃ x, x ∈ coll ∧ f x = VErr e.
Proof.
  induction coll as [|x coll IH]; cbn; [done|].
  destruct (f x) as [[]|e'] eqn:E; [|done|].
  - intros H. destruct (IH H) as (y & Hy & Hfy). exists y.
    split; [by right | done].
  - intros [= ->]. exists x. split; [by left | done].
Qed.

Lemma every_approved {A} (coll : list A) (f : A → VResult) :
  (∀ x, x ∈ coll → f x = VOk true) → async.every coll f = VOk true.
Proof.
  induction coll as [|x coll IH]; cbn; [done|]. intros H.
  rewrite (H x) by by left. apply IH. intros y Hy. apply H. by right.
Qed.

Lemma filter_inr {A} (coll : list A) (f : A → VResult) (l : list A) :
  async.filter coll f = inr l →
  l = filter (λ x, approved (f x)) coll.
Proof.
  revert l. induction coll as [|x coll IH]; cbn; intros l; [congruence|].
  destruct (f x) as [b|e] eqn:E; [|done].
  destruct (async.filter coll f) as [e|l']; [done|].
  intros [= <-]. rewrite (IH l' eq_refl).
  destruct b; cbn; case_decide; naive_solver.
Qed.

Lemma filter_inl {A} (coll : list A) (f : A → VResult) (e : JsError) :
  async.filter coll f = inl e → ∃ x, x ∈ coll ∧ f x = VErr e.
Proof.
  induction coll as [|x coll IH]; cbn; [done|].
  destruct (f x) as [b|e'] eqn:E.
  - destruct (async.filter coll f) as [e'|l']; [|done].
    intros [= ->]. destruct (IH eq_refl) as (y & Hy & Hfy).
    exists y. split; [by right | done].
  - intros [= ->]. exists x. split; [by left | done].
Qed.

Lemma filter_no_error {A} (coll : list A) (f : A → VResult) :
  (∀ x e, x ∈ coll → f x ≠ VErr e) →
  async.filter coll f = inr (filter (λ x, approved (f x)) coll).
Proof.
  intros H. destruct (async.filter coll f) as [e|l] eqn:E.
  - destruct (filter_inl _ _ _ E) as (x & Hx & Hfx). by destruct (H x e).
  - by rewrite (filter_inr _ _ _ E).
Qed.

(** ** The synchronous form, peer by peer *)
Section SyncForward.
Context (h : Host) (registry : gmap Topic (list Hook)).

Lemma Array_every_validators (peer : Peer.t) (msg : Message)
  (vs : list Hook) (p : Peer.t) :
  Array_every vs (Multicast.Sync.call_validator h peer msg) p =
    (of_VResult (async.every vs (λ v, validator h v peer msg)),
     p, []).
Proof.
  induction vs as [|v vs IH]; cbn; [done|].
  rewrite run_bind. unfold Multicast.Sync.call_validator at 1.
  destruct (validator h v peer msg) as [[]|e]; cbn; [|done..].
  rewrite IH. reflexivity.
Qed.

Lemma Array_filter_validators (peer : Peer.t) (vs : list Hook)
  (msgs : list Message) (p : Peer.t) :
  Array_filter msgs
    (λ msg, Array_every vs (Multicast.Sync.call_validator h peer msg)) p =
    (of_sum (async.filter msgs (λ msg,
               async.every vs (λ v, validator h v peer msg))),
     p, []).
Proof.
  induction msgs as [|m msgs IH]; cbn; [done|].
  rewrite run_bind, Array_every_validators.
  destruct (async.every vs _) as [b|e]; cbn; [|done].
  rewrite run_bind, IH.
  by destruct (async.filter msgs _) as [e|l]; cbn.
Qed.

Lemma validate_narrow (peer : Peer.t) (ts : list Topic)
  (msgs : list Message) (p : Peer.t) :
  Multicast.Sync.validate h registry peer ts msgs p =
    (of_sum (narrow h registry peer ts msgs), p, []).
Proof.
  revert msgs. induction ts as [|t ts IH]; intros msgs; cbn; [done|].
  destruct (registry !! t) as [vs|]; [|apply IH].
  rewrite run_bind, Array_filter_validators.
  destruct (async.filter msgs _) as [e|l]; cbn; [done|].
  rewrite IH. by destruct (narrow h registry peer ts l).
Qed.

Lemma narrow_inr (peer : Peer.t) (ts : list Topic) (msgs l : list Message) :
  narrow h registry peer ts msgs = inr l →
  l = filter (λ m, passes_all h registry peer ts m) msgs.
Proof.
  revert msgs. induction ts as [|t ts IH]; intros msgs.
  - cbn [narrow]. intros [= <-]. induction msgs as [|m msgs IHm]; [done|].
    rewrite filter_cons_True by done. by rewrite <- IHm.
  - cbn [narrow]. destruct (registry !! t) as [vs|] eqn:Et.
    + destruct (async.filter msgs _) as [e|l'] eqn:Ef; [done|].
      intros Hn. rewrite (IH _ Hn). rewrite (filter_inr _ _ _ Ef).
      rewrite list_filter_filter. apply list_filter_iff. intros m.
      unfold passes_all. cbn [forallb]. unfold passes at 2. rewrite Et.
      destruct (async.every vs _) as [b|e] eqn:Ee.
      * rewrite (every_VOk _ _ _ Ee).
        destruct (forallb (λ v, approved (validator h v peer m)) vs),
          (forallb (passes h registry peer m) ts); cbn; tauto.
      * destruct (every_VErr _ _ _ Ee) as (v & Hv & Hfv).
        assert (forallb (λ v, approved (validator h v peer m)) vs = false)
          as ->.
        { apply not_true_is_false. intros Hall.
          rewrite forallb_forall in Hall.
          apply list_elem_of_In, Hall in Hv. by rewrite Hfv in Hv. }
        cbn. tauto.
    + intros Hn. rewrite (IH _ Hn). apply list_filter_iff. intros m.
      unfold passes_all. cbn [forallb]. unfold passes at 2. by rewrite Et.
Qed.


(** What the synchronous form does for one record. *)
Lemma sync_forward_to (topics : list Topic) (messages : list Message)
  (q : Peer.t) :
  Multicast.Sync.forward_to h registry topics messages q =
    if negb (Peer.isWritable q)
       || negb (utils.anyMatch (Peer.topics q) topics)
    then (Return tt, q, [])
    else
      match narrow h registry q (Peer.topics q) messages with
      | inl e => (Throw e, q, [])
      | inr l =>
          let r := {| rpc.subscriptions := None;
                      rpc.msgs := Some (utils.normalizeOutRpcMessages h l) |} in
          (Return tt,
           Peer.set_stream ((λ st, st ++ [r]) <$> Peer.stream q) q,
           [Push (Peer.info q) r; Log (LogPublishMsgs topics (Peer.info q))])
      end.
Proof.
  unfold Multicast.Sync.forward_to. rewrite run_get.
  destruct (Peer.isWritable q) eqn:Ew; cbn; [|done].
  destruct (utils.anyMatch _ _); cbn; [|done].
  rewrite run_bind, validate_narrow.
  destruct (narrow h registry q (Peer.topics q) messages) as [e|l]; cbn;
    [done|].
  apply isWritable_true in Ew as [st Est].
  rewrite run_bind. unfold Peer.sendMessages.
  rewrite (write_open q st _ Est). cbn. by rewrite Est.
Qed.

End SyncForward.

Lemma normalizeOut_on_wire (h : Host) (msgs : list Message) :
  utils.normalizeOutRpcMessages h msgs = on_wire h <$> msgs.
Proof. reflexivity. Qed.

Lemma local_sync_forward_to (h : Host) (registry : gmap Topic (list Hook))
  (topics : list Topic) (messages : list Message) :
  local (utils.normalizeOutRpcMessages h messages)
    (Multicast.Sync.forward_to h registry topics messages).
Proof.
  intros q. rewrite sync_forward_to.
  destruct (negb _ || negb _); [done|].
  destruct (narrow h registry q (Peer.topics q) messages) as [e|l] eqn:En;
    [done|].
  cbn. repeat split.
  apply Forall_cons. split; [|by repeat constructor]. split; [done|].
  cbn. rewrite (narrow_inr _ _ _ _ _ _ En), !normalizeOut_on_wire.
  intros w (m & -> & Hm)%list_elem_of_fmap.
  apply list_elem_of_fmap. exists m. split; [done|].
  by apply list_elem_of_filter in Hm as [_ ?].
Qed.

(** ** The callback form, peer by peer *)
Section AsyncForward.
Context (h : Host) (registry : gmap Topic (list Hook)).

Lemma every_run_decided (calls : list async.Call) (r : VResult) (w : bool) :
  (∀ c, c ∈ calls → ∃ a, c = async.Answers a) →
  async.every_run calls (Some r) w = (Some r, None).
Proof.
  induction calls as [|c calls IH]; intros H; [done|].
  destruct (H c) as [a ->]; [by left|].
  assert (async.every_run calls (Some r) w = (Some r, None)) as IH'
    by (apply IH; intros c Hc; apply H; by right).
  by destruct a as [[]|e].
Qed.

Lemma every_run_in_place (q : Peer.t) (m : Message) (vs : list Hook) :
  (∀ v, v ∈ vs → timing h v q m = InPlace) →
  async.every_run (Multicast.Async.call_hook h q m <$> vs) None false
  = (Some (async.every vs (λ v, validator h v q m)), None).
Proof.
  induction vs as [|v vs IH]; intros H; [done|].
  assert (∀ c, c ∈ Multicast.Async.call_hook h q m <$> vs →
               ∃ a, c = async.Answers a) as Hrest.
  { intros c (v' & -> & Hv')%list_elem_of_fmap.
    unfold Multicast.Async.call_hook. rewrite H by (by right). eauto. }
  cbn [fmap list_fmap async.every]. unfold Multicast.Async.call_hook at 1.
  rewrite H by (by left).
  destruct (validator h v q m) as [[]|e]; cbn [async.every_run default
    from_option id].
  - apply IH. intros v' Hv'. apply H. by right.
  - by apply every_run_decided.
  - by apply every_run_decided.
Qed.

Lemma every_run_no_raise (calls : list async.Call) (d : option VResult)
  (w : bool) :
  (∀ c e, c ∈ calls → c ≠ async.Raises e) →
  (async.every_run calls d w).2 = None.
Proof.
  revert d w. induction calls as [|c calls IH]; intros d w H;
    [by destruct d, w|].
  assert (∀ c e, c ∈ calls → c ≠ async.Raises e) as H'
    by (intros c' e Hc'; apply H; by right).
  destruct c as [[[]|e]| |e]; cbn [async.every_run]; try by apply IH.
  by destruct (H (async.Raises e) e); [left|].
Qed.

(** With validators that call back before they return, [filter] answers
    as it does for iteratees that call back in the order in which they are
    started. *)
Lemma filter_run_in_place (q : Peer.t) (t : Topic) (vs : list Hook)
  (messages : list Message) :
  in_place h q t vs messages →
  let fate := Multicast.Async.filter_run h q t vs messages in
  Multicast.Async.raised fate = None
  ∧ Multicast.Async.pending fate = false
  ∧ match async.filter messages (Multicast.Async.check h q t vs) with
    | inl e => Multicast.Async.failed fate = Some e
    | inr l => Multicast.Async.failed fate = None
               ∧ Multicast.Async.kept fate = l
    end.
Proof.
  induction messages as [|m ms IH]; intros H; [done|].
  assert (in_place h q t vs ms) as H'
    by (intros v m' Hv Hm'; apply H; [done | by right]).
  specialize (IH H'). cbv zeta in IH. destruct IH as (IH1 & IH2 & IH3).
  cbv zeta. cbn [Multicast.Async.filter_run async.filter].
  unfold Multicast.Async.check at 1. case_bool_decide as Hm.
  - split; [done|]. split; [done|].
    by destruct (async.filter ms _) as [e|l].
  - rewrite every_run_in_place
      by (intros v Hv; apply H; [done | by left | done]).
    destruct (async.every vs _) as [[]|e];
      cbn [Multicast.Async.raised Multicast.Async.pending
           Multicast.Async.failed Multicast.Async.kept].
    + split; [done|]. split; [done|].
      destruct (async.filter ms _) as [e|l]; [done|].
      destruct IH3 as [-> ->]. done.
    + split; [done|]. split; [done|].
      by destruct (async.filter ms _) as [e|l].
    + done.
Qed.

Lemma filter_run_kept (q : Peer.t) (t : Topic) (vs : list Hook)
  (messages : list Message) :
  Multicast.Async.kept (Multicast.Async.filter_run h q t vs messages)
  ⊆ messages.
Proof.
  induction messages as [|m ms IH]; [done|].
  cbn [Multicast.Async.filter_run].
  case_bool_decide; [intros x Hx; right; by apply IH|].
  destruct (async.every_run _ None false) as [answer thrown].
  set (rest := match thrown with Some e => _ | None => _ end).
  assert (Multicast.Async.kept rest ⊆ ms) as Hrest.
  { subst rest. destruct thrown; [by intros x ?%elem_of_nil | done]. }
  destruct answer as [[[]|e]|]; cbn [Multicast.Async.kept]; intros x Hx;
    try (right; by apply Hrest).
  apply elem_of_cons in Hx as [->|Hx]; [by left | right; by apply Hrest].
Qed.

Lemma filter_run_no_raise (q : Peer.t) (t : Topic) (vs : list Hook)
  (messages : list Message) :
  (∀ v m e, v ∈ vs → m ∈ messages → timing h v q m ≠ Throwing e) →
  Multicast.Async.raised (Multicast.Async.filter_run h q t vs messages)
  = None.
Proof.
  induction messages as [|m ms IH]; intros H; [done|].
  assert (Multicast.Async.raised (Multicast.Async.filter_run h q t vs ms)
          = None) as IH'
    by (apply IH; intros v m' e Hv Hm'; apply H; [done | by right]).
  cbn [Multicast.Async.filter_run]. case_bool_decide; [done|].
  pose proof (every_run_no_raise
                (Multicast.Async.call_hook h q m <$> vs) None false) as Hno.
  destruct (async.every_run _ None false) as [answer thrown].
  cbn [snd] in Hno. rewrite Hno.
  - by destruct answer as [[[]|e]|].
  - intros c e (v & -> & Hv)%list_elem_of_fmap.
    unfold Multicast.Async.call_hook.
    destruct (timing h v q m) as [| |e'] eqn:Et; try done.
    by destruct (H v m e' Hv (list_elem_of_here _ _)).
Qed.

(** What the callback form does for one topic of one writable record, for
    validators that call back before they return. *)
Lemma async_forward_topic (topics : list Topic) (messages : list Message)
  (t : Topic) (q : Peer.t) (st : list rpc.RPC) :
  Peer.stream q = Some st →
  (∀ vs, registry !! t = Some vs → in_place h q t vs messages) →
  let r l := {| rpc.subscriptions := None;
                rpc.msgs := Some (utils.normalizeOutRpcMessages h l) |} in
  let sending l :=
    (Return tt, Peer.set_stream (Some (st ++ [r l])) q,
     [Push (Peer.info q) (r l); Log (LogPublishMsgs topics (Peer.info q))]) in
  Multicast.Async.forward_topic h registry topics messages t q =
    match registry !! t with
    | Some vs =>
        match async.filter messages
                (Multicast.Async.check h q t vs) with
        | inl e => (Return tt, q, [Log LogHasHooks; Log (LogError e)])
        | inr l =>
            if bool_decide (0 < length l)%nat
            then (Return tt, (sending l).1.2, Log LogHasHooks :: (sending l).2)
            else (Return tt, q, [Log LogHasHooks])
        end
    | None => (Return tt, (sending messages).1.2,
               Log LogNoHooks :: (sending messages).2)
    end.
Proof.
  intros Est Hin r sending. unfold Multicast.Async.forward_topic.
  destruct (registry !! t) as [vs|].
  - rewrite run_bind. cbn [tell]. rewrite run_get.
    destruct (filter_run_in_place q t vs messages (Hin vs eq_refl))
      as (Hr & Hp & Hf).
    rewrite run_bind, Hr, Hp.
    destruct (async.filter messages _) as [e|l].
    + by rewrite Hf.
    + destruct Hf as [-> ->]. cbn [ret].
      case_bool_decide; [|done].
      rewrite run_bind. unfold Peer.sendMessages.
      by rewrite (write_open q st _ Est).
  - rewrite run_bind. cbn [tell]. rewrite run_get.
    rewrite run_bind. unfold Peer.sendMessages.
    by rewrite (write_open q st _ Est).
Qed.

Lemma check_subset (q : Peer.t) (t : Topic) (vs : list Hook)
  (messages l : list Message) :
  async.filter messages (Multicast.Async.check h q t vs) = inr l →
  l ⊆ messages.
Proof.
  intros ->%filter_inr m Hm. by apply list_elem_of_filter in Hm as [_ ?].
Qed.

Lemma local_tell_postpone al (to : PeerId) (t : Topic) :
  local al (tell (Postpone to t)).
Proof. intros p. cbn. repeat split. by repeat constructor. Qed.

Lemma local_async_forward_topic (topics : list Topic)
  (messages : list Message) (t : Topic) :
  local (utils.normalizeOutRpcMessages h messages)
    (Multicast.Async.forward_topic h registry topics messages t).
Proof.
  unfold Multicast.Async.forward_topic.
  destruct (registry !! t) as [vs|].
  - apply local_bind; [apply local_tell_log|]. intros _.
    apply local_get. intros p.
    apply local_bind.
    { destruct (Multicast.Async.failed _);
        [apply local_tell_log | apply local_ret]. }
    intros _.
    destruct (Multicast.Async.raised _); [apply local_throw|].
    destruct (Multicast.Async.failed _); [apply local_ret|].
    destruct (Multicast.Async.pending _); [apply local_tell_postpone|].
    case_bool_decide; [|apply local_ret].
    apply local_bind; [|intros; apply local_tell_log].
    apply local_sendMessages. rewrite !normalizeOut_on_wire.
    intros w (m & -> & Hm)%list_elem_of_fmap.
    apply list_elem_of_fmap. exists m. split; [done|].
    by eapply filter_run_kept.
  - apply local_bind; [apply local_tell_log|]. intros _.
    apply local_get. intros p.
    apply local_bind; [|intros; apply local_tell_log].
    by apply local_sendMessages.
Qed.

Lemma local_async_forward_to (topics : list Topic) (messages : list Message) :
  local (utils.normalizeOutRpcMessages h messages)
    (Multicast.Async.forward_to h registry topics messages).
Proof.
  unfold Multicast.Async.forward_to. apply local_get. intros p.
  destruct (negb _ || negb _); [apply local_ret|].
  apply local_forEach. intros t. apply local_async_forward_topic.
Qed.

End AsyncForward.

(** ** Computations that never throw *)

Lemma total_ret {S A} (a : A) : total (@ret S A a).
Proof. intros s. by exists a. Qed.

Lemma total_tell {S} (e : Event) : total (@tell S e).
Proof. intros s. by exists tt. Qed.

Lemma total_bind {S A B} (m : M S A) (k : A → M S B) :
  total m → (∀ a, total (k a)) → total (m ≫= k).
Proof.
  intros Hm Hk s. rewrite run_bind. destruct (Hm s) as [a Ha].
  destruct (m s) as [[o s1] t1]. cbn in Ha. subst o.
  destruct (Hk a s1) as [b Hb]. destruct (k a s1) as [[o s2] t2].
  cbn in *. by exists b.
Qed.

Lemma total_get {S B} (k : S → M S B) : (∀ s, total (k s)) → total (get ≫= k).
Proof. intros Hk s. rewrite run_get. apply Hk. Qed.

Lemma total_forEach {S A} (xs : list A) (f : A → M S unit) :
  (∀ x, total (f x)) → total (forEach xs f).
Proof.
  intros Hf. induction xs as [|x xs IH]; cbn; [apply total_ret|].
  apply total_bind; [apply Hf | done].
Qed.

Lemma total_unit {S} (m : M S unit) (s : S) :
  total m → outcome (m s) = Return tt.
Proof. intros Hm. by destruct (Hm s) as [[] ?]. Qed.

Lemma total_write (msg : rpc.RPC) : total (Peer.write msg None).
Proof.
  intros p. exists tt. destruct (Peer.stream p) as [q|] eqn:E.
  - by rewrite (write_open p q msg E).
  - by rewrite (write_closed p msg None E).
Qed.

Lemma total_throw_free_topic (h : Host) (registry : gmap Topic (list Hook))
  (topics : list Topic) (messages : list Message) (t : Topic) :
  never_throws h registry messages →
  total (Multicast.Async.forward_topic h registry topics messages t).
Proof.
  intros Hnt. unfold Multicast.Async.forward_topic.
  destruct (registry !! t) as [vs|] eqn:Et.
  - apply total_bind; [apply total_tell|]. intros _.
    apply total_get. intros p'.
    rewrite (filter_run_no_raise h p' t vs messages)
      by (intros v m e Hv Hm; by eapply Hnt).
    apply total_bind.
    { destruct (Multicast.Async.failed _);
        [apply total_tell | apply total_ret]. }
    intros _.
    destruct (Multicast.Async.failed _); [apply total_ret|].
    destruct (Multicast.Async.pending _); [apply total_tell|].
    case_bool_decide; [|apply total_ret].
    apply total_bind; [apply total_write | intros; apply total_tell].
  - apply total_bind; [apply total_tell|]. intros _.
    apply total_get. intros p'.
    apply total_bind; [apply total_write | intros; apply total_tell].
Qed.

(** The callback form returns when no validator throws. *)
Lemma total_async_forward_to (h : Host) (registry : gmap Topic (list Hook))
  (topics : list Topic) (messages : list Message) :
  never_throws h registry messages →
  total (Multicast.Async.forward_to h registry topics messages).
Proof.
  intros Hnt. unfold Multicast.Async.forward_to. apply total_get. intros p.
  destruct (negb _ || negb _); [apply total_ret|].
  apply total_forEach. intros t. by apply total_throw_free_topic.
Qed.

Lemma never_throws_empty (h : Host) (messages : list Message) :
  never_throws h ∅ messages.
Proof. intros t vs v p m e Ht. by rewrite lookup_empty in Ht. Qed.

Lemma each_peer_total (f : M Peer.t unit) (ps : list Peer.t) :
  total f →
  Multicast.each_peer f ps =
    (Return tt, (λ p, final (f p)) <$> ps,
     concat ((λ p, trace (f p)) <$> ps)).
Proof.
  intros Hf. induction ps as [|p rest IH]; cbn; [done|].
  pose proof (total_unit f p Hf) as Ho.
  destruct (f p) as [[o p'] t1]. cbn in Ho. subst o. by rewrite IH.
Qed.

Lemma each_peer_returns (f : M Peer.t unit) (ps : list Peer.t) :
  outcome (Multicast.each_peer f ps) = Return tt →
  Multicast.each_peer f ps =
    (Return tt, (λ p, final (f p)) <$> ps,
     concat ((λ p, trace (f p)) <$> ps))
  ∧ Forall (λ p, outcome (f p) = Return tt) ps.
Proof.
  induction ps as [|p rest IH]; cbn; [done|].
  destruct (f p) as [[[[]|e] p'] t1] eqn:E; cbn; [|done].
  destruct (Multicast.each_peer f rest) as [[o rest'] t2]. cbn in *.
  intros ->. destruct (IH eq_refl) as [[= -> ->] Hall].
  split; [done|]. constructor; [by rewrite E | done].
Qed.

(** ** Reading the trace of the peer loop *)

Lemma pushed_app (id : PeerId) (t1 t2 : list Event) :
  pushed id (t1 ++ t2) = pushed id t1 ++ pushed id t2.
Proof. apply omap_app. Qed.

Lemma sent_app (id : PeerId) (t1 t2 : list Event) :
  sent id (t1 ++ t2) = sent id t1 ++ sent id t2.
Proof. unfold sent. by rewrite pushed_app, bind_app. Qed.

Lemma emitted_app (t1 t2 : list Event) :
  emitted (t1 ++ t2) = emitted t1 ++ emitted t2.
Proof. apply omap_app. Qed.

Lemma pushed_local_other (id id' : PeerId) (al : list rpc.Message)
  (tr : list Event) :
  Forall (is_local_event id' al) tr → id' ≠ id → pushed id tr = [].
Proof.
  intros Hl Hne. induction Hl as [|e tr He _ IH]; [done|].
  cbn. fold (pushed id tr). rewrite IH.
  destruct e; try done. destruct He as [-> _]. by rewrite bool_decide_false.
Qed.

Lemma emitted_local (id : PeerId) (al : list rpc.Message) (tr : list Event) :
  Forall (is_local_event id al) tr → emitted tr = [].
Proof.
  intros Hl. induction Hl as [|e tr He _ IH]; [done|].
  cbn. fold (emitted tr). rewrite IH. by destruct e.
Qed.

Lemma sent_local (id id' : PeerId) (al : list rpc.Message)
  (tr : list Event) :
  Forall (is_local_event id' al) tr → sent id tr ⊆ al.
Proof.
  intros Hl. induction Hl as [|e tr He _ IH];
    [intros w Hw; by inversion Hw|].
  change (e :: tr) with ([e] ++ tr). rewrite sent_app.
  intros w [Hw|Hw]%elem_of_app; [|by apply IH].
  destruct e; try (by inversion Hw). destruct He as [-> Hsub].
  unfold sent in Hw. cbn in Hw. case_bool_decide; [|by inversion Hw].
  cbn in Hw. rewrite app_nil_r in Hw. by apply Hsub.
Qed.

Lemma pushed_concat_nil (id : PeerId) (l : list (list Event)) :
  (∀ tr, tr ∈ l → pushed id tr = []) → pushed id (concat l) = [].
Proof.
  induction l as [|tr l IH]; [done|]. intros H. rewrite concat_cons.
  rewrite pushed_app, (H tr), IH; [done | | by left].
  intros tr' Htr'. apply H. by right.
Qed.

Lemma NoDup_fmap_eq {A B} (f : A → B) (l : list A) (x y : A) :
  NoDup (f <$> l) → x ∈ l → y ∈ l → f x = f y → x = y.
Proof.
  induction l as [|a l IH]; [by inversion 2|].
  rewrite fmap_cons, NoDup_cons. intros [Hnotin Hnd] Hx Hy Hxy.
  apply elem_of_cons in Hx as [->|Hx], Hy as [->|Hy]; [done | | | by apply IH].
  - destruct Hnotin. rewrite Hxy. by apply list_elem_of_fmap_2.
  - destruct Hnotin. rewrite <- Hxy. by apply list_elem_of_fmap_2.
Qed.

Lemma anyMatch_false (a b : list Topic) :
  utils.anyMatch a b = false ↔ ∀ t, t ∈ a → t ∉ b.
Proof.
  unfold utils.anyMatch. rewrite bool_decide_eq_false, <- Forall_Exists_neg.
  by rewrite Forall_forall.
Qed.

Lemma anyMatch_true (a b : list Topic) :
  utils.anyMatch a b = true ↔ ∃ t, t ∈ a ∧ t ∈ b.
Proof.
  unfold utils.anyMatch. by rewrite bool_decide_eq_true, Exists_exists.
Qed.

(** A record that the loop body leaves alone gets nothing and stays. *)
Lemma each_peer_skips (f : M Peer.t unit) (al : list rpc.Message)
  (ps : list Peer.t) (q : Peer.t) :
  local al f → f q = (Return tt, q, []) →
  NoDup (Peer.info <$> ps) → q ∈ ps →
  pushed (Peer.info q) (trace (Multicast.each_peer f ps)) = []
  ∧ q ∈ final (Multicast.each_peer f ps).
Proof.
  intros Hl Hq Hnd Hin.
  destruct (each_peer_prefix f ps) as (k & Hk & -> & -> & _). split.
  - apply pushed_concat_nil.
    intros tr (p & -> & Hp)%list_elem_of_fmap.
    assert (p ∈ ps) as Hp'.
    { rewrite <- (take_drop k ps). apply elem_of_app. by left. }
    destruct (decide (Peer.info p = Peer.info q)) as [Heq|Hne].
    + rewrite (NoDup_fmap_eq _ _ _ _ Hnd Hp' Hin Heq). by rewrite Hq.
    + destruct (Hl p) as (_ & _ & Hev). by eapply pushed_local_other.
  - rewrite <- (take_drop k ps) in Hin.
    apply elem_of_app in Hin as [Hin|Hin]; apply elem_of_app; [left|by right].
    apply list_elem_of_fmap. exists q. by rewrite Hq.
Qed.

Lemma forward_to_skips (h : Host) (form : Form)
  (registry : gmap Topic (list Hook)) (topics : list Topic)
  (messages : list Message) (q : Peer.t) :
  Peer.isWritable q = false ∨ (∀ t, t ∈ Peer.topics q → t ∉ topics) →
  Multicast.Sync.forward_to h registry topics messages q = (Return tt, q, [])
  ∧ Multicast.Async.forward_to h registry topics messages q
    = (Return tt, q, []).
Proof.
  intros Hskip.
  assert (negb (Peer.isWritable q)
          || negb (utils.anyMatch (Peer.topics q) topics) = true) as E.
  { destruct Hskip as [->|Hd%anyMatch_false]; [done|].
    rewrite Hd. apply orb_true_r. }
  split.
  - by rewrite sync_forward_to, E.
  - unfold Multicast.Async.forward_to. by rewrite run_get, E.
Qed.

Lemma run_forward (h : Host) (form : Form) (topics : list Topic)
  (messages : list Message) (s : Multicast.t) :
  Multicast._forwardMessages h form topics messages s =
    let f := match form with
             | SyncForm =>
                 Multicast.Sync.forward_to h (Multicast.fwrdHooks s)
                   topics messages
             | AsyncForm =>
                 Multicast.Async.forward_to h (Multicast.fwrdHooks s)
                   topics messages
             end in
    let r := Multicast.each_peer f (Multicast.peers s) in
    (outcome r, Multicast.set_peers (final r) s, trace r).
Proof.
  unfold Multicast._forwardMessages, Multicast.Sync._forwardMessages,
    Multicast.Async._forwardMessages.
  destruct form; rewrite run_get; unfold Multicast.peers_forEach; cbn;
    by destruct (Multicast.each_peer _ _) as [[o ps] tr].
Qed.

Lemma local_forward_to (h : Host) (form : Form)
  (registry : gmap Topic (list Hook)) (topics : list Topic)
  (messages : list Message) :
  local (utils.normalizeOutRpcMessages h messages)
    match form with
    | SyncForm => Multicast.Sync.forward_to h registry topics messages
    | AsyncForm => Multicast.Async.forward_to h registry topics messages
    end.
Proof.
  destruct form; [apply local_sync_forward_to | apply local_async_forward_to].
Qed.

(** C6. In either form of the forward procedure, a record of the peer map
    that is not writable, or whose topics are disjoint from the topics being
    forwarded, has nothing pushed on its stream and is left as it was. *)
Theorem forward_skips_uninterested (h : Host) (form : Form)
  (topics : list Topic) (messages : list Message) (s : Multicast.t)
  (q : Peer.t) :
  NoDup (Peer.info <$> Multicast.peers s) →
  q ∈ Multicast.peers s →
  Peer.isWritable q = false ∨ (∀ t, t ∈ Peer.topics q → t ∉ topics) →
  let r := Multicast._forwardMessages h form topics messages s in
  pushed (Peer.info q) (trace r) = [] ∧ q ∈ Multicast.peers (final r).
Proof.
  intros Hnd Hin Hskip r. subst r. rewrite run_forward. cbn.
  eapply each_peer_skips; [apply (local_forward_to h form) | | done..].
  destruct (forward_to_skips h form (Multicast.fwrdHooks s) topics messages
              q Hskip) as [Hs Ha].
  by destruct form.
Qed.

Lemma forward_skips_uninterested_witness :
  let deaf := demo_peer "QmDeaf" ["news"] in
  let s := demo_engine [demo_peer "QmA" ["chat"]; deaf] [] ∅ in
  let r := Multicast._forwardMessages demo_host SyncForm ["chat"]
             [demo_message 3 ["chat"]] s in
  pushed "QmDeaf" (trace r) = [] ∧ deaf ∈ Multicast.peers (final r).
Proof.
  intros deaf s.
  apply (forward_skips_uninterested demo_host SyncForm ["chat"]
           [demo_message 3 ["chat"]] s deaf).
  - by apply (bool_decide_unpack _).
  - by apply (bool_decide_unpack _).
  - right. by apply anyMatch_false.
Defined.

(** ** Which messages reach a record *)

Lemma run_forEach_cons {S A} (x : A) (xs : list A) (f : A → M S unit)
  (s : S) :
  outcome (f x s) = Return tt →
  forEach (x :: xs) f s =
    (outcome (forEach xs f (final (f x s))),
     final (forEach xs f (final (f x s))),
     trace (f x s) ++ trace (forEach xs f (final (f x s)))).
Proof.
  intros Ho. cbn [forEach]. rewrite run_bind.
  destruct (f x s) as [[o s1] t1]. cbn in Ho. subst o. cbn.
  by destruct (forEach xs f s1) as [[o s2] t2].
Qed.

(** A loop whose body keeps an invariant and never throws runs the body
    on every item, in a state that satisfies the invariant. *)
Lemma forEach_visit {S A} (I : S → Prop) (f : A → M S unit) (xs : list A)
  (x : A) (s : S) :
  (∀ y s', I s' → outcome (f y s') = Return tt ∧ I (final (f y s'))) →
  I s → x ∈ xs →
  ∃ s' pre post,
    I s' ∧ trace (forEach xs f s) = pre ++ trace (f x s') ++ post.
Proof.
  intros Hf. revert s. induction xs as [|y xs IH]; intros s Hs Hx;
    [by inversion Hx|].
  destruct (Hf y s Hs) as [Ho HI]. rewrite (run_forEach_cons _ _ _ _ Ho).
  cbn [trace snd]. apply elem_of_cons in Hx as [->|Hx].
  - exists s, [], (trace (forEach xs f (final (f y s)))). by split.
  - destruct (IH _ HI Hx) as (s' & pre & post & Hs' & ->).
    exists s', (trace (f y s) ++ pre), post. split; [done|].
    by rewrite <- app_assoc.
Qed.

(** A loop that returns has run its body on every item, and the body has
    returned, in a state that satisfies any invariant the body keeps. *)
Lemma forEach_visit_returns {S A} (I : S → Prop) (f : A → M S unit)
  (xs : list A) (x : A) (s : S) :
  (∀ y s', I s' → I (final (f y s'))) →
  outcome (forEach xs f s) = Return tt →
  I s → x ∈ xs →
  ∃ s' pre post,
    I s' ∧ outcome (f x s') = Return tt
    ∧ trace (forEach xs f s) = pre ++ trace (f x s') ++ post.
Proof.
  intros Hf. revert s. induction xs as [|y xs IH]; intros s Hret Hs Hx;
    [by inversion Hx|].
  assert (outcome (f y s) = Return tt) as Ho.
  { cbn [forEach] in Hret. rewrite run_bind in Hret.
    by destruct (f y s) as [[[[]|e] s1] t1]. }
  rewrite (run_forEach_cons _ _ _ _ Ho) in Hret |- *.
  cbn [outcome trace fst snd] in Hret |- *.
  apply elem_of_cons in Hx as [->|Hx].
  - exists s, [], (trace (forEach xs f (final (f y s)))). by repeat split.
  - destruct (IH _ Hret (Hf y s Hs) Hx) as (s' & pre & post & Hs' & Ho' & ->).
    exists s', (trace (f y s) ++ pre), post. split; [done|]. split; [done|].
    by rewrite <- app_assoc.
Qed.

Lemma set_stream_set_stream (a b : option (list rpc.RPC)) (q : Peer.t) :
  Peer.set_stream a (Peer.set_stream b q) = Peer.set_stream a q.
Proof. reflexivity. Qed.

Lemma sent_push (id : PeerId) (r : rpc.RPC) (tr : list Event) :
  sent id (Push id r :: tr) = default [] (rpc.msgs r) ++ sent id tr.
Proof. unfold sent. cbn. by rewrite bool_decide_true. Qed.

Lemma sent_log (id : PeerId) (l : LogLine) (tr : list Event) :
  sent id (Log l :: tr) = sent id tr.
Proof. reflexivity. Qed.

Section AsyncSends.
Context (h : Host) (registry : gmap Topic (list Hook)).

Lemma async_forward_topic_sends (topics : list Topic)
  (messages : list Message) (q : Peer.t) (st : list rpc.RPC) (m : Message)
  (t : Topic) :
  m ∈ messages → t ∈ topicIDs m → lets_through h registry q messages m t →
  on_wire h m ∈
    sent (Peer.info q)
      (trace (Multicast.Async.forward_topic h registry topics messages t
                (Peer.set_stream (Some st) q))).
Proof.
  intros Hm Ht Hlet. unfold lets_through in Hlet.
  rewrite (async_forward_topic h registry topics messages t
             (Peer.set_stream (Some st) q) st eq_refl).
  2:{ intros vs Hvs. rewrite Hvs in Hlet. destruct Hlet as (_ & _ & Hnow).
      intros v m' Hv Hm' Ht'. by apply Hnow. }
  destruct (registry !! t) as [vs|]; cbv zeta; cbn [fst snd].
  - destruct Hlet as (Hok & Hnoerr & _).
    rewrite filter_no_error.
    + assert (m ∈ filter
                (λ x, approved (Multicast.Async.check h
                                  (Peer.set_stream (Some st) q) t vs x))
                messages) as Hin.
      { apply list_elem_of_filter. split; [|done].
        unfold Multicast.Async.check. rewrite bool_decide_false by tauto.
        rewrite every_approved; [done|]. intros v Hv. by apply Hok. }
      rewrite bool_decide_true.
      * unfold trace. cbn [snd]. rewrite sent_log, sent_push.
        cbn [rpc.msgs default]. apply elem_of_app. left.
        rewrite normalizeOut_on_wire. by apply list_elem_of_fmap_2.
      * destruct (filter _ messages); [by inversion Hin | cbn; lia].
    + intros m' e Hm'. unfold Multicast.Async.check.
      case_bool_decide as Ht'; [done|]. intros (v & Hv & Hfv)%every_VErr.
      eapply Hnoerr; [exact Hv | exact Hm' | | exact Hfv].
      by destruct (decide (t ∈ topicIDs m')).
  - unfold trace. cbn [snd]. rewrite sent_log, sent_push.
    cbn [rpc.msgs default]. apply elem_of_app. left.
    rewrite normalizeOut_on_wire. by apply list_elem_of_fmap_2.
Qed.

(** A step of the callback form changes nothing of a writable record but
    its stream, whether it returns or throws. *)
Lemma async_forward_topic_keeps (topics : list Topic)
  (messages : list Message) (q : Peer.t) (t : Topic) (p : Peer.t) :
  (∃ st, p = Peer.set_stream (Some st) q) →
  ∃ st, final (Multicast.Async.forward_topic h registry topics messages t p)
        = Peer.set_stream (Some st) q.
Proof.
  intros [st ->]. unfold Multicast.Async.forward_topic.
  destruct (registry !! t) as [vs|].
  - rewrite run_bind. cbn [tell]. rewrite run_get, run_bind.
    set (fate := Multicast.Async.filter_run _ _ _ _ _).
    assert (∀ (m : M Peer.t unit),
              (∃ st', final (m (Peer.set_stream (Some st) q))
                      = Peer.set_stream (Some st') q) →
              ∃ st',
                final (let '(o, s2, t2) := m (Peer.set_stream (Some st) q) in
                       (o, s2, [Log LogHasHooks] ++ [] ++ t2))
                = Peer.set_stream (Some st') q) as Hwrap.
    { intros m [st' Hm]. exists st'.
      by destruct (m (Peer.set_stream (Some st) q)) as [[o s2] t2]. }
    destruct (Multicast.Async.failed fate) as [err|];
      cbn [tell ret]; destruct (Multicast.Async.raised fate) as [e|];
      cbn [throw ret final fst snd]; try by eauto.
    destruct (Multicast.Async.pending fate); cbn; [by eauto|].
    case_bool_decide; [|cbn; by eauto].
    rewrite run_bind. unfold Peer.sendMessages.
    rewrite (write_open (Peer.set_stream (Some st) q) st _ eq_refl).
    cbn. rewrite set_stream_set_stream. by eauto.
  - rewrite run_bind. cbn [tell]. rewrite run_get, run_bind.
    unfold Peer.sendMessages.
    rewrite (write_open (Peer.set_stream (Some st) q) st _ eq_refl).
    cbn. rewrite set_stream_set_stream. by eauto.
Qed.

Lemma async_forward_to_sends (topics : list Topic) (messages : list Message)
  (q : Peer.t) (m : Message) (t : Topic) :
  Peer.isWritable q = true → utils.anyMatch (Peer.topics q) topics = true →
  outcome (Multicast.Async.forward_to h registry topics messages q)
  = Return tt →
  m ∈ messages → t ∈ Peer.topics q → t ∈ topicIDs m →
  lets_through h registry q messages m t →
  on_wire h m ∈
    sent (Peer.info q)
      (trace (Multicast.Async.forward_to h registry topics messages q)).
Proof.
  intros Hw Hany Hret Hm Htq Htm Hlet. revert Hret.
  unfold Multicast.Async.forward_to. rewrite run_get, Hw, Hany. cbn [negb orb].
  intros Hret. apply isWritable_true in Hw as [st Est].
  destruct (forEach_visit_returns
              (λ p, ∃ st', p = Peer.set_stream (Some st') q)
              (Multicast.Async.forward_topic h registry topics messages)
              (Peer.topics q) t q) as (p & pre & post & [st' ->] & _ & ->).
  - intros y p Hp. by apply async_forward_topic_keeps.
  - done.
  - exists st. by rewrite <- Est, set_stream_same.
  - done.
  - rewrite !sent_app. apply elem_of_app. right. apply elem_of_app. left.
    by apply async_forward_topic_sends.
Qed.

End AsyncSends.

Lemma pushed_concat_one (f : M Peer.t unit) (al : list rpc.Message)
  (ps : list Peer.t) (q : Peer.t) :
  local al f → NoDup (Peer.info <$> ps) → q ∈ ps →
  pushed (Peer.info q) (concat ((λ p, trace (f p)) <$> ps))
  = pushed (Peer.info q) (trace (f q)).
Proof.
  intros Hl. induction ps as [|p ps IH]; [by inversion 2|].
  rewrite fmap_cons, NoDup_cons. intros [Hnotin Hnd] Hin.
  rewrite fmap_cons, concat_cons, pushed_app.
  apply elem_of_cons in Hin as [->|Hin].
  - rewrite pushed_concat_nil; [by rewrite app_nil_r|].
    intros tr (p' & -> & Hp')%list_elem_of_fmap.
    destruct (Hl p') as (_ & _ & Hev). eapply pushed_local_other; [done|].
    intros Heq. apply Hnotin. rewrite <- Heq. by apply list_elem_of_fmap_2.
  - rewrite IH by done. destruct (Hl p) as (_ & _ & Hev).
    rewrite (pushed_local_other _ _ _ _ Hev); [done|].
    intros Heq. apply Hnotin. rewrite Heq. by apply list_elem_of_fmap_2.
Qed.

Lemma sent_concat_elem (id : PeerId) (l : list (list Event))
  (tr : list Event) (w : rpc.Message) :
  tr ∈ l → w ∈ sent id tr → w ∈ sent id (concat l).
Proof.
  intros (l1 & l2 & ->)%list_elem_of_split Hw.
  rewrite concat_app, concat_cons, !sent_app.
  apply elem_of_app. right. apply elem_of_app. by left.
Qed.

Lemma sync_forward_pushed (h : Host) (topics : list Topic)
  (messages : list Message) (s : Multicast.t) (q : Peer.t) :
  NoDup (Peer.info <$> Multicast.peers s) →
  q ∈ Multicast.peers s →
  Peer.isWritable q = true →
  (∃ t, t ∈ Peer.topics q ∧ t ∈ topics) →
  let r := Multicast._forwardMessages h SyncForm topics messages s in
  outcome r = Return tt →
  pushed (Peer.info q) (trace r) =
    [{| rpc.subscriptions := None;
        rpc.msgs :=
          Some (utils.normalizeOutRpcMessages h
                  (filter (λ m, passes_all h (Multicast.fwrdHooks s) q
                                  (Peer.topics q) m) messages)) |}].
Proof.
  intros Hnd Hin Hw Hshare%anyMatch_true.
  intros r Hret. subst r. rewrite run_forward in Hret |- *.
  cbn [outcome final trace fst snd] in Hret |- *.
  destruct (each_peer_returns _ _ Hret) as [-> Hall].
  cbn [outcome final trace fst snd].
  rewrite (pushed_concat_one _ _ _ _ (local_sync_forward_to h _ topics
             messages) Hnd Hin).
  rewrite Forall_forall in Hall. specialize (Hall q Hin).
  rewrite sync_forward_to, Hw, Hshare in Hall |- *.
  cbn [negb orb] in Hall |- *.
  destruct (narrow h _ q (Peer.topics q) messages) as [e|l] eqn:En;
    [done|].
  cbn. rewrite bool_decide_true by done.
  by rewrite (narrow_inr _ _ _ _ _ _ En).
Qed.


(** C3, as the code has it.  Let [q] be a writable record of the peer map
    that shares a topic with the forwarded topics.  In the synchronous form,
    when the procedure completes, exactly one record is pushed to [q] and
    its messages are those that every validator registered for any topic of
    [q] approves.  In the callback form, when the procedure returns, a
    message [m] has been sent to [q] if, for one topic [t] of [q] among the
    topics of [m], either [t] has no entry in the registry or every validator
    of [t] approves [m] and, on each message of the batch that is addressed
    to [t], none of them fails and each of them calls back before it
    returns. *)
Theorem forward_survivors (h : Host) (topics : list Topic)
  (messages : list Message) (s : Multicast.t) (q : Peer.t) :
  NoDup (Peer.info <$> Multicast.peers s) →
  q ∈ Multicast.peers s →
  Peer.isWritable q = true →
  (∃ t, t ∈ Peer.topics q ∧ t ∈ topics) →
  (let r := Multicast._forwardMessages h SyncForm topics messages s in
   outcome r = Return tt →
   pushed (Peer.info q) (trace r) =
     [{| rpc.subscriptions := None;
         rpc.msgs :=
           Some (utils.normalizeOutRpcMessages h
                   (filter (λ m, passes_all h (Multicast.fwrdHooks s) q
                                   (Peer.topics q) m) messages)) |}])
  ∧ (let r := Multicast._forwardMessages h AsyncForm topics messages s in
     outcome r = Return tt →
     ∀ m t, m ∈ messages → t ∈ Peer.topics q → t ∈ topicIDs m →
       lets_through h (Multicast.fwrdHooks s) q messages m t →
       on_wire h m ∈ sent (Peer.info q) (trace r)).
Proof.
  intros Hnd Hin Hw Hshare. split; [by apply sync_forward_pushed|].
  apply anyMatch_true in Hshare.
  intros r Hret m t Hm Htq Htm Hlet. subst r.
  rewrite run_forward in Hret |- *.
  cbn [outcome final trace fst snd] in Hret |- *.
  destruct (each_peer_returns _ _ Hret) as [-> Hall].
  cbn [outcome final trace fst snd].
  rewrite Forall_forall in Hall.
  eapply sent_concat_elem; [by apply list_elem_of_fmap_2|].
  eapply async_forward_to_sends; try done. by apply Hall.
Qed.

Lemma forward_survivors_witness :
  let q := demo_peer "QmA" ["a"; "b"] in
  let m := demo_message 3 ["a"; "b"] in
  let s := demo_engine [q] [] (<["a" := [0%nat]]> {["b" := [1%nat]]}) in
  on_wire demo_host m ∈
    sent "QmA"
      (trace (Multicast._forwardMessages demo_host AsyncForm ["a"; "b"]
                [m] s)).
Proof.
  intros q m s.
  destruct (forward_survivors demo_host ["a"; "b"] [m] s q) as [_ H].
  - by apply (bool_decide_unpack _).
  - by apply (bool_decide_unpack _).
  - reflexivity.
  - exists "a". split; by apply (bool_decide_unpack _).
  - apply (H eq_refl m "a").
    + by apply (bool_decide_unpack _).
    + by apply (bool_decide_unpack _).
    + by apply (bool_decide_unpack _).
    + split; [|split]; [intros st v Hv | intros st v m' e Hv Hm' _
                        | intros st v m' Hv Hm' _];
        apply list_elem_of_singleton in Hv; by subst v.
Defined.

(** C3, as the claim states it, fails in both forms: each time the record
    is writable, topic ["a"] is in both its topics and the topics of the
    message, every validator of ["a"] approves the message, and yet the
    message has not been sent when the call ends.  In the synchronous form
    the validator of ["b"], another topic of the record, rejects.  In the
    callback form, first, the validator of ["a"] fails on the other message
    of the batch; second, it approves only after it has returned, so that
    the answer is still awaited; third, the hook of a topic of an earlier
    record throws, and the call ends before the record is reached. *)
Lemma forward_any_topic_fails :
  (let q := demo_peer "QmA" ["a"; "b"] in
   let m := demo_message 3 ["a"; "b"] in
   let s := demo_engine [q] [] (<["a" := [0%nat]]> {["b" := [1%nat]]}) in
   Peer.isWritable q = true
   ∧ "a" ∈ Peer.topics q ∧ "a" ∈ topicIDs m
   ∧ passes demo_host (Multicast.fwrdHooks s) q m "a" = true
   ∧ sent "QmA"
       (trace (Multicast._forwardMessages demo_host SyncForm ["a"; "b"]
                 [m] s)) = [])
  ∧ (let q := demo_peer "QmA" ["a"] in
     let m := demo_message 3 ["a"] in
     let other := demo_message 7 ["a"] in
     let s := demo_engine [q] [] {["a" := [3%nat]]} in
     let r := Multicast._forwardMessages rough_host AsyncForm ["a"]
                [m; other] s in
     Peer.isWritable q = true
     ∧ "a" ∈ Peer.topics q ∧ "a" ∈ topicIDs m
     ∧ passes rough_host (Multicast.fwrdHooks s) q m "a" = true
     ∧ outcome r = Return tt
     ∧ sent "QmA" (trace r) = [])
  ∧ (let q := demo_peer "QmA" ["a"] in
     let m := demo_message 3 ["a"] in
     let s := demo_engine [q] [] {["a" := [4%nat]]} in
     let r := Multicast._forwardMessages rough_host AsyncForm ["a"] [m] s in
     Peer.isWritable q = true
     ∧ "a" ∈ Peer.topics q ∧ "a" ∈ topicIDs m
     ∧ passes rough_host (Multicast.fwrdHooks s) q m "a" = true
     ∧ r = (Return tt, s, [Log LogHasHooks; Postpone "QmA" "a"]))
  ∧ (let q := demo_peer "QmA" ["a"] in
     let first := demo_peer "QmB" ["x"] in
     let m := demo_message 3 ["a"; "x"] in
     let s := demo_engine [first; q] [] {["x" := [5%nat]]} in
     let r := Multicast._forwardMessages rough_host AsyncForm ["a"; "x"]
                [m] s in
     Peer.isWritable q = true
     ∧ "a" ∈ Peer.topics q ∧ "a" ∈ topicIDs m
     ∧ passes rough_host (Multicast.fwrdHooks s) q m "a" = true
     ∧ r = (Throw (Error "thrown"), s, [Log LogHasHooks])).
Proof.
  repeat split; try by apply (bool_decide_unpack _).
Qed.

(** ** Validators that fail *)







(** In the callback form the failure of a validator of one topic drops
    the batch of that topic only: here the validator of ["a"] fails, ["b"]
    has no validators, and the message still reaches the record. *)
Example error_drops_one_topic_only :
  let q := demo_peer "QmA" ["a"; "b"] in
  let m := demo_message 3 ["a"; "b"] in
  let s := demo_engine [q] [] {["a" := [2%nat]]} in
  let r := Multicast._forwardMessages demo_host AsyncForm ["a"; "b"] [m] s in
  outcome r = Return tt
  ∧ Log (LogError (Error "boom")) ∈ trace r
  ∧ sent "QmA" (trace r) = [on_wire demo_host m].
Proof.
  intros q m s r. split; [by vm_compute|]. split; [|by vm_compute].
  by apply (bool_decide_unpack _).
Qed.


(** ** The facade *)

Lemma total_sendSubscriptionsOnceReady (topics : list Topic) :
  total (Multicast.sendSubscriptionsOnceReady topics).
Proof.
  unfold Multicast.sendSubscriptionsOnceReady. apply total_get. intros p.
  destruct (Peer.isWritable p); [|by intros p'; exists tt].
  unfold Peer.sendSubscriptions, Peer._sendRawSubscriptions.
  case_bool_decide; [apply total_ret | apply total_write].
Qed.

Lemma subscribe_one (topic : Topic) (s : Multicast.t) :
  (Multicast.started s = true →
   ∃ ps tr,
     Multicast.subscribe (utils.One topic) s =
       (Return tt,
        Multicast.set_peers ps
          (Multicast.set_subscriptions
             (Peer.set_add topic (Multicast.subscriptions s)) s), tr))
  ∧ (Multicast.started s = false →
     Multicast.subscribe (utils.One topic) s =
       (Throw (AssertionError "Multicast is not started"), s, [])).
Proof.
  unfold Multicast.subscribe. rewrite run_get. split; intros ->; [|done].
  cbn [Multicast.assert utils.ensureArray forEach].
  rewrite run_bind. cbn [ret]. rewrite !run_bind. cbn [modify ret app].
  unfold Multicast.peers_forEach.
  rewrite each_peer_total by apply total_sendSubscriptionsOnceReady.
  by eexists _, _.
Qed.

Lemma facade_subscribe_run (topic : Topic) (hooks : list Hook)
  (handler : Handler) (callback : Callback) (node : bool)
  (mc : Multicast.t) :
  hooks ≠ [] → node || Multicast.started mc = true →
  Facade.subscribe topic
    (Facade.IsObject {| Facade.frwdHooks := Some hooks;
                        Facade.frwdHook := None |}) handler callback
    {| Facade.node_isStarted := node; Facade.multicast := mc |} =
  let announce : M Multicast.t unit :=
    if bool_decide (Multicast.listenerCount topic mc = 0%nat)
    then Multicast.subscribe (utils.One topic) else ret tt in
  (match outcome (announce mc) with
   | Return _ =>
       Throw (TypeError "Cannot read property 'forEach' of undefined")
   | Throw e => Throw e
   end,
   {| Facade.node_isStarted := node;
      Facade.multicast := final (announce mc) |},
   trace (announce mc)).
Proof.
  intros Hne Hstarted.
  unfold Facade.subscribe. rewrite run_get.
  cbn [Facade.node_isStarted Facade.multicast Facade.frwdHooks
       Facade.frwdHook].
  assert (negb node && negb (Multicast.started mc) = false) as ->.
  { by destruct node, (Multicast.started mc). }
  assert (bool_decide (length (default [] (Some hooks)) ≠ 0%nat) = true)
    as -> by (apply bool_decide_eq_true; by destruct hooks).
  destruct (bool_decide (Multicast.listenerCount topic mc = 0%nat));
    cbn [when]; rewrite run_bind; [|by cbn; rewrite ?app_nil_r].
  unfold Facade.on_multicast at 1. cbn [Facade.multicast].
  destruct (Multicast.subscribe (utils.One topic) mc) as [[[[]|e] mc1] t1];
    cbn; [|done]. rewrite run_bind. cbn. by rewrite app_nil_r.
Qed.

(** C9 does not hold of the code.  On a started node, a [subscribe]
    through the facade whose options carry a non-empty [frwdHooks] (and
    nothing else) throws, and neither a hook nor the handler is installed:
    the loop reads the property [frwdHook], which is undefined. *)
Theorem subscribe_drops_hooks (topic : Topic) (hooks : list Hook)
  (handler : Handler) (callback : Callback) (s : Facade.t) :
  hooks ≠ [] → Facade.node_isStarted s = true →
  let options :=
    Facade.IsObject {| Facade.frwdHooks := Some hooks;
                       Facade.frwdHook := None |} in
  let r := Facade.subscribe topic options handler callback s in
  (∃ e, outcome r = Throw e)
  ∧ (Multicast.started (Facade.multicast s) = true →
     outcome r = Throw (TypeError "Cannot read property 'forEach' of undefined"))
  ∧ Multicast.fwrdHooks (Facade.multicast (final r))
    = Multicast.fwrdHooks (Facade.multicast s)
  ∧ Multicast.listeners (Facade.multicast (final r))
    = Multicast.listeners (Facade.multicast s).
Proof.
  intros Hne Hnode options r. subst options r.
  destruct s as [node mc]. cbn [Facade.node_isStarted Facade.multicast] in *.
  subst node. rewrite facade_subscribe_run by done. cbv zeta.
  cbn [outcome final trace fst snd Facade.multicast].
  destruct (bool_decide (Multicast.listenerCount topic mc = 0%nat)).
  - destruct (Multicast.started mc) eqn:Est.
    + destruct (subscribe_one topic mc) as [H _].
      destruct (H Est) as (ps & tr & ->). cbn. repeat split; by eauto.
    + destruct (subscribe_one topic mc) as [_ H]. rewrite (H Est). cbn.
      repeat split; by eauto.
  - cbn. repeat split; by eauto.
Qed.

Lemma subscribe_drops_hooks_witness :
  let s := {| Facade.node_isStarted := true;
              Facade.multicast := demo_engine [demo_peer "QmA" []] [] ∅ |} in
  let r := Facade.subscribe "foo"
             (Facade.IsObject {| Facade.frwdHooks := Some [0%nat];
                                 Facade.frwdHook := None |}) 7%nat 8%nat s in
  Multicast.fwrdHooks (Facade.multicast (final r)) = ∅.
Proof.
  intros s.
  destruct (subscribe_drops_hooks "foo" [0%nat] 7%nat 8%nat s)
    as (_ & _ & H & _); [discriminate | reflexivity | exact H].
Defined.

Lemma facade_addFrwdHook_run (topic : Topic) (hook : Hook) (s : Facade.t) :
  Facade.on_multicast (Multicast.addFrwdHook topic hook) s =
    (Return tt,
     {| Facade.node_isStarted := Facade.node_isStarted s;
        Facade.multicast :=
          Multicast.set_fwrdHooks
            (<[topic := Peer.set_add hook
                          (default []
                             (Multicast.fwrdHooks (Facade.multicast s)
                                !! topic))]>
               (Multicast.fwrdHooks (Facade.multicast s)))
            (Facade.multicast s) |}, []).
Proof. reflexivity. Qed.

(** The bulk registration of the facade, which goes through the same
    [addFrwdHook], does install every hook it is given. *)
Lemma addFrwdHooks_installs (topic : Topic) (hooks : list Hook)
  (s : Facade.t) :
  let r := Facade.addFrwdHooks topic hooks s in
  let entry (x : Facade.t) :=
    default [] (Multicast.fwrdHooks (Facade.multicast x) !! topic) in
  outcome r = Return tt
  ∧ ∀ h, h ∈ hooks ∨ h ∈ entry s → h ∈ entry (final r).
Proof.
  cbv zeta. unfold Facade.addFrwdHooks. revert s.
  induction hooks as [|h0 hooks IH]; intros s.
  - split; [done|]. intros h [Hh|Hh]; [by inversion Hh | done].
  - cbn [forEach]. rewrite run_bind, facade_addFrwdHook_run.
    set (s1 := {| Facade.node_isStarted := Facade.node_isStarted s;
                  Facade.multicast := _ |}).
    destruct (IH s1) as [Ho Hin].
    destruct (forEach hooks _ s1) as [[o s2] t2].
    cbn [outcome final fst snd] in Ho, Hin |- *.
    split; [done|]. intros h Hh. apply Hin.
    destruct Hh as [[->|Hh]%elem_of_cons|Hh]; [right | by left | right];
      unfold s1;
      cbn [Facade.multicast Multicast.fwrdHooks Multicast.set_fwrdHooks];
      rewrite lookup_insert_eq; cbn [default]; unfold Peer.set_add;
      case_bool_decide as Hmem; try done.
    + apply elem_of_app. right. by left.
    + apply elem_of_app. by left.
Qed.

(** With the same hooks under the property that the loop reads, they are
    installed. *)
Example subscribe_reads_frwdHook :
  let s := {| Facade.node_isStarted := true;
              Facade.multicast := demo_engine [] [] ∅ |} in
  let r := Facade.subscribe "foo"
             (Facade.IsObject {| Facade.frwdHooks := Some [0%nat];
                                 Facade.frwdHook := Some [5%nat; 6%nat] |})
             7%nat 8%nat s in
  outcome r = Return tt
  ∧ Multicast.fwrdHooks (Facade.multicast (final r)) !! "foo"
    = Some [5%nat; 6%nat].
Proof. by vm_compute. Qed.

(** ** The per-message loop *)

Lemma emit_run (h : Host) (topic : Topic) (message : Message)
  (s : Multicast.t) :
  ∃ o, Multicast.emit h topic message s = (o, s, [Emit topic message])
       ∧ if quiet h s topic message then o = Return tt
         else ∃ e, o = Throw e.
Proof.
  unfold Multicast.emit, quiet. rewrite run_bind. cbn [tell].
  rewrite run_get.
  assert (∀ hs : list Handler,
            ∃ o, forEach hs (λ f, match listener h f message with
                                  | Some e => throw e
                                  | None => ret tt
                                  end) s = (o, s, [])
                 ∧ if forallb (λ f, match listener h f message with
                                    | Some _ => false
                                    | None => true
                                    end) hs
                   then o = Return tt else ∃ e, o = Throw e) as Hloop.
  { induction hs as [|f hs IH]; [by eexists|].
    cbn [forEach forallb]. rewrite run_bind.
    destruct (listener h f message) as [e|]; cbn [throw ret andb].
    - eexists. split; [done|]. by eexists.
    - destruct IH as (o & -> & Ho). by exists o. }
  destruct (default [] (Multicast.listeners s !! topic)) as [|f hs].
  - case_bool_decide; cbn [throw ret negb]; eexists; (split; [done|]);
      [by eexists | done].
  - destruct (Hloop (f :: hs)) as (o & -> & Ho). by exists o.
Qed.

(** The local emit leaves the engine as it is.  When every delivery
    returns, its trace is the local deliveries; otherwise it throws, and its
    trace is what comes before the delivery that threw, that one included. *)
Lemma emitMessages_cases (h : Host) (topics : list Topic)
  (messages : list Message) (s : Multicast.t) :
  let all := deliveries (Multicast.subscriptions s) topics messages in
  if calm h s topics messages
  then Multicast._emitMessages h topics messages s = (Return tt, s, all)
  else ∃ e tr rest, Multicast._emitMessages h topics messages s
                    = (Throw e, s, tr)
                    ∧ all = tr ++ rest.
Proof.
  cbv zeta.
  assert (∀ t,
            if forallb (quiet h s t) messages
            then forEach messages (λ message, Multicast.emit h t message) s
                 = (Return tt, s, Emit t <$> messages)
            else ∃ e tr rest,
                   forEach messages (λ message, Multicast.emit h t message) s
                   = (Throw e, s, tr)
                   ∧ Emit t <$> messages = tr ++ rest) as Hinner.
  { intros t. induction messages as [|m ms IH]; [done|].
    cbn [forEach forallb]. rewrite run_bind.
    destruct (emit_run h t m s) as (o & -> & Ho).
    destruct (quiet h s t m); cbn [andb].
    - subst o. destruct (forallb (quiet h s t) ms).
      + by rewrite IH.
      + destruct IH as (e & tr & rest & -> & E).
        exists e, (Emit t m :: tr), rest. by rewrite fmap_cons, E.
    - destruct Ho as [e ->]. by exists e, [Emit t m], (Emit t <$> ms). }
  unfold Multicast._emitMessages, deliveries, calm.
  induction topics as [|t ts IH]; [done|].
  cbn [forEach forallb]. rewrite run_bind, run_get.
  case_bool_decide as Hsub; cbn [negb orb].
  - rewrite filter_cons_True by done. rewrite bind_cons.
    specialize (Hinner t).
    destruct (forallb (quiet h s t) messages); cbn [andb].
    + rewrite Hinner.
      destruct (forallb _ ts).
      * by rewrite IH.
      * destruct IH as (e & tr & rest & -> & E).
        exists e, ((Emit t <$> messages) ++ tr), rest.
        by rewrite E, app_assoc.
    + destruct Hinner as (e & tr & rest & -> & E).
      exists e, tr, (rest ++ (ts' ← filter (λ t, t ∈ Multicast.subscriptions s) ts;
                              Emit ts' <$> messages)).
      by rewrite E, app_assoc.
  - rewrite filter_cons_False by done. cbn [ret andb].
    destruct (forallb _ ts).
    + by rewrite IH.
    + destruct IH as (e & tr & rest & -> & E). by exists e, tr, rest.
Qed.

Lemma emitMessages_run (h : Host) (topics : list Topic)
  (messages : list Message) (s : Multicast.t) :
  calm h s topics messages = true →
  Multicast._emitMessages h topics messages s =
    (Return tt, s, deliveries (Multicast.subscriptions s) topics messages).
Proof.
  intros Hcalm. pose proof (emitMessages_cases h topics messages s) as H.
  cbv zeta in H. by rewrite Hcalm in H.
Qed.

Lemma calm_nil (h : Host) (s : Multicast.t) (topics : list Topic) :
  calm h s topics [] = true.
Proof.
  unfold calm. induction topics as [|t ts IH]; [done|].
  cbn [forallb] in IH |- *. rewrite IH. by destruct (negb _).
Qed.

Lemma cache_put_run (now : Z) (id : MsgId) (s : Multicast.t) :
  Multicast.cache_put now id s =
    (Return tt,
     Multicast.set_cache (TimeCache.put (Multicast.cache s) now id) s,
     [CachePut id]).
Proof. reflexivity. Qed.

Lemma calm_set_cache (h : Host) (c : TimeCache.t) (s : Multicast.t)
  (topics : list Topic) (messages : list Message) :
  calm h (Multicast.set_cache c s) topics messages
  = calm h s topics messages.
Proof. reflexivity. Qed.

(** The local emit as a whole: state, and trace inside the deliveries. *)
Lemma emitMessages_frame (h : Host) (topics : list Topic)
  (messages : list Message) (s : Multicast.t) :
  let e := Multicast._emitMessages h topics messages s in
  final e = s
  ∧ (∃ rest, deliveries (Multicast.subscriptions s) topics messages
             = trace e ++ rest)
  ∧ (outcome e = Return tt →
     trace e = deliveries (Multicast.subscriptions s) topics messages)
  ∧ (calm h s topics messages = true → outcome e = Return tt).
Proof.
  cbv zeta. pose proof (emitMessages_cases h topics messages s) as H.
  cbv zeta in H. destruct (calm h s topics messages).
  - rewrite H. cbn. repeat split; try done. exists []. by rewrite app_nil_r.
  - destruct H as (e & tr & rest & -> & E). cbn. repeat split; try done.
    by exists rest.
Qed.

(** What the body of the per-message loop does. *)
Lemma process_run (h : Host) (form : Form) (now : Z) (m : Message)
  (s : Multicast.t) :
  Multicast.process h form now m s =
    if TimeCache.has (Multicast.cache s) now (id_of h m) then (Return tt, s, [])
    else
      let s1 := Multicast.set_cache
                  (TimeCache.put (Multicast.cache s) now (id_of h m)) s in
      let e := Multicast._emitMessages h (topicIDs m) [m] s1 in
      match outcome e with
      | Throw err => (Throw err, s1, CachePut (id_of h m) :: trace e)
      | Return _ =>
          if bool_decide (hops m = 0)
          then (Return tt, s1,
                CachePut (id_of h m) :: trace e ++ [Log LogSkipHopZero])
          else
            let m' := if bool_decide (0 < hops m)
                      then Multicast.set_hops (hops m - 1) m else m in
            let f := Multicast._forwardMessages h form (topicIDs m) [m'] s1 in
            (outcome f, final f, CachePut (id_of h m) :: trace e ++ trace f)
      end.
Proof.
  unfold Multicast.process. rewrite run_get. fold (id_of h m).
  destruct (TimeCache.has _ _ _); [done|].
  rewrite run_bind, cache_put_run, run_bind. cbv zeta.
  set (s1 := Multicast.set_cache _ s).
  destruct (emitMessages_frame h (topicIDs m) [m] s1) as (Hfin & _).
  destruct (Multicast._emitMessages h (topicIDs m) [m] s1)
    as [[[[]|err] s2] t2]; cbn [outcome final trace fst snd] in Hfin |- *;
    subst s2; [|done].
  case_bool_decide as Hz; [done|].
  assert (topicIDs (if bool_decide (0 < hops m)
                    then Multicast.set_hops (hops m - 1) m else m)
          = topicIDs m) as -> by by case_bool_decide.
  by destruct (Multicast._forwardMessages _ _ _ _ _) as [[o s3] t3].
Qed.

(** The same when every local delivery of the message returns. *)
Lemma process_run_calm (h : Host) (form : Form) (now : Z) (m : Message)
  (s : Multicast.t) :
  calm h s (topicIDs m) [m] = true →
  Multicast.process h form now m s =
    if TimeCache.has (Multicast.cache s) now (id_of h m) then (Return tt, s, [])
    else
      let s1 := Multicast.set_cache
                  (TimeCache.put (Multicast.cache s) now (id_of h m)) s in
      let pre := CachePut (id_of h m)
                 :: deliveries (Multicast.subscriptions s) (topicIDs m) [m] in
      if bool_decide (hops m = 0)
      then (Return tt, s1, pre ++ [Log LogSkipHopZero])
      else
        let m' := if bool_decide (0 < hops m)
                  then Multicast.set_hops (hops m - 1) m else m in
        let f := Multicast._forwardMessages h form (topicIDs m) [m'] s1 in
        (outcome f, final f, pre ++ trace f).
Proof.
  intros Hcalm. rewrite process_run. destruct (TimeCache.has _ _ _); [done|].
  cbv zeta. rewrite emitMessages_run by by rewrite calm_set_cache.
  done.
Qed.

Lemma sent_concat_subset (id : PeerId) (al : list rpc.Message)
  (l : list (list Event)) :
  (∀ tr, tr ∈ l → sent id tr ⊆ al) → sent id (concat l) ⊆ al.
Proof.
  induction l as [|tr l IH]; intros H; [by intros w Hw; inversion Hw|].
  rewrite concat_cons, sent_app. intros w [Hw|Hw]%elem_of_app.
  - eapply H; [by left | done].
  - apply IH; [|done]. intros tr' Htr'. apply H. by right.
Qed.

(** Whatever a forward procedure sends is one of the messages it was
    given, in wire form. *)
Lemma forward_sent_subset (h : Host) (form : Form) (topics : list Topic)
  (messages : list Message) (s : Multicast.t) (id : PeerId) :
  sent id (trace (Multicast._forwardMessages h form topics messages s))
  ⊆ utils.normalizeOutRpcMessages h messages.
Proof.
  rewrite run_forward. cbn [outcome final trace fst snd].
  destruct (each_peer_prefix
              match form with
              | SyncForm => Multicast.Sync.forward_to h (Multicast.fwrdHooks s)
                              topics messages
              | AsyncForm => Multicast.Async.forward_to h
                               (Multicast.fwrdHooks s) topics messages
              end (Multicast.peers s)) as (k & _ & _ & Htr & _).
  rewrite Htr.
  apply sent_concat_subset. intros tr (p & -> & _)%list_elem_of_fmap.
  destruct (local_forward_to h form (Multicast.fwrdHooks s) topics messages p)
    as (_ & _ & Hev).
  by eapply sent_local.
Qed.

Lemma sent_deliveries (id : PeerId) (subs topics : list Topic)
  (messages : list Message) :
  sent id (deliveries subs topics messages) = [].
Proof.
  unfold deliveries.
  induction (filter (λ t, t ∈ subs) topics) as [|t ts IH]; [done|].
  rewrite bind_cons, sent_app, IH, app_nil_r. clear IH.
  induction messages as [|m ms IHm]; [done | exact IHm].
Qed.

Lemma narrow_unvalidated (h : Host) (q : Peer.t) (ts : list Topic)
  (msgs : list Message) :
  narrow h ∅ q ts msgs = inr msgs.
Proof. induction ts as [|t ts IH]; [done|]. cbn. by rewrite lookup_empty. Qed.

(** With an empty registry every writable record that shares a topic with
    the message gets it. *)
Lemma forward_unvalidated_sends (h : Host) (form : Form)
  (topics : list Topic) (messages : list Message) (s : Multicast.t)
  (q : Peer.t) (m : Message) :
  Multicast.fwrdHooks s = ∅ → q ∈ Multicast.peers s →
  Peer.isWritable q = true →
  (∃ t, t ∈ Peer.topics q ∧ t ∈ topics ∧ t ∈ topicIDs m) →
  m ∈ messages →
  on_wire h m ∈
    sent (Peer.info q)
      (trace (Multicast._forwardMessages h form topics messages s)).
Proof.
  intros Hreg Hin Hw (t & Htq & Htt & Htm) Hm.
  assert (utils.anyMatch (Peer.topics q) topics = true) as Hany
    by (apply anyMatch_true; eauto).
  rewrite run_forward, Hreg. cbn [outcome final trace fst snd].
  destruct form.
  - rewrite each_peer_total.
    + cbn [trace snd]. eapply sent_concat_elem;
        [by apply list_elem_of_fmap_2|].
      rewrite sync_forward_to, Hw, Hany, narrow_unvalidated.
      cbn [negb orb trace snd]. rewrite sent_push. cbn [rpc.msgs default].
      apply elem_of_app. left. rewrite normalizeOut_on_wire.
      by apply list_elem_of_fmap_2.
    + intros p. exists tt. rewrite sync_forward_to, narrow_unvalidated.
      by destruct (negb _ || negb _).
  - pose proof (total_async_forward_to h ∅ topics messages
                  (never_throws_empty h messages)) as Htot.
    rewrite each_peer_total by exact Htot.
    cbn [trace snd]. eapply sent_concat_elem; [by apply list_elem_of_fmap_2|].
    eapply async_forward_to_sends; try done.
    destruct (Htot q) as [[] Hret]. exact Hret.
Qed.

(** A loop whose first items return reaches the next one, and goes on
    from there when that one returns. *)
Lemma forEach_reach {S A} (f : A → M S unit) (xs ys : list A) (x : A)
  (s : S) :
  outcome (forEach xs f s) = Return tt →
  forEach (xs ++ x :: ys) f s =
    let r0 := forEach xs f s in
    let step := f x (final r0) in
    let rest := forEach ys f (final step) in
    match outcome step with
    | Return _ => (outcome rest, final rest,
                   trace r0 ++ trace step ++ trace rest)
    | Throw e => (Throw e, final step, trace r0 ++ trace step)
    end.
Proof.
  revert s. induction xs as [|y xs IH]; intros s Hret.
  - cbn [app forEach ret outcome final trace fst snd]. rewrite run_bind.
    destruct (f x s) as [[[[]|e] s1] t1]; cbn [outcome final trace fst snd];
      [|done].
    by destruct (forEach ys f s1) as [[o s2] t2].
  - assert (outcome (f y s) = Return tt) as Ho.
    { cbn [forEach] in Hret. rewrite run_bind in Hret.
      by destruct (f y s) as [[[[]|e] s1] t1]. }
    rewrite <- app_comm_cons.
    rewrite (run_forEach_cons _ (xs ++ x :: ys) _ _ Ho).
    rewrite (run_forEach_cons _ xs _ _ Ho) in Hret |- *.
    cbn [outcome final trace fst snd] in Hret |- *.
    rewrite (IH _ Hret). cbv zeta.
    destruct (outcome (f x _)) as [[]|e]; cbn [outcome final trace fst snd];
      by rewrite <- app_assoc.
Qed.

(** C2, as the code has it.  Take a message [m] of a received record such
    that the handling of the messages before it returns, [m] is not in the
    cache then, and no local delivery of [m] throws.  The loop reaches [m]
    and goes on with the messages after it when the handling of [m]
    returns.  [m] is delivered locally, once for each of its topics that is
    locally subscribed.  With [hops = 0] that is all: nothing is pushed to any
    peer and the peer map is left as it was.  With [hops = k > 0] the forward
    procedure runs on the message with [hops = k - 1], with a negative [hops]
    it runs on the message as it is; every message that is sent then carries
    that value, and with an empty registry every writable peer that shares a
    topic with the message is sent it. *)
Theorem hop_rule (h : Host) (form : Form) (now : Z)
  (before after : list Message) (m : Message) (s : Multicast.t) :
  let r0 := Multicast._processRpcMessages h form now before s in
  let s0 := final r0 in
  outcome r0 = Return tt →
  TimeCache.has (Multicast.cache s0) now (id_of h m) = false →
  calm h s0 (topicIDs m) [m] = true →
  let r := Multicast._processRpcMessages h form now (before ++ m :: after) s in
  let step := Multicast.process h form now m s0 in
  let s1 := Multicast.set_cache
              (TimeCache.put (Multicast.cache s0) now (id_of h m)) s0 in
  let delivered :=
    (λ t, Emit t m)
      <$> filter (λ t, t ∈ Multicast.subscriptions s0) (topicIDs m) in
  let forwarded m' :=
    let f := Multicast._forwardMessages h form (topicIDs m) [m'] s1 in
    step = (outcome f, final f, CachePut (id_of h m) :: delivered ++ trace f)
    ∧ (∀ to w, w ∈ sent to (trace step) → w = on_wire h m')
    ∧ (Multicast.fwrdHooks s0 = ∅ →
       ∀ q, q ∈ Multicast.peers s0 → Peer.isWritable q = true →
            (∃ t, t ∈ Peer.topics q ∧ t ∈ topicIDs m) →
            on_wire h m' ∈ sent (Peer.info q) (trace r)) in
  r = (let rest := Multicast._processRpcMessages h form now after
                     (final step) in
       match outcome step with
       | Return _ => (outcome rest, final rest,
                      trace r0 ++ trace step ++ trace rest)
       | Throw e => (Throw e, final step, trace r0 ++ trace step)
       end)
  ∧ (hops m = 0 →
     step = (Return tt, s1,
             CachePut (id_of h m) :: delivered ++ [Log LogSkipHopZero]))
  ∧ (0 < hops m →
       forwarded (Multicast.set_hops (hops m - 1) m)
       ∧ rpc.hops (on_wire h (Multicast.set_hops (hops m - 1) m))
         = hops m - 1)
  ∧ (hops m < 0 → forwarded m ∧ rpc.hops (on_wire h m) = hops m).
Proof.
  intros r0 s0 Hret Hfresh Hcalm r step s1 delivered forwarded.
  assert (r = (let rest := Multicast._processRpcMessages h form now after
                             (final step) in
               match outcome step with
               | Return _ => (outcome rest, final rest,
                              trace r0 ++ trace step ++ trace rest)
               | Throw e => (Throw e, final step, trace r0 ++ trace step)
               end)) as Hr.
  { subst r. unfold Multicast._processRpcMessages.
    by rewrite (forEach_reach _ _ _ _ _ Hret). }
  assert (∃ rest, trace r = trace r0 ++ trace step ++ rest) as [rest Htr].
  { rewrite Hr. cbv zeta. destruct (outcome step) as [[]|e].
    - by eexists.
    - exists []. by rewrite app_nil_r. }
  assert (deliveries (Multicast.subscriptions s0) (topicIDs m) [m] = delivered)
    as Hdel.
  { unfold deliveries, delivered.
    induction (filter _ (topicIDs m)) as [|t ts IH]; [done|].
    by rewrite bind_cons, IH. }
  assert (∀ m', topicIDs m' = topicIDs m →
            step = (let f := Multicast._forwardMessages h form (topicIDs m)
                               [m'] s1 in
                    (outcome f, final f,
                     CachePut (id_of h m) :: delivered ++ trace f)) →
            forwarded m') as Hfwd.
  { intros m' Htop Hstep. subst forwarded. cbv zeta in Hstep |- *.
    split; [done|]. split.
    - rewrite Hstep. cbn [trace snd]. intros to w Hw.
      change (CachePut (id_of h m) :: delivered ++ ?t)
        with ([CachePut (id_of h m)] ++ delivered ++ t) in Hw.
      rewrite !sent_app, <- Hdel, sent_deliveries in Hw. cbn in Hw.
      apply forward_sent_subset in Hw.
      by apply list_elem_of_singleton in Hw.
    - intros Hreg q Hq Hw (t & Htq & Htm).
      rewrite Htr, Hstep. cbn [trace snd].
      change (CachePut (id_of h m) :: delivered ++ ?t)
        with ([CachePut (id_of h m)] ++ delivered ++ t).
      rewrite !sent_app. apply elem_of_app. right. apply elem_of_app. left.
      apply elem_of_app. right. apply elem_of_app. right.
      apply forward_unvalidated_sends; try done.
      + exists t. by rewrite Htop.
      + by apply list_elem_of_singleton. }
  split; [exact Hr|]. clear Hr Htr.
  subst step. rewrite (process_run_calm _ _ _ _ _ Hcalm) in Hfwd |- *.
  rewrite Hfresh in Hfwd |- *. cbv zeta in Hfwd |- *.
  rewrite Hdel in Hfwd |- *. fold s1 in Hfwd |- *. split; [|split].
  - intros Hz. by rewrite bool_decide_true.
  - intros Hpos. split; [|done]. apply Hfwd; [done|].
    rewrite bool_decide_false by lia. by rewrite bool_decide_true.
  - intros Hneg. split; [|done]. apply Hfwd; [done|].
    rewrite bool_decide_false by lia. by rewrite bool_decide_false by lia.
Qed.

Lemma hop_rule_witness :
  let s := demo_engine [demo_peer "QmA" ["a"]] ["a"] ∅ in
  let m := next_message 2 ["a"] in
  on_wire demo_host (Multicast.set_hops 1 m)
  ∈ sent "QmA"
      (trace (Multicast._processRpcMessages demo_host AsyncForm 5
                ([demo_message 0 ["a"]] ++ [m]) s)).
Proof.
  intros s m.
  destruct (hop_rule demo_host AsyncForm 5 [demo_message 0 ["a"]] [] m s)
    as (_ & _ & Hpos & _); [reflexivity | reflexivity | reflexivity |].
  destruct Hpos as [(_ & _ & Hlive) _]; [done|].
  apply (Hlive eq_refl (demo_peer "QmA" ["a"])).
  - by apply (bool_decide_unpack _).
  - reflexivity.
  - exists "a". split; by apply (bool_decide_unpack _).
Defined.

(** C2, as the claim states it, fails: a received message that is not a
    duplicate is not always handled.  First, in the form of [src/index.js],
    the validator of the peer fails on the first message of the record, the
    loop ends there, and the second message, which is not in the cache and
    has no hops left, is not delivered although its topic is locally
    subscribed.  Second, a message with two hops left on a subscribed topic
    named [error] that has no listener: the local emit throws and nothing is
    forwarded.  Third, the same when a listener of the topic throws. *)
Lemma fresh_message_unhandled :
  (let q := demo_peer "QmA" ["a"] in
   let s := demo_engine [q] ["b"] {["a" := [2%nat]]} in
   let m := next_message 0 ["b"] in
   let r := Multicast._processRpcMessages demo_host SyncForm 5
              [demo_message 3 ["a"]; m] s in
   TimeCache.has (Multicast.cache s) 5 (id_of demo_host m) = false
   ∧ "b" ∈ Multicast.subscriptions s ∧ "b" ∈ topicIDs m
   ∧ outcome r = Throw (Error "boom")
   ∧ emitted (trace r) = []
   ∧ TimeCache.has (Multicast.cache (final r)) 5 (id_of demo_host m) = false)
  ∧ (let q := demo_peer "QmA" ["error"] in
     let s := demo_engine [q] ["error"] ∅ in
     let m := demo_message 2 ["error"] in
     let r := Multicast._processRpcMessages demo_host SyncForm 5 [m] s in
     TimeCache.has (Multicast.cache s) 5 (id_of demo_host m) = false
     ∧ Peer.isWritable q = true ∧ "error" ∈ Peer.topics q
     ∧ outcome r = Throw (Error "Unhandled error.")
     ∧ sent "QmA" (trace r) = [])
  ∧ (let q := demo_peer "QmA" ["a"] in
     let s := Multicast.set_listeners {["a" := [9%nat]]}
                (demo_engine [q] ["a"] ∅) in
     let m := demo_message 2 ["a"] in
     let r := Multicast._processRpcMessages rough_host AsyncForm 5 [m] s in
     TimeCache.has (Multicast.cache s) 5 (id_of rough_host m) = false
     ∧ Peer.isWritable q = true ∧ "a" ∈ Peer.topics q
     ∧ outcome r = Throw (Error "listener")
     ∧ sent "QmA" (trace r) = []).
Proof.
  repeat split; try by apply (bool_decide_unpack _).
Qed.

(** ** The cache inside its validity window *)

Lemma has_live (T0 now : Z) (c : TimeCache.t) (id : MsgId) :
  live_since T0 c id → now < T0 + TimeCache.validityMs c →
  TimeCache.has c now id = true.
Proof.
  intros (stamp & Hs & Hle) Hnow. unfold TimeCache.has. rewrite Hs.
  apply bool_decide_eq_true. lia.
Qed.

Lemma put_live_self (T0 now : Z) (c : TimeCache.t) (id : MsgId) :
  T0 ≤ now → live_since T0 (TimeCache.put c now id) id.
Proof.
  intros Hle. exists now. split; [|done]. cbn. apply lookup_insert_eq.
Qed.

Lemma put_live (T0 now : Z) (c : TimeCache.t) (id id' : MsgId) :
  T0 ≤ now → now < T0 + TimeCache.validityMs c →
  live_since T0 c id → live_since T0 (TimeCache.put c now id') id.
Proof.
  intros Hle Hnow (stamp & Hs & Hst).
  destruct (decide (id' = id)) as [->|Hne]; [by apply put_live_self|].
  exists stamp. split; [|done]. cbn. rewrite lookup_insert_ne by done.
  apply map_lookup_filter_Some_2; [done|]. cbn. lia.
Qed.

Lemma put_has (now now' : Z) (c : TimeCache.t) (id : MsgId) :
  now' < now + TimeCache.validityMs c →
  TimeCache.has (TimeCache.put c now id) now' id = true.
Proof.
  intros Hnow. unfold TimeCache.has. cbn. rewrite lookup_insert_eq.
  by apply bool_decide_eq_true.
Qed.

(** ** Local deliveries, by identifier *)

Lemma emitted_for_app (h : Host) (id : MsgId) (t1 t2 : list Event) :
  emitted_for h id (t1 ++ t2) = emitted_for h id t1 ++ emitted_for h id t2.
Proof. unfold emitted_for. by rewrite emitted_app, filter_app. Qed.

Lemma emitted_concat_nil (l : list (list Event)) :
  (∀ tr, tr ∈ l → emitted tr = []) → emitted (concat l) = [].
Proof.
  induction l as [|tr l IH]; [done|]. intros H.
  rewrite concat_cons, emitted_app, (H tr), IH; [done | | by left].
  intros tr' Htr'. apply H. by right.
Qed.

Lemma forward_frame (h : Host) (form : Form) (topics : list Topic)
  (messages : list Message) (s : Multicast.t) :
  let r := Multicast._forwardMessages h form topics messages s in
  (∃ ps, final r = Multicast.set_peers ps s) ∧ emitted (trace r) = [].
Proof.
  cbv zeta. rewrite run_forward. cbn [outcome final trace fst snd].
  split; [by eexists|].
  destruct (each_peer_prefix
              match form with
              | SyncForm => Multicast.Sync.forward_to h (Multicast.fwrdHooks s)
                              topics messages
              | AsyncForm => Multicast.Async.forward_to h
                               (Multicast.fwrdHooks s) topics messages
              end (Multicast.peers s)) as (k & _ & _ & -> & _).
  apply emitted_concat_nil. intros tr (p & -> & _)%list_elem_of_fmap.
  destruct (local_forward_to h form (Multicast.fwrdHooks s) topics messages p)
    as (_ & _ & Hev).
  by eapply emitted_local.
Qed.

Lemma emitted_deliveries (subs topics : list Topic) (m : Message) :
  emitted (deliveries subs topics [m])
  = (λ t, (t, m)) <$> filter (λ t, t ∈ subs) topics.
Proof.
  unfold deliveries.
  induction (filter (λ t, t ∈ subs) topics) as [|t ts IH]; [done|].
  by rewrite bind_cons, emitted_app, IH.
Qed.

Lemma emitted_for_deliveries (h : Host) (id : MsgId) (subs topics : list Topic)
  (m : Message) :
  emitted_for h id (deliveries subs topics [m])
  = if decide (id_of h m = id)
    then (λ t, (t, m)) <$> filter (λ t, t ∈ subs) topics
    else [].
Proof.
  unfold emitted_for. rewrite emitted_deliveries.
  induction (filter (λ t, t ∈ subs) topics) as [|t ts IH];
    [by destruct (decide _)|].
  rewrite fmap_cons. destruct (decide (id_of h m = id)) as [Heq|Hne].
  - rewrite filter_cons_True by done. by rewrite IH.
  - rewrite filter_cons_False by done. by rewrite IH.
Qed.

(** ** Steps inside the window *)

Lemma one_run_nil (h : Host) (id : MsgId) : one_run h id [].
Proof.
  exists (demo_message 0 []). apply sublist_nil_l.
Qed.

Lemma good_step_refl (h : Host) (T0 : Z) (id : MsgId) (s : Multicast.t) :
  good_step h T0 id s s [].
Proof. repeat split; [done | apply one_run_nil | done]. Qed.

Lemma good_step_silent (h : Host) (T0 : Z) (id : MsgId) (s s' : Multicast.t)
  (tr : list Event) :
  Multicast.cache s' = Multicast.cache s → emitted tr = [] →
  good_step h T0 id s s' tr.
Proof.
  intros Hc He. unfold good_step, one_run, emitted_for. rewrite Hc, He.
  repeat split; [done | | done].
  exists (demo_message 0 []). apply sublist_nil_l.
Qed.

Lemma good_step_trans (h : Host) (T0 : Z) (id : MsgId)
  (s s1 s2 : Multicast.t) (t1 t2 : list Event) :
  good_step h T0 id s s1 t1 → good_step h T0 id s1 s2 t2 →
  good_step h T0 id s s2 (t1 ++ t2).
Proof.
  intros (Hv1 & Hl1 & Hr1 & He1) (Hv2 & Hl2 & Hr2 & He2).
  unfold good_step. rewrite emitted_for_app. repeat split.
  - congruence.
  - by apply Hl2, Hl1.
  - destruct (Hl1 H) as [Hlive ->]. by destruct (Hl2 Hlive) as [_ ->].
  - destruct (decide (emitted_for h id t1 = [])) as [E1|E1].
    + unfold one_run. rewrite emitted_for_app, E1. exact Hr2.
    + destruct (Hl2 (He1 E1)) as [_ E2].
      unfold one_run. rewrite emitted_for_app, E2, app_nil_r. exact Hr1.
  - intros Hne. destruct (decide (emitted_for h id t1 = [])) as [E1|E1].
    + apply He2. by rewrite E1 in Hne.
    + by apply Hl2, He1.
Qed.

Lemma process_good_step (h : Host) (form : Form) (T0 now : Z) (id : MsgId)
  (m : Message) (s : Multicast.t) :
  T0 ≤ now < T0 + TimeCache.validityMs (Multicast.cache s) →
  let r := Multicast.process h form now m s in
  good_step h T0 id s (final r) (trace r).
Proof.
  intros [Hlo Hhi]. cbv zeta. rewrite process_run.
  destruct (TimeCache.has _ _ _) eqn:Hhas; [apply good_step_refl|].
  cbv zeta.
  set (s1 := Multicast.set_cache _ s).
  assert (∀ tr rest,
            deliveries (Multicast.subscriptions s) (topicIDs m) [m]
            = tr ++ rest →
            good_step h T0 id s s1 (CachePut (id_of h m) :: tr)) as Hfirst.
  { intros tr rest Hpre.
    pose proof (emitted_for_deliveries h id (Multicast.subscriptions s)
                  (topicIDs m) m) as Hem.
    rewrite Hpre, emitted_for_app in Hem.
    unfold good_step, one_run.
    change (CachePut (id_of h m) :: tr) with ([CachePut (id_of h m)] ++ tr).
    rewrite emitted_for_app.
    change (emitted_for h id [CachePut (id_of h m)]) with
      (@nil (Topic * Message)). cbn [app].
    split; [done|]. split; [|split].
    - intros Hlive. split; [by apply put_live|].
      destruct (decide (id_of h m = id)) as [<-|].
      + by rewrite (has_live T0 now _ _ Hlive Hhi) in Hhas.
      + by apply app_eq_nil in Hem as [-> _].
    - exists m. etrans; [apply (sublist_inserts_r (emitted_for h id rest));
                         reflexivity|].
      rewrite Hem. destruct (decide _); [|apply sublist_nil_l].
      apply fmap_sublist, sublist_filter.
    - intros Hne. destruct (decide (id_of h m = id)) as [<-|].
      + by apply put_live_self.
      + apply app_eq_nil in Hem as [E _]. by rewrite E in Hne. }
  destruct (emitMessages_frame h (topicIDs m) [m] s1)
    as (_ & [rest Hpre] & _).
  cbn [Multicast.subscriptions Multicast.set_cache] in Hpre.
  fold s1 in Hpre.
  specialize (Hfirst _ _ Hpre).
  destruct (outcome (Multicast._emitMessages h (topicIDs m) [m] s1))
    as [[]|err]; [|exact Hfirst].
  case_bool_decide.
  - cbn [final trace fst snd].
    change (CachePut (id_of h m) :: ?a ++ ?b)
      with ((CachePut (id_of h m) :: a) ++ b).
    eapply good_step_trans; [exact Hfirst|].
    by apply good_step_silent.
  - cbn [final trace fst snd].
    change (CachePut (id_of h m) :: ?a ++ ?b)
      with ((CachePut (id_of h m) :: a) ++ b).
    eapply good_step_trans; [exact Hfirst|].
    destruct (forward_frame h form (topicIDs m)
                [if bool_decide (0 < hops m)
                 then Multicast.set_hops (hops m - 1) m else m] s1)
      as [[ps Hps] Hem].
    apply good_step_silent; [by rewrite Hps | done].
Qed.

Lemma good_step_bind {A B} (h : Host) (T0 : Z) (id : MsgId)
  (m : M Multicast.t A) (k : A → M Multicast.t B) (s : Multicast.t) :
  good_step h T0 id s (final (m s)) (trace (m s)) →
  (∀ a, outcome (m s) = Return a →
        good_step h T0 id (final (m s)) (final (k a (final (m s))))
          (trace (k a (final (m s))))) →
  good_step h T0 id s (final ((m ≫= k) s)) (trace ((m ≫= k) s)).
Proof.
  intros Hm Hk. rewrite run_bind.
  destruct (m s) as [[[a|e] s1] t1]; cbn in *; [|done].
  specialize (Hk a eq_refl). destruct (k a s1) as [[o s2] t2]. cbn in *.
  by eapply good_step_trans.
Qed.

Lemma processRpcMessages_good_step (h : Host) (form : Form) (T0 now : Z)
  (id : MsgId) (msgs : list Message) (s : Multicast.t) :
  T0 ≤ now < T0 + TimeCache.validityMs (Multicast.cache s) →
  let r := Multicast._processRpcMessages h form now msgs s in
  good_step h T0 id s (final r) (trace r).
Proof.
  cbv zeta. unfold Multicast._processRpcMessages.
  revert s. induction msgs as [|m msgs IH]; intros s Hwin;
    [apply good_step_refl|].
  cbn [forEach]. apply good_step_bind; [by apply process_good_step|].
  intros _ _. apply IH.
  destruct (process_good_step h form T0 now id m s Hwin) as [-> _]. done.
Qed.

Lemma updateSubscriptions_run (changes : list rpc.SubOpts) (p : Peer.t) :
  ∃ p', Peer.updateSubscriptions changes p = (Return tt, p', []).
Proof.
  unfold Peer.updateSubscriptions. revert p.
  induction changes as [|c cs IH]; intros p; [by eexists|].
  cbn [forEach]. rewrite run_bind. cbn [modify].
  destruct (IH (if rpc.subscribe c
                then Peer.set_topics
                       (Peer.set_add (rpc.topicCID c) (Peer.topics p)) p
                else Peer.set_topics
                       (Peer.set_delete (rpc.topicCID c) (Peer.topics p)) p))
    as [p' ->].
  by eexists.
Qed.

Lemma peers_get_updateSubscriptions (id : PeerId)
  (changes : list rpc.SubOpts) (s : Multicast.t) :
  ∃ ps, Multicast.peers_get id (Peer.updateSubscriptions changes) s
        = (Return tt, Multicast.set_peers ps s, []).
Proof.
  unfold Multicast.peers_get.
  assert (∃ ps, Multicast.on_peer id (Peer.updateSubscriptions changes)
                  (Multicast.peers s) = (Return tt, ps, [])) as [ps ->];
    [|by eexists].
  induction (Multicast.peers s) as [|p rest IH]; cbn; [by eexists|].
  case_bool_decide.
  - destruct (updateSubscriptions_run changes p) as [p' ->]. by eexists.
  - destruct IH as [ps ->]. by eexists.
Qed.

Lemma onRpc_good_step (h : Host) (form : Form) (T0 now : Z) (id : MsgId)
  (sender : PeerId) (rpc : option rpc.RPC) (s : Multicast.t) :
  T0 ≤ now < T0 + TimeCache.validityMs (Multicast.cache s) →
  let r := Multicast._onRpc h form now sender rpc s in
  good_step h T0 id s (final r) (trace r).
Proof.
  intros Hwin. cbv zeta. unfold Multicast._onRpc.
  destruct rpc as [rpc|]; [|apply good_step_refl].
  apply good_step_bind; [by apply good_step_silent|]. intros _ _.
  cbn [tell final fst snd].
  apply good_step_bind.
  - destruct (rpc.msgs rpc) as [[|w ws]|]; try apply good_step_refl.
    by apply processRpcMessages_good_step.
  - intros _ _.
    destruct (rpc.subscriptions rpc) as [[|c cs]|]; try apply good_step_refl.
    destruct (peers_get_updateSubscriptions sender (c :: cs)
                (final (match rpc.msgs rpc with
                        | Some ((_ :: _) as msgs) =>
                            Multicast._processRpcMessages h form now
                              (utils.normalizeInRpcMessages h msgs)
                        | _ => ret tt
                        end s))) as [ps ->].
    by apply good_step_silent.
Qed.

Lemma deliver_good_step (h : Host) (form : Form) (T0 : Z) (id : MsgId)
  (ds : list Delivery) (s : Multicast.t) :
  (∀ d, d ∈ ds →
        T0 ≤ at_time d < T0 + TimeCache.validityMs (Multicast.cache s)) →
  good_step h T0 id s (deliver h form ds s).1 (deliver h form ds s).2.
Proof.
  revert s. induction ds as [|d ds IH]; intros s Hwin;
    [apply good_step_refl|].
  cbn [deliver].
  pose proof (onRpc_good_step h form T0 (at_time d) id (sender d) (payload d)
                s (Hwin d ltac:(by left))) as Hd.
  cbv zeta in Hd.
  destruct (Multicast._onRpc h form (at_time d) (sender d) (payload d) s)
    as [[o s1] t1]. cbn [final trace fst snd] in Hd.
  specialize (IH s1). destruct (deliver h form ds s1) as [s2 t2].
  cbn [fst snd] in *. eapply good_step_trans; [exact Hd|].
  apply IH. intros d' Hd'. destruct Hd as [-> _]. apply Hwin. by right.
Qed.

(** C1. A received message whose identifier is cached is dropped: the
    loop body does nothing at all.  A received message whose identifier is
    not cached has the identifier inserted first, before anything is
    emitted, and the identifier then stays cached for the validity window.
    Hence, over any run of inbound records that lies within one validity
    window, whichever peers they come from, the local deliveries for one
    identifier all stem from a single run of the local emit. *)
Theorem receive_at_most_once (h : Host) (form : Form) :
  (∀ now m s,
     TimeCache.has (Multicast.cache s) now (id_of h m) = true →
     Multicast.process h form now m s = (Return tt, s, []))
  ∧ (∀ now m s,
       TimeCache.has (Multicast.cache s) now (id_of h m) = false →
       ∃ o s' rest,
         Multicast.process h form now m s
         = (o, s', CachePut (id_of h m) :: rest)
         ∧ ∀ now', now' < now + TimeCache.validityMs (Multicast.cache s) →
                   TimeCache.has (Multicast.cache s') now' (id_of h m) = true)
  ∧ (∀ T0 ds s id,
       (∀ d, d ∈ ds →
             T0 ≤ at_time d
             < T0 + TimeCache.validityMs (Multicast.cache s)) →
       one_run h id (deliver h form ds s).2).
Proof.
  split; [|split].
  - intros now m s Hhas. by rewrite process_run, Hhas.
  - intros now m s Hhas. rewrite process_run, Hhas. cbv zeta.
    set (s1 := Multicast.set_cache _ s).
    destruct (outcome (Multicast._emitMessages h (topicIDs m) [m] s1))
      as [[]|err].
    2:{ eexists _, _, _. split; [done|]. intros now' Hnow'.
        by apply put_has. }
    case_bool_decide.
    + eexists _, _, _. split; [done|]. intros now' Hnow'. by apply put_has.
    + destruct (forward_frame h form (topicIDs m)
                  [if bool_decide (0 < hops m)
                   then Multicast.set_hops (hops m - 1) m else m] s1)
        as [[ps Hps] _].
      eexists _, _, _. split; [done|]. intros now' Hnow'.
      cbn [final fst snd] in Hps |- *. rewrite Hps. by apply put_has.
  - intros T0 ds s id Hwin.
    by destruct (deliver_good_step h form T0 id ds s Hwin) as (_ & _ & ? & _).
Qed.

Lemma receive_at_most_once_witness :
  let s := demo_engine [] ["a"] ∅ in
  let w := on_wire demo_host (demo_message 0 ["a"]) in
  let record := Some {| rpc.subscriptions := None; rpc.msgs := Some [w] |} in
  let ds := [ {| at_time := 5; sender := "QmA"; payload := record |};
              {| at_time := 9; sender := "QmB"; payload := record |} ] in
  one_run demo_host "QmOthers1" (deliver demo_host SyncForm ds s).2.
Proof.
  intros s w record ds.
  destruct (receive_at_most_once demo_host SyncForm) as (_ & _ & H).
  apply (H 0). intros d Hd.
  apply elem_of_cons in Hd as [->|Hd];
    [|apply list_elem_of_singleton in Hd as ->]; cbn; lia.
Defined.

(** The same message from two peers, four time units apart: one local
    delivery. *)
Example delivered_once :
  let s := demo_engine [] ["a"] ∅ in
  let w := on_wire demo_host (demo_message 0 ["a"]) in
  let record := Some {| rpc.subscriptions := None; rpc.msgs := Some [w] |} in
  let ds := [ {| at_time := 5; sender := "QmA"; payload := record |};
              {| at_time := 9; sender := "QmB"; payload := record |} ] in
  emitted (deliver demo_host SyncForm ds s).2 = [("a", demo_message 0 ["a"])].
Proof. by vm_compute. Qed.

(** ** Publishing *)

Lemma buildMessages_run (h : Host) (now : Z) (from : PeerId)
  (topics : list Topic) (hops : Z) (payloads : list Buffer)
  (s : Multicast.t) :
  ∃ s',
    Array_map payloads (Multicast.buildMessage h now from topics hops) s
    = (Return (built h from topics hops (Multicast.entropy s) payloads), s',
       CachePut
         <$> drawn_ids h from (Multicast.entropy s) (length payloads))
    ∧ Multicast.subscriptions s' = Multicast.subscriptions s
    ∧ TimeCache.validityMs (Multicast.cache s')
      = TimeCache.validityMs (Multicast.cache s)
    ∧ (0 < TimeCache.validityMs (Multicast.cache s) →
       (∀ id, live_since now (Multicast.cache s) id →
              live_since now (Multicast.cache s') id)
       ∧ (∀ id,
            id ∈ drawn_ids h from (Multicast.entropy s) (length payloads) →
            live_since now (Multicast.cache s') id)).
Proof.
  revert s. induction payloads as [|msg rest IH]; intros s.
  - exists s. cbn. repeat split; try done. intros id Hid. by inversion Hid.
  - cbn [Array_map]. rewrite run_bind.
    unfold Multicast.buildMessage at 1. rewrite run_get, run_bind.
    cbn [put]. rewrite run_bind, cache_put_run. cbn [ret app].
    set (s1 := Multicast.set_cache _ _).
    destruct (IH s1) as (s' & Hrun & Hsub & Hval & Hlive).
    rewrite run_bind, Hrun. cbn [ret app].
    exists s'. split; [by rewrite app_nil_r|]. split; [done|]. split; [done|].
    intros Hpos. destruct (Hlive Hpos) as [Hkeep Hnew]. split.
    + intros id Hid. apply Hkeep.
      apply (put_live now now (Multicast.cache s)); [lia | lia | done].
    + intros id [->|Hid]%elem_of_cons; [|by apply Hnew].
      apply Hkeep. by apply (put_live_self now now (Multicast.cache s)).
Qed.

Lemma emitMessages_sent (h : Host) (topics : list Topic)
  (messages : list Message) (s : Multicast.t) (to : PeerId) :
  sent to (trace (Multicast._emitMessages h topics messages s)) = [].
Proof.
  destruct (emitMessages_frame h topics messages s) as (_ & [rest E] & _).
  pose proof (sent_deliveries to (Multicast.subscriptions s) topics messages)
    as Hs.
  rewrite E, sent_app in Hs. by apply app_eq_nil in Hs as [-> _].
Qed.

(** [publish] on a started engine, step by step. *)
Lemma publish_steps (h : Host) (form : Form) (now : Z)
  (topics : utils.OneOrMany Topic) (messages : utils.OneOrMany Buffer)
  (hops : Z) (s s' : Multicast.t) :
  Multicast.started s = true →
  let ts := utils.ensureArray topics in
  let payloads := utils.ensureArray messages in
  let msgs := built h (Multicast.localId s) ts hops (Multicast.entropy s)
                payloads in
  let ids := drawn_ids h (Multicast.localId s) (Multicast.entropy s)
               (length payloads) in
  Array_map payloads (Multicast.buildMessage h now (Multicast.localId s) ts
                        hops) s
  = (Return msgs, s', CachePut <$> ids) →
  Multicast.publish h form now topics messages hops s
  = (let e := Multicast._emitMessages h ts msgs s' in
     match outcome e with
     | Throw err =>
         (Throw err, s', Log LogPublish :: (CachePut <$> ids) ++ trace e)
     | Return _ =>
         let f := Multicast._forwardMessages h form ts msgs s' in
         (outcome f, final f,
          Log LogPublish :: (CachePut <$> ids) ++ trace e ++ trace f)
     end).
Proof.
  intros Hst ts payloads msgs ids Hrun.
  unfold Multicast.publish. rewrite run_get, Hst.
  cbn [Multicast.assert]. rewrite run_bind. cbn [ret].
  rewrite run_bind. cbn [tell]. fold ts payloads.
  rewrite run_bind, Hrun, run_bind. cbv zeta.
  destruct (emitMessages_frame h ts msgs s') as (Hfin & _).
  destruct (Multicast._emitMessages h ts msgs s') as [[[[]|err] s2] t2];
    cbn [outcome final trace fst snd] in Hfin |- *; subst s2; [|done].
  by destruct (Multicast._forwardMessages h form ts msgs s')
    as [[o s3] t3].
Qed.

Lemma publish_run (h : Host) (form : Form) (now : Z)
  (topics : utils.OneOrMany Topic) (messages : utils.OneOrMany Buffer)
  (hops : Z) (s : Multicast.t) :
  Multicast.started s = true →
  let ts := utils.ensureArray topics in
  let payloads := utils.ensureArray messages in
  let msgs := built h (Multicast.localId s) ts hops (Multicast.entropy s)
                payloads in
  let ids := drawn_ids h (Multicast.localId s) (Multicast.entropy s)
               (length payloads) in
  ∃ s',
    Multicast.publish h form now topics messages hops s
    = (let e := Multicast._emitMessages h ts msgs s' in
       match outcome e with
       | Throw err =>
           (Throw err, s', Log LogPublish :: (CachePut <$> ids) ++ trace e)
       | Return _ =>
           let f := Multicast._forwardMessages h form ts msgs s' in
           (outcome f, final f,
            Log LogPublish :: (CachePut <$> ids) ++ trace e ++ trace f)
       end)
    ∧ TimeCache.validityMs (Multicast.cache s')
      = TimeCache.validityMs (Multicast.cache s)
    ∧ (0 < TimeCache.validityMs (Multicast.cache s) →
       ∀ id, id ∈ ids → live_since now (Multicast.cache s') id).
Proof.
  intros Hst ts payloads msgs ids.
  destruct (buildMessages_run h now (Multicast.localId s) ts hops payloads s)
    as (s' & Hrun & Hsub & Hval & Hlive).
  exists s'. split; [|split; [done|]].
  - by apply publish_steps.
  - intros Hpos id Hid. by apply Hlive.
Qed.

Lemma built_ids (h : Host) (me : PeerId) (topics : list Topic) (hops : Z)
  (e : nat) (payloads : list Buffer) (m : Message) :
  m ∈ built h me topics hops e payloads →
  ∃ sq, from m = me ∧ seqno m = Buffer_from h sq
        ∧ utils.msgId me sq ∈ drawn_ids h me e (length payloads).
Proof.
  revert e. induction payloads as [|msg rest IH]; intros e Hm;
    [by inversion Hm|].
  cbn [built] in Hm. apply elem_of_cons in Hm as [->|Hm].
  - exists (randomSeqno h e). repeat split. by left.
  - destruct (IH _ Hm) as (sq & ? & ? & ?). exists sq. repeat split; try done.
    by right.
Qed.

Lemma sent_puts (to : PeerId) (ids : list MsgId) :
  sent to (CachePut <$> ids) = [].
Proof. induction ids as [|id ids IH]; [done | exact IH]. Qed.

(** C5. A publish on a started engine inserts the identifier of every
    message it builds into the cache before it emits or forwards anything.
    Over any run of inbound records that lies within the validity window
    that starts at the publish, a message with one of those identifiers is
    never delivered locally.  And when the text of a buffer made from a text
    is that text, and the Base58 text of the decoded local identity is the
    local identity, every message that the publish sends out comes back
    with one of those identifiers. *)
Theorem publish_suppresses_echo (h : Host) (form : Form) (now : Z)
  (topics : utils.OneOrMany Topic) (messages : utils.OneOrMany Buffer)
  (hops : Z) (s : Multicast.t) :
  Multicast.started s = true →
  let r := Multicast.publish h form now topics messages hops s in
  let ids := drawn_ids h (Multicast.localId s) (Multicast.entropy s)
               (length (utils.ensureArray messages)) in
  (∃ rest, trace r = Log LogPublish :: (CachePut <$> ids) ++ rest)
  ∧ (∀ ds id,
       id ∈ ids →
       (∀ d, d ∈ ds →
             now ≤ at_time d
             < now + TimeCache.validityMs (Multicast.cache s)) →
       emitted_for h id (deliver h form ds (final r)).2 = [])
  ∧ ((∀ sq, Buffer_toString h (Buffer_from h sq) = sq) →
     bs58_encode h (bs58_decode h (Multicast.localId s))
     = Multicast.localId s →
     ∀ to w, w ∈ sent to (trace r) →
       utils.msgId (bs58_encode h (rpc.from w))
         (Buffer_toString h (rpc.seqno w)) ∈ ids).
Proof.
  intros Hst r ids.
  destruct (publish_run h form now topics messages hops s Hst)
    as (s' & Hr & Hval & Hlive).
  cbv zeta in Hr. fold ids in Hr, Hlive.
  assert (r = Multicast.publish h form now topics messages hops s) as Er
    by done.
  rewrite Hr in Er. clear Hr. clearbody r.
  set (ts := utils.ensureArray topics) in *.
  set (msgs := built h (Multicast.localId s) ts hops (Multicast.entropy s)
                 (utils.ensureArray messages)) in *.
  destruct (forward_frame h form ts msgs s') as [[ps Hps] _].
  assert (Multicast.cache (final r) = Multicast.cache s') as Hcache.
  { rewrite Er.
    destruct (outcome (Multicast._emitMessages h ts msgs s')) as [[]|err];
      cbn [final fst snd]; [by rewrite Hps | done]. }
  split; [|split].
  - rewrite Er.
    destruct (outcome (Multicast._emitMessages h ts msgs s')) as [[]|err];
      cbn [trace snd]; by eexists.
  - intros ds id Hid Hwin.
    destruct ds as [|d0 ds]; [done|].
    assert (0 < TimeCache.validityMs (Multicast.cache s)) as Hpos.
    { specialize (Hwin d0 ltac:(by left)). lia. }
    destruct (deliver_good_step h form now id (d0 :: ds) (final r))
      as (_ & Hkeep & _).
    + intros d Hd. rewrite Hcache, Hval. by apply Hwin.
    + apply Hkeep. rewrite Hcache. by apply Hlive.
  - intros Hbuf Hb58 to w Hw.
    assert (w ∈ sent to (trace (Multicast._forwardMessages h form ts msgs s')))
      as Hw'.
    { rewrite Er in Hw.
      destruct (outcome (Multicast._emitMessages h ts msgs s')) as [[]|err];
        cbn [trace snd] in Hw;
        rewrite sent_log, !sent_app, sent_puts, emitMessages_sent in Hw;
        cbn [app] in Hw; [done | by apply elem_of_nil in Hw]. }
    clear Hw. rename Hw' into Hw. apply forward_sent_subset in Hw.
    rewrite normalizeOut_on_wire in Hw.
    apply list_elem_of_fmap in Hw as (m & -> & Hm).
    destruct (built_ids _ _ _ _ _ _ _ Hm) as (sq & Hfrom & Hseq & Hin).
    cbn [on_wire rpc.from rpc.seqno]. by rewrite Hfrom, Hseq, Hb58, Hbuf.
Qed.

Lemma publish_suppresses_echo_witness :
  let s := demo_engine [demo_peer "QmA" ["a"]] ["a"] ∅ in
  let r := Multicast.publish demo_host AsyncForm 100 (utils.One "a")
             (utils.One []) 3 s in
  let echo := {| rpc.from := String.list_byte_of_string "QmSelf";
                 rpc.data := [];
                 rpc.seqno := String.list_byte_of_string ".";
                 rpc.hops := 2; rpc.topicIDs := ["a"] |} in
  let ds := [ {| at_time := 250; sender := "QmA";
                 payload := Some {| rpc.subscriptions := None;
                                    rpc.msgs := Some [echo] |} |} ] in
  emitted_for demo_host "QmSelf." (deliver demo_host AsyncForm ds (final r)).2
  = [].
Proof.
  intros s r echo ds.
  destruct (publish_suppresses_echo demo_host AsyncForm 100 (utils.One "a")
              (utils.One []) 3 s) as (_ & H & _); [reflexivity|].
  apply H.
  - by apply (bool_decide_unpack _).
  - intros d Hd. apply list_elem_of_singleton in Hd as ->. cbn. lia.
Defined.

(** A publish followed by its echo from a peer: the only local delivery
    is the one made by the publish itself. *)
Example echo_not_delivered :
  let s := demo_engine [demo_peer "QmA" ["a"]] ["a"] ∅ in
  let r := Multicast.publish demo_host AsyncForm 100 (utils.One "a")
             (utils.One []) 3 s in
  let echo := {| rpc.from := String.list_byte_of_string "QmSelf";
                 rpc.data := [];
                 rpc.seqno := String.list_byte_of_string ".";
                 rpc.hops := 2; rpc.topicIDs := ["a"] |} in
  let ds := [ {| at_time := 250; sender := "QmA";
                 payload := Some {| rpc.subscriptions := None;
                                    rpc.msgs := Some [echo] |} |} ] in
  length (emitted (trace r)) = 1%nat
  ∧ sent "QmA" (trace r)
    = [{| rpc.from := String.list_byte_of_string "QmSelf"; rpc.data := [];
          rpc.seqno := String.list_byte_of_string ".";
          rpc.hops := 3; rpc.topicIDs := ["a"] |}]
  ∧ (deliver demo_host AsyncForm ds (final r)).2 = [Log (LogRpcFrom "QmA")].
Proof. by vm_compute. Qed.

(** A publish on an engine that is not started fails its assertion before
    anything is cached, emitted or sent. *)
Example publish_not_started :
  let s := Multicast.set_started false [] (demo_engine [] ["a"] ∅) in
  Multicast.publish demo_host SyncForm 100 (utils.One "a") (utils.One []) 3 s
  = (Throw (AssertionError "Multicast is not started"), s, []).
Proof. reflexivity. Qed.

(** * More of the code *)

(** ** Sets kept in insertion order *)

Lemma run_modify {S B} (g : S → S) (k : M S B) (s : S) :
  (modify g ;; k) s = k (g s).
Proof. rewrite run_bind. cbn. by destruct (k (g s)) as [[o s2] t2]. Qed.

Lemma elem_of_set_add `{EqDecision A} (x y : A) (s : list A) :
  y ∈ Peer.set_add x s ↔ y = x ∨ y ∈ s.
Proof.
  unfold Peer.set_add. case_bool_decide as Hx.
  - split; [by right | by intros [->|?]].
  - rewrite elem_of_app, list_elem_of_singleton. tauto.
Qed.

Lemma elem_of_set_delete `{EqDecision A} (x y : A) (s : list A) :
  y ∈ Peer.set_delete x s ↔ y ≠ x ∧ y ∈ s.
Proof. unfold Peer.set_delete. by rewrite list_elem_of_filter. Qed.

Lemma NoDup_set_add `{EqDecision A} (x : A) (s : list A) :
  NoDup s → NoDup (Peer.set_add x s).
Proof.
  intros H. unfold Peer.set_add. case_bool_decide; [done|].
  apply NoDup_app. split; [done|]. split; [|apply NoDup_singleton].
  intros y Hy ->%list_elem_of_singleton. done.
Qed.

Lemma NoDup_set_delete `{EqDecision A} (x : A) (s : list A) :
  NoDup s → NoDup (Peer.set_delete x s).
Proof. apply NoDup_filter. Qed.

Lemma filter_all {A} (P : A → Prop) `{∀ x, Decision (P x)} (l : list A) :
  (∀ x, x ∈ l → P x) → filter P l = l.
Proof.
  induction l as [|a l IH]; intros Hl; [done|].
  rewrite filter_cons_True; [|apply Hl; left].
  f_equal. apply IH. intros x Hx. apply Hl. by right.
Qed.

Lemma filter_none {A} (P : A → Prop) `{∀ x, Decision (P x)} (l : list A) :
  (∀ x, x ∈ l → ¬ P x) → filter P l = [].
Proof.
  induction l as [|a l IH]; intros Hl; [done|].
  rewrite filter_cons_False; [|apply Hl; left].
  apply IH. intros x Hx. apply Hl. by right.
Qed.

Lemma set_delete_set_add `{EqDecision A} (x : A) (s : list A) :
  x ∉ s → Peer.set_delete x (Peer.set_add x s) = s.
Proof.
  intros Hx. unfold Peer.set_add, Peer.set_delete.
  rewrite bool_decide_eq_false_2 by done.
  rewrite filter_app, filter_cons_False, filter_nil, app_nil_r by naive_solver.
  apply filter_all. intros y Hy ->. done.
Qed.

Lemma set_add_set_add `{EqDecision A} (x : A) (s : list A) :
  Peer.set_add x (Peer.set_add x s) = Peer.set_add x s.
Proof.
  unfold Peer.set_add at 1. rewrite bool_decide_eq_true_2; [done|].
  apply elem_of_set_add. by left.
Qed.

(** ** The topics of a record *)

Lemma updateSubscriptions_cons (c : rpc.SubOpts) (cs : list rpc.SubOpts)
  (p : Peer.t) :
  Peer.updateSubscriptions (c :: cs) p =
    Peer.updateSubscriptions cs
      (if rpc.subscribe c
       then Peer.set_topics (Peer.set_add (rpc.topicCID c) (Peer.topics p)) p
       else Peer.set_topics
              (Peer.set_delete (rpc.topicCID c) (Peer.topics p)) p).
Proof. unfold Peer.updateSubscriptions. cbn [forEach]. by rewrite run_modify. Qed.

(** X1. After [updateSubscriptions] a topic is among the topics of the
    record exactly when the last delta that names it subscribes or, no
    delta naming it, when it was among them before: the deltas apply in
    order and the last one wins. *)
Theorem updateSubscriptions_last_delta_wins (changes : list rpc.SubOpts)
  (p : Peer.t) (t : Topic) :
  t ∈ Peer.topics (final (Peer.updateSubscriptions changes p))
  ↔ match last_delta t changes with
    | Some b => b = true
    | None => t ∈ Peer.topics p
    end.
Proof.
  revert p. induction changes as [|c cs IH]; intros p; [done|].
  rewrite updateSubscriptions_cons, IH. cbn [last_delta].
  destruct (last_delta t cs) as [b|]; [done|].
  destruct (rpc.subscribe c); cbn [Peer.topics Peer.set_topics].
  - rewrite elem_of_set_add. case_bool_decide as Hc.
    + split; [done | by left].
    + split; [by intros [->|?] | by right].
  - rewrite elem_of_set_delete. case_bool_decide as Hc.
    + split; [by intros [? _] | done].
    + split; [by intros [_ ?] | by split; [intros -> |]].
Qed.

(** X2. [updateSubscriptions] never throws and is silent; it touches
    nothing but the topics of the record, and these stay free of
    duplicates. *)
Theorem updateSubscriptions_keeps_set (changes : list rpc.SubOpts)
  (p : Peer.t) :
  NoDup (Peer.topics p) →
  let r := Peer.updateSubscriptions changes p in
  outcome r = Return tt ∧ trace r = []
  ∧ final r = Peer.set_topics (Peer.topics (final r)) p
  ∧ NoDup (Peer.topics (final r)).
Proof.
  revert p. induction changes as [|c cs IH]; intros p Hp.
  - repeat split; [by destruct p | done].
  - cbn zeta. rewrite updateSubscriptions_cons.
    set (p1 := if rpc.subscribe c then _ else _).
    assert (NoDup (Peer.topics p1) ∧ ∀ ts, Peer.set_topics ts p1
                                         = Peer.set_topics ts p) as [H1 H2].
    { subst p1. destruct (rpc.subscribe c); cbn; split; try done.
      - by apply NoDup_set_add.
      - by apply NoDup_set_delete. }
    destruct (IH p1 H1) as (Ho & Ht & Hf & Hn). rewrite H2 in Hf. done.
Qed.

Lemma updateSubscriptions_keeps_set_witness :
  final (Peer.updateSubscriptions
           [ {| rpc.subscribe := true; rpc.topicCID := "a" |};
             {| rpc.subscribe := true; rpc.topicCID := "b" |};
             {| rpc.subscribe := false; rpc.topicCID := "a" |};
             {| rpc.subscribe := true; rpc.topicCID := "b" |} ]
           (demo_peer "QmA" ["c"]))
  = demo_peer "QmA" ["c"; "b"].
Proof.
  destruct (updateSubscriptions_keeps_set
              [ {| rpc.subscribe := true; rpc.topicCID := "a" |};
                {| rpc.subscribe := true; rpc.topicCID := "b" |};
                {| rpc.subscribe := false; rpc.topicCID := "a" |};
                {| rpc.subscribe := true; rpc.topicCID := "b" |} ]
              (demo_peer "QmA" ["c"])) as (_ & _ & H & _).
  - by apply (bool_decide_unpack _).
  - rewrite H. by vm_compute.
Defined.

(** ** The stream of a record *)

Lemma forEach_write {A} (g : A → rpc.RPC) (xs : list A) (p : Peer.t)
  (q : list rpc.RPC) :
  Peer.stream p = Some q →
  forEach xs (λ x, Peer.write (g x) None) p =
    (Return tt, Peer.set_stream (Some (q ++ (g <$> xs))) p,
     Push (Peer.info p) <$> (g <$> xs)).
Proof.
  revert p q. induction xs as [|x xs IH]; intros p q E.
  - cbn. rewrite app_nil_r, <- E. by rewrite set_stream_same.
  - cbn [forEach]. rewrite run_bind, (write_open p q) by done.
    rewrite (IH _ (q ++ [g x])) by done.
    rewrite set_stream_set_stream. cbn [fmap list_fmap].
    by rewrite <- app_assoc.
Qed.

Lemma forEach_write_closed {A} (g : A → rpc.RPC) (xs : list A) (p : Peer.t) :
  Peer.stream p = None →
  forEach xs (λ x, Peer.write (g x) None) p = (Return tt, p, []).
Proof.
  intros E. induction xs as [|x xs IH]; [done|].
  cbn [forEach]. rewrite run_bind, write_closed by done. by rewrite IH.
Qed.

(** X3. Writes are first in, first out: a run of writes on a writable
    record appends its records to the stream in the order of the calls,
    behind what the stream held, and on a record without a stream the whole
    run is lost without a trace. *)
Theorem writes_are_fifo (msgs : list rpc.RPC) (p : Peer.t) :
  forEach msgs (λ msg, Peer.write msg None) p =
    match Peer.stream p with
    | Some q =>
        (Return tt, Peer.set_stream (Some (q ++ msgs)) p,
         Push (Peer.info p) <$> msgs)
    | None => (Return tt, p, [])
    end.
Proof.
  destruct (Peer.stream p) as [q|] eqn:E.
  - pose proof (forEach_write id msgs p q E) as H.
    rewrite list_fmap_id in H. exact H.
  - exact (forEach_write_closed id msgs p E).
Qed.

Lemma sendSubscriptions_array (ts : list Topic) :
  Peer.sendSubscriptions (Peer.JsArray ts)
  = Peer.write (announcement true ts) None.
Proof. reflexivity. Qed.

Lemma sendUnsubscriptions_array (ts : list Topic) :
  Peer.sendUnsubscriptions (Peer.JsArray ts)
  = Peer.write (announcement false ts) None.
Proof. reflexivity. Qed.

Lemma createStream_run (p : Peer.t) :
  Peer.createStream p =
    (Return tt,
     Peer.set_pending []
       (Peer.set_stream (Some (announcement true <$> Peer.pending p)) p),
     Push (Peer.info p) <$> (announcement true <$> Peer.pending p)).
Proof.
  unfold Peer.createStream. rewrite run_get, run_bind. cbn [put].
  rewrite (forEach_write (announcement true) (Peer.pending p) _ []) by done.
  reflexivity.
Qed.

(** X4. [createStream] makes the record writable and flushes what
    [subscribe] deferred: whatever the record was, the new stream holds
    exactly one subscription record for each deferred announcement, in the
    order in which they were deferred, and none is left pending. *)
Theorem createStream_flushes_pending (p : Peer.t) :
  let r := Peer.createStream p in
  outcome r = Return tt
  ∧ Peer.isWritable (final r) = true
  ∧ Peer.stream (final r) = Some (announcement true <$> Peer.pending p)
  ∧ Peer.pending (final r) = []
  ∧ pushed (Peer.info p) (trace r) = announcement true <$> Peer.pending p
  ∧ Peer.info (final r) = Peer.info p
  ∧ Peer.topics (final r) = Peer.topics p.
Proof.
  cbn zeta. rewrite createStream_run. cbn [outcome final trace fst snd].
  repeat split.
  induction (announcement true <$> Peer.pending p) as [|a l IH]; [done|].
  cbn. rewrite bool_decide_eq_true_2 by done. cbn. by f_equal.
Qed.

(** ** Announcements that wait for a stream *)

Lemma sendSubscriptionsOnceReady_run (ts : list Topic) (p : Peer.t) :
  Multicast.sendSubscriptionsOnceReady ts p =
    match Peer.stream p with
    | Some q =>
        (Return tt, Peer.set_stream (Some (q ++ [announcement true ts])) p,
         [Push (Peer.info p) (announcement true ts)])
    | None => (Return tt, Peer.set_pending (Peer.pending p ++ [ts]) p, [])
    end.
Proof.
  unfold Multicast.sendSubscriptionsOnceReady. rewrite run_get.
  destruct (Peer.stream p) as [q|] eqn:E.
  - assert (Peer.isWritable p = true) as -> by (apply isWritable_true; eauto).
    rewrite sendSubscriptions_array. by apply write_open.
  - assert (Peer.isWritable p = false) as -> by by apply isWritable_false.
    reflexivity.
Qed.

Lemma pushed_own (id : PeerId) (l : list rpc.RPC) :
  pushed id (Push id <$> l) = l.
Proof.
  induction l as [|a l IH]; [done|].
  cbn. rewrite bool_decide_eq_true_2 by done. cbn. by f_equal.
Qed.

(** X5. An announcement that [subscribe] could not send waits for the
    stream: on a record without a stream nothing is pushed, the next
    [createStream] pushes the announcement behind the ones that were already
    waiting, and an [onStreamEnd] in between cancels every one of them, so
    that the stream created afterwards starts empty. *)
Theorem deferred_announcement (ts : list Topic) (p : Peer.t) :
  Peer.isWritable p = false →
  let r := Multicast.sendSubscriptionsOnceReady ts p in
  outcome r = Return tt ∧ trace r = []
  ∧ Peer.isWritable (final r) = false
  ∧ pushed (Peer.info p) (trace (Peer.createStream (final r)))
    = (announcement true <$> Peer.pending p) ++ [announcement true ts]
  ∧ Peer.stream
      (final (Peer.createStream (final (Peer.onStreamEnd (final r)))))
    = Some [].
Proof.
  intros E%isWritable_false. cbn zeta.
  rewrite sendSubscriptionsOnceReady_run, E.
  cbn [outcome final trace fst snd]. rewrite !createStream_run.
  cbn [outcome final trace fst snd]. repeat split.
  - by apply isWritable_false.
  - cbn [Peer.info Peer.pending Peer.set_pending].
    by rewrite pushed_own, fmap_app.
Qed.

Lemma deferred_announcement_witness :
  let p := Peer.new "QmA" in
  let r := Multicast.sendSubscriptionsOnceReady ["a"; "b"] p in
  pushed "QmA" (trace (Peer.createStream (final r)))
  = [announcement true ["a"; "b"]].
Proof.
  intros p r.
  destruct (deferred_announcement ["a"; "b"] p) as (_ & _ & _ & H & _);
    [reflexivity | exact H].
Defined.

(** ** The registry of validators *)

Lemma addFrwdHook_run (topic : Topic) (hook : Hook) (s : Multicast.t) :
  Multicast.addFrwdHook topic hook s =
    (Return tt,
     Multicast.set_fwrdHooks
       (<[topic := Peer.set_add hook
                     (default [] (Multicast.fwrdHooks s !! topic))]>
          (Multicast.fwrdHooks s)) s, []).
Proof. reflexivity. Qed.

Lemma removeFrwdHook_run (topic : Topic) (hook : Hook) (s : Multicast.t) :
  Multicast.removeFrwdHook topic hook s =
    (Return tt,
     match Multicast.fwrdHooks s !! topic with
     | Some validators =>
         Multicast.set_fwrdHooks
           (<[topic := Peer.set_delete hook validators]>
              (Multicast.fwrdHooks s)) s
     | None => s
     end, []).
Proof. reflexivity. Qed.

Lemma set_fwrdHooks_same (s : Multicast.t) :
  Multicast.set_fwrdHooks (Multicast.fwrdHooks s) s = s.
Proof. by destruct s. Qed.

(** X6. The validators of a topic form a set: [addFrwdHook] (and
    [addFrwdValidator], its name in the other form) adds the hook to the
    entry of the topic and to nothing else, keeps the hooks that were there
    and keeps the entry free of duplicates, and adding the same hook again
    changes nothing. *)
Theorem addFrwdHook_idempotent (topic : Topic) (hook : Hook)
  (s : Multicast.t) :
  NoDup (default [] (Multicast.fwrdHooks s !! topic)) →
  let r := Multicast.addFrwdHook topic hook s in
  let entry x := default [] (Multicast.fwrdHooks x !! topic) in
  outcome r = Return tt ∧ trace r = []
  ∧ (∀ v, v ∈ entry (final r) ↔ v = hook ∨ v ∈ entry s)
  ∧ NoDup (entry (final r))
  ∧ (∀ t, t ≠ topic →
          Multicast.fwrdHooks (final r) !! t = Multicast.fwrdHooks s !! t)
  ∧ Multicast.addFrwdHook topic hook (final r) = (Return tt, final r, [])
  ∧ Multicast.addFrwdValidator topic hook s = r.
Proof.
  intros Hnd. cbn zeta. rewrite addFrwdHook_run.
  cbn [outcome final trace fst snd Multicast.fwrdHooks Multicast.set_fwrdHooks].
  rewrite lookup_insert_eq. cbn [default].
  split; [done|]. split; [done|]. split; [|split; [|split; [|split]]].
  - intros v. apply elem_of_set_add.
  - by apply NoDup_set_add.
  - intros t Ht. by rewrite lookup_insert_ne.
  - rewrite addFrwdHook_run.
    cbn [Multicast.fwrdHooks Multicast.set_fwrdHooks].
    rewrite lookup_insert_eq. cbn [from_option id].
    by rewrite set_add_set_add, insert_insert_eq.
  - reflexivity.
Qed.

Lemma addFrwdHook_idempotent_witness :
  let s := demo_engine [] [] {["a" := [3%nat]]} in
  let r := Multicast.addFrwdHook "a" 4%nat s in
  Multicast.addFrwdHook "a" 4%nat (final r) = (Return tt, final r, []).
Proof.
  intros s r.
  destruct (addFrwdHook_idempotent "a" 4%nat s) as (_ & _ & _ & _ & _ & H & _);
    [by apply (bool_decide_unpack _) | exact H].
Defined.

(** X7. [removeFrwdHook] undoes [addFrwdHook] up to the entry itself: for a
    hook that was not registered, adding and removing it gives back the
    engine as it was when the topic had an entry, and leaves the topic with
    an empty entry when it had none.  On a topic without an entry
    [removeFrwdHook] alone does nothing. *)
Theorem removeFrwdHook_after_addFrwdHook (topic : Topic) (hook : Hook)
  (s : Multicast.t) :
  hook ∉ default [] (Multicast.fwrdHooks s !! topic) →
  let added := final (Multicast.addFrwdHook topic hook s) in
  let r := Multicast.removeFrwdHook topic hook added in
  outcome r = Return tt ∧ trace r = []
  ∧ (is_Some (Multicast.fwrdHooks s !! topic) → final r = s)
  ∧ (Multicast.fwrdHooks s !! topic = None →
     Multicast.fwrdHooks (final r) !! topic = Some []
     ∧ Multicast.removeFrwdHook topic hook s = (Return tt, s, [])).
Proof.
  intros Hfresh. cbn zeta. rewrite addFrwdHook_run, removeFrwdHook_run.
  cbn [outcome final trace fst snd Multicast.fwrdHooks Multicast.set_fwrdHooks].
  rewrite lookup_insert_eq, set_delete_set_add, insert_insert_eq by done.
  split; [done|]. split; [done|]. split.
  - intros [vs E]. rewrite E. cbn [default].
    rewrite insert_id by done.
    by destruct s.
  - intros E. rewrite removeFrwdHook_run, E.
    cbn [from_option id Multicast.fwrdHooks Multicast.set_fwrdHooks].
    by rewrite lookup_insert_eq.
Qed.

Lemma removeFrwdHook_after_addFrwdHook_witness :
  let s := demo_engine [] [] ∅ in
  let added := final (Multicast.addFrwdHook "a" 4%nat s) in
  Multicast.fwrdHooks (final (Multicast.removeFrwdHook "a" 4%nat added)) !! "a"
  = Some [].
Proof.
  intros s added.
  destruct (removeFrwdHook_after_addFrwdHook "a" 4%nat s) as (_ & _ & _ & H).
  - apply not_elem_of_nil.
  - by destruct H.
Defined.

(** ** An entry without validators *)

Lemma filter_all_approved {A} (coll : list A) (f : A → VResult) :
  (∀ x, x ∈ coll → f x = VOk true) → async.filter coll f = inr coll.
Proof.
  induction coll as [|x coll IH]; intros H; [done|].
  cbn. rewrite (H x) by left. rewrite IH; [done|].
  intros y Hy. apply H. by right.
Qed.

Lemma narrow_empty_entry (h : Host) (registry : gmap Topic (list Hook))
  (t : Topic) (q : Peer.t) (ts : list Topic) (msgs : list Message) :
  registry !! t = Some [] →
  narrow h (delete t registry) q ts msgs = narrow h registry q ts msgs.
Proof.
  intros E. revert msgs. induction ts as [|t' ts IH]; intros msgs; [done|].
  cbn [narrow]. destruct (decide (t' = t)) as [->|Hne].
  - rewrite lookup_delete_eq, E. by rewrite filter_all_approved.
  - rewrite lookup_delete_ne by done.
    destruct (registry !! t') as [vs|]; [|done].
    by destruct (async.filter msgs _).
Qed.

Lemma each_peer_ext (f g : M Peer.t unit) (ps : list Peer.t) :
  (∀ p, f p = g p) → Multicast.each_peer f ps = Multicast.each_peer g ps.
Proof.
  intros H. induction ps as [|p ps IH]; [done|].
  cbn. by rewrite H, IH.
Qed.

(** X8. In the form of [src/index.js] an entry without validators is as
    good as no entry: forwarding with a topic whose entry is empty (what
    [removeFrwdHook] leaves behind) has the outcome, the effects and the
    resulting peer records of forwarding with the entry deleted. *)
Theorem sync_empty_entry_is_no_entry (h : Host) (t : Topic)
  (topics : list Topic) (messages : list Message) (s : Multicast.t) :
  Multicast.fwrdHooks s !! t = Some [] →
  let s' := Multicast.set_fwrdHooks (delete t (Multicast.fwrdHooks s)) s in
  let r := Multicast._forwardMessages h SyncForm topics messages s in
  let r' := Multicast._forwardMessages h SyncForm topics messages s' in
  outcome r' = outcome r ∧ trace r' = trace r
  ∧ Multicast.peers (final r') = Multicast.peers (final r).
Proof.
  intros E. cbn zeta. rewrite !run_forward.
  cbn [outcome final trace fst snd Multicast.fwrdHooks Multicast.set_fwrdHooks
       Multicast.peers Multicast.set_peers Multicast.set_started].
  rewrite (each_peer_ext
             (Multicast.Sync.forward_to h (delete t (Multicast.fwrdHooks s))
                topics messages)
             (Multicast.Sync.forward_to h (Multicast.fwrdHooks s)
                topics messages)); [done|].
  intros p. rewrite !sync_forward_to. by rewrite narrow_empty_entry.
Qed.

Lemma sync_empty_entry_is_no_entry_witness :
  let s := demo_engine [demo_peer "QmA" ["a"]] [] {["a" := []]} in
  let s' := demo_engine [demo_peer "QmA" ["a"]] [] ∅ in
  let m := demo_message 3 ["a"] in
  trace (Multicast._forwardMessages demo_host SyncForm ["a"] [m] s')
  = trace (Multicast._forwardMessages demo_host SyncForm ["a"] [m] s).
Proof.
  intros s s' m.
  destruct (sync_empty_entry_is_no_entry demo_host "a" ["a"] [m] s)
    as (_ & H & _); [reflexivity | exact H].
Defined.

(** X9. In the form with [addFrwdHook] an entry without validators is not
    the same as no entry: for a topic with an empty entry a writable record
    is sent the messages of the batch that are addressed to that topic (and
    no record at all when there are none), and for a topic with no entry it
    is sent the whole batch, addressed to the topic or not. *)
Theorem async_empty_entry_filters (h : Host)
  (registry : gmap Topic (list Hook)) (topics : list Topic)
  (messages : list Message) (t : Topic) (q : Peer.t) (st : list rpc.RPC) :
  Peer.stream q = Some st →
  let r := Multicast.Async.forward_topic h registry topics messages t q in
  (registry !! t = Some [] →
   sent (Peer.info q) (trace r)
   = on_wire h <$> filter (λ m, t ∈ topicIDs m) messages
   ∧ (filter (λ m, t ∈ topicIDs m) messages = [] →
      pushed (Peer.info q) (trace r) = []))
  ∧ (registry !! t = None →
     pushed (Peer.info q) (trace r)
     = [{| rpc.subscriptions := None;
           rpc.msgs := Some (on_wire h <$> messages) |}]).
Proof.
  intros Est. cbn zeta.
  split; intros E;
    (rewrite (async_forward_topic h registry topics messages t q st Est);
     [|intros vs Hvs; rewrite E in Hvs; try done; injection Hvs as <-;
       by intros v m ?%elem_of_nil]);
    rewrite E.
  - rewrite filter_no_error.
    2:{ intros m e _. unfold Multicast.Async.check.
        by case_bool_decide. }
    assert (filter (λ m, approved (Multicast.Async.check h q t [] m)) messages
            = filter (λ m, t ∈ topicIDs m) messages) as ->.
    { apply list_filter_iff. intros m. unfold Multicast.Async.check.
      case_bool_decide as Hm; cbn; [tauto|].
      by split. }
    case_bool_decide as Hlen; cbn [trace snd fst].
    + split.
      * rewrite sent_log, sent_push, sent_log. cbn [rpc.msgs default].
        by rewrite app_nil_r, normalizeOut_on_wire.
      * intros En. rewrite En in Hlen. cbn in Hlen. lia.
    + split; [|done].
      destruct (filter _ messages); [done | cbn in Hlen; lia].
  - cbn [trace snd fst]. cbn. rewrite bool_decide_eq_true_2 by done.
    by rewrite normalizeOut_on_wire.
Qed.

Lemma async_empty_entry_filters_witness :
  let q := demo_peer "QmA" ["a"; "b"] in
  let m := demo_message 3 ["a"] in
  pushed "QmA"
    (trace (Multicast.Async.forward_topic demo_host {["b" := []]} ["a"] [m]
              "b" q)) = []
  ∧ pushed "QmA"
      (trace (Multicast.Async.forward_topic demo_host ∅ ["a"] [m] "b" q))
    = [{| rpc.subscriptions := None;
          rpc.msgs := Some [on_wire demo_host m] |}].
Proof.
  intros q m. split.
  - destruct (async_empty_entry_filters demo_host {["b" := []]} ["a"] [m] "b"
                q []) as [H _]; [reflexivity|].
    destruct H as [_ H]; [reflexivity|]. apply H. reflexivity.
  - destruct (async_empty_entry_filters demo_host ∅ ["a"] [m] "b" q [])
      as [_ H]; [reflexivity|]. by apply H.
Defined.

(** ** One record for each topic *)

Lemma async_forward_unvalidated_topics (h : Host)
  (registry : gmap Topic (list Hook)) (topics : list Topic)
  (messages : list Message) (ts : list Topic) (q : Peer.t)
  (st : list rpc.RPC) :
  (∀ t, t ∈ ts → registry !! t = None) →
  let r := {| rpc.subscriptions := None;
              rpc.msgs := Some (utils.normalizeOutRpcMessages h messages) |} in
  ∃ tr,
    forEach ts (Multicast.Async.forward_topic h registry topics messages)
      (Peer.set_stream (Some st) q)
    = (Return tt, Peer.set_stream (Some (st ++ replicate (length ts) r)) q, tr)
    ∧ pushed (Peer.info q) tr = replicate (length ts) r.
Proof.
  intros Hreg r. revert st.
  induction ts as [|t ts IH]; intros st.
  - exists []. cbn. by rewrite app_nil_r.
  - cbn [forEach]. rewrite run_bind.
    rewrite (async_forward_topic h registry topics messages t
               (Peer.set_stream (Some st) q) st);
      [|done|intros vs Hvs; by rewrite Hreg in Hvs by left].
    rewrite Hreg by left. cbn [fst snd].
    rewrite set_stream_set_stream. fold r.
    destruct (IH (λ t' Ht', Hreg t' (list_elem_of_further _ _ _ Ht'))
                (st ++ [r])) as (tr & -> & Htr).
    eexists. split.
    + cbn [length replicate]. by rewrite <- app_assoc.
    + cbn [Peer.info Peer.set_stream]. cbn [app].
      cbn [pushed omap list_omap]. rewrite bool_decide_eq_true_2 by done.
      cbn [length replicate]. f_equal. exact Htr.
Qed.

(** X10. Without validators the form with [addFrwdHook] sends the batch
    once for each topic of the record, not once for each record: when the
    procedure returns, a writable record that shares a topic with the batch,
    and none of whose topics has an entry in the registry, has been pushed as
    many copies of the whole batch as it has topics, whether or not the batch
    is addressed to them. *)
Theorem async_one_record_per_topic (h : Host) (topics : list Topic)
  (messages : list Message) (s : Multicast.t) (q : Peer.t) :
  NoDup (Peer.info <$> Multicast.peers s) →
  q ∈ Multicast.peers s →
  Peer.isWritable q = true →
  (∃ t, t ∈ Peer.topics q ∧ t ∈ topics) →
  (∀ t, t ∈ Peer.topics q → Multicast.fwrdHooks s !! t = None) →
  outcome (Multicast._forwardMessages h AsyncForm topics messages s)
  = Return tt →
  pushed (Peer.info q)
    (trace (Multicast._forwardMessages h AsyncForm topics messages s))
  = replicate (length (Peer.topics q))
      {| rpc.subscriptions := None;
         rpc.msgs := Some (on_wire h <$> messages) |}.
Proof.
  intros Hnd Hin Hw Hshare%anyMatch_true Hreg Hret.
  rewrite run_forward in Hret |- *.
  cbn [outcome final trace fst snd] in Hret |- *.
  destruct (each_peer_returns _ _ Hret) as [-> _].
  cbn [trace snd].
  rewrite (pushed_concat_one _ _ _ _
             (local_async_forward_to h _ topics messages) Hnd Hin).
  unfold Multicast.Async.forward_to. rewrite run_get, Hw, Hshare.
  cbn [negb orb].
  apply isWritable_true in Hw as [st Est].
  destruct (async_forward_unvalidated_topics h (Multicast.fwrdHooks s) topics
              messages (Peer.topics q) q st Hreg) as (tr & Hrun & Htr).
  rewrite <- Est, set_stream_same in Hrun. rewrite Hrun.
  cbn [trace snd]. by rewrite Htr, normalizeOut_on_wire.
Qed.

Lemma async_one_record_per_topic_witness :
  let q := demo_peer "QmA" ["a"; "b"; "c"] in
  let m := demo_message 3 ["a"] in
  let s := demo_engine [q] [] ∅ in
  length (pushed "QmA"
            (trace (Multicast._forwardMessages demo_host AsyncForm ["a"] [m]
                      s))) = 3%nat.
Proof.
  intros q m s.
  refine (eq_trans
            (f_equal length
               (async_one_record_per_topic demo_host ["a"] [m] s q
                  _ _ _ _ _ _))
            _).
  - by apply (bool_decide_unpack _).
  - by apply (bool_decide_unpack _).
  - reflexivity.
  - exists "a". split; by apply (bool_decide_unpack _).
  - intros t _. apply lookup_empty.
  - reflexivity.
  - reflexivity.
Defined.

(** ** Subscribing and unsubscribing *)

Lemma forEach_modify {S A} (xs : list A) (g : A → S → S) (s : S) :
  forEach xs (λ x, modify (g x)) s
  = (Return tt, foldl (λ s x, g x s) s xs, []).
Proof.
  revert s. induction xs as [|x xs IH]; intros s; [done|].
  cbn [forEach foldl]. by rewrite run_modify, IH.
Qed.

Lemma foldl_subscriptions (f : Topic → list Topic → list Topic)
  (ts : list Topic) (s : Multicast.t) :
  foldl (λ s t,
           Multicast.set_subscriptions (f t (Multicast.subscriptions s)) s)
    s ts
  = Multicast.set_subscriptions
      (foldl (λ l t, f t l) (Multicast.subscriptions s) ts) s.
Proof.
  revert s. induction ts as [|t ts IH]; intros s; [by destruct s|].
  cbn [foldl]. by rewrite IH.
Qed.

Lemma elem_of_add_all (ts subs : list Topic) (t : Topic) :
  t ∈ foldl (λ l t, Peer.set_add t l) subs ts ↔ t ∈ subs ∨ t ∈ ts.
Proof.
  revert subs. induction ts as [|t' ts IH]; intros subs; cbn [foldl].
  - rewrite elem_of_nil. tauto.
  - rewrite IH, elem_of_set_add, elem_of_cons. tauto.
Qed.

Lemma NoDup_add_all (ts subs : list Topic) :
  NoDup subs → NoDup (foldl (λ l t, Peer.set_add t l) subs ts).
Proof.
  revert subs. induction ts as [|t' ts IH]; intros subs H; [done|].
  cbn [foldl]. by apply IH, NoDup_set_add.
Qed.

Lemma delete_all_filter (ts subs : list Topic) :
  foldl (λ l t, Peer.set_delete t l) subs ts = filter (λ t, t ∉ ts) subs.
Proof.
  revert subs. induction ts as [|t' ts IH]; intros subs; cbn [foldl].
  - symmetry. apply filter_all. intros x _. apply not_elem_of_nil.
  - rewrite IH. unfold Peer.set_delete. rewrite list_filter_filter.
    apply list_filter_iff. intros x. rewrite not_elem_of_cons. tauto.
Qed.

Lemma add_all_app (ts subs : list Topic) :
  ∃ extra, foldl (λ l t, Peer.set_add t l) subs ts = subs ++ extra
           ∧ ∀ t, t ∈ extra → t ∈ ts.
Proof.
  revert subs. induction ts as [|t' ts IH]; intros subs; cbn [foldl].
  - exists []. by rewrite app_nil_r.
  - destruct (IH (Peer.set_add t' subs)) as (extra & -> & Hex).
    unfold Peer.set_add. case_bool_decide.
    + exists extra. split; [done|]. intros t Ht. right. by apply Hex.
    + exists (t' :: extra). rewrite <- app_assoc. split; [done|].
      intros t [->|Ht]%elem_of_cons; [by left | right; by apply Hex].
Qed.

Lemma broadcast_concat {A} (r : rpc.RPC) (f : M Peer.t A)
  (ps : list Peer.t) :
  (∀ p, trace (f p) = if Peer.isWritable p then [Push (Peer.info p) r]
                      else []) →
  concat ((λ p, trace (f p)) <$> ps) = broadcast r ps.
Proof.
  intros H. unfold broadcast.
  induction ps as [|p ps IH]; [done|].
  cbn. by rewrite H, IH.
Qed.

Lemma sendSubscriptionsOnceReady_announced (ts : list Topic) (p : Peer.t) :
  Multicast.sendSubscriptionsOnceReady ts p =
    (Return tt, announced ts p,
     if Peer.isWritable p then [Push (Peer.info p) (announcement true ts)]
     else []).
Proof.
  rewrite sendSubscriptionsOnceReady_run. unfold announced, Peer.isWritable.
  by destruct (Peer.stream p).
Qed.

Lemma subscribe_run (topics : utils.OneOrMany Topic) (s : Multicast.t) :
  Multicast.started s = true →
  let ts := utils.ensureArray topics in
  Multicast.subscribe topics s =
    (Return tt,
     Multicast.set_peers (announced ts <$> Multicast.peers s)
       (Multicast.set_subscriptions
          (foldl (λ l t, Peer.set_add t l) (Multicast.subscriptions s) ts) s),
     broadcast (announcement true ts) (Multicast.peers s)).
Proof.
  intros Hs ts. unfold Multicast.subscribe. rewrite run_get, Hs.
  cbn [Multicast.assert]. rewrite run_bind. cbn [ret]. fold ts.
  rewrite run_bind.
  rewrite (forEach_modify ts
             (λ topic s, Multicast.set_subscriptions
                           (Peer.set_add topic (Multicast.subscriptions s)) s)).
  rewrite (foldl_subscriptions Peer.set_add).
  unfold Multicast.peers_forEach.
  rewrite each_peer_total by apply total_sendSubscriptionsOnceReady.
  cbn [Multicast.peers Multicast.set_subscriptions app].
  f_equal; [f_equal|].
  - f_equal. apply list_fmap_ext. intros i p _.
    by rewrite sendSubscriptionsOnceReady_announced.
  - apply broadcast_concat. intros p.
    by rewrite sendSubscriptionsOnceReady_announced.
Qed.

(** X11. [subscribe] on an engine that is not started fails its assertion
    and changes nothing.  On a started engine it adds the topics to the local
    subscriptions, which stay a set, and passes over the peer map once:
    every writable record is pushed one subscription record that lists the
    topics of the call (an empty list for an empty array), every record
    without a stream gets the announcement deferred, and nothing else of the
    engine changes. *)
Theorem subscribe_announces (topics : utils.OneOrMany Topic)
  (s : Multicast.t) :
  let ts := utils.ensureArray topics in
  let r := Multicast.subscribe topics s in
  (Multicast.started s = false →
   r = (Throw (AssertionError "Multicast is not started"), s, []))
  ∧ (Multicast.started s = true →
     NoDup (Multicast.subscriptions s) →
     outcome r = Return tt
     ∧ (∀ t, t ∈ Multicast.subscriptions (final r)
             ↔ t ∈ Multicast.subscriptions s ∨ t ∈ ts)
     ∧ NoDup (Multicast.subscriptions (final r))
     ∧ Multicast.peers (final r) = announced ts <$> Multicast.peers s
     ∧ trace r = broadcast (announcement true ts) (Multicast.peers s)
     ∧ Multicast.set_subscriptions (Multicast.subscriptions s)
         (Multicast.set_peers (Multicast.peers s) (final r)) = s).
Proof.
  cbn zeta. split.
  - intros Hs. unfold Multicast.subscribe. by rewrite run_get, Hs.
  - intros Hs Hnd. rewrite subscribe_run by done.
    cbn [outcome final trace fst snd]. split; [done|].
    split; [|split; [|split; [|split]]].
    + intros t. apply elem_of_add_all.
    + by apply NoDup_add_all.
    + reflexivity.
    + reflexivity.
    + by destruct s.
Qed.

Lemma subscribe_announces_witness :
  let s := demo_engine [demo_peer "QmA" []; Peer.new "QmB"] ["x"] ∅ in
  trace (Multicast.subscribe (utils.Many ["a"; "x"]) s)
  = [Push "QmA" (announcement true ["a"; "x"])]
  ∧ Multicast.subscriptions
      (final (Multicast.subscribe (utils.Many ["a"; "x"]) s)) = ["x"; "a"].
Proof.
  intros s.
  destruct (subscribe_announces (utils.Many ["a"; "x"]) s) as [_ H].
  destruct H as (_ & _ & _ & _ & H & _).
  - reflexivity.
  - by apply (bool_decide_unpack _).
  - split; [exact H | reflexivity].
Defined.

Lemma checkIfReady_run (ts : list Topic) (p : Peer.t) :
  Multicast.checkIfReady ts p =
    (Return (if Peer.isWritable p then []
             else [Multicast.CheckIfReady ts]),
     retracted ts p,
     if Peer.isWritable p then [Push (Peer.info p) (announcement false ts)]
     else []).
Proof.
  unfold Multicast.checkIfReady. rewrite run_get. unfold retracted.
  destruct (Peer.stream p) as [q|] eqn:E.
  - assert (Peer.isWritable p = true) as -> by (apply isWritable_true; eauto).
    rewrite run_bind, sendUnsubscriptions_array, (write_open p q) by done.
    reflexivity.
  - assert (Peer.isWritable p = false) as -> by by apply isWritable_false.
    reflexivity.
Qed.

Lemma each_peer_collect_total {A} (f : M Peer.t (list A))
  (res : Peer.t → list A) (ps : list Peer.t) :
  (∀ p, outcome (f p) = Return (res p)) →
  Multicast.each_peer_collect f ps =
    (Return (ps ≫= res), (λ p, final (f p)) <$> ps,
     concat ((λ p, trace (f p)) <$> ps)).
Proof.
  intros Hf. induction ps as [|p rest IH]; [done|].
  cbn [Multicast.each_peer_collect]. specialize (Hf p).
  destruct (f p) as [[o p'] t1] eqn:E. unfold outcome in Hf. cbn [fst] in Hf.
  rewrite Hf, IH. cbn. by rewrite E.
Qed.

Lemma unsubscribe_run (topics : utils.OneOrMany Topic) (s : Multicast.t) :
  Multicast.started s = true →
  let ts := utils.ensureArray topics in
  Multicast.unsubscribe topics s =
    (Return (p ← Multicast.peers s;
             if Peer.isWritable p then [] else [Multicast.CheckIfReady ts]),
     Multicast.set_peers (retracted ts <$> Multicast.peers s)
       (Multicast.set_subscriptions
          (filter (λ t, t ∉ ts) (Multicast.subscriptions s)) s),
     broadcast (announcement false ts) (Multicast.peers s)).
Proof.
  intros Hs ts. unfold Multicast.unsubscribe. rewrite run_get, Hs.
  cbn [negb]. fold ts. rewrite run_bind.
  rewrite (forEach_modify ts
             (λ topic s, Multicast.set_subscriptions
                           (Peer.set_delete topic
                              (Multicast.subscriptions s)) s)).
  rewrite (foldl_subscriptions Peer.set_delete), delete_all_filter.
  unfold Multicast.peers_forEach_collect.
  rewrite (each_peer_collect_total _
             (λ p, if Peer.isWritable p then []
                   else [Multicast.CheckIfReady ts]))
    by (intros p; by rewrite checkIfReady_run).
  cbn [Multicast.peers Multicast.set_subscriptions app].
  f_equal; [f_equal|].
  - f_equal. apply list_fmap_ext. intros i p _. by rewrite checkIfReady_run.
  - apply broadcast_concat. intros p. by rewrite checkIfReady_run.
Qed.

(** X12. [unsubscribe] on an engine that is not started returns without
    any sign and changes nothing.  On a started engine it removes the topics
    from the local subscriptions and passes over the peer map once: every
    writable record is pushed one record that unsubscribes the topics of the
    call; a record without a stream is left exactly as it is, with nothing
    deferred on it, and one retry for it is handed to the event loop. *)
Theorem unsubscribe_retracts (topics : utils.OneOrMany Topic)
  (s : Multicast.t) :
  let ts := utils.ensureArray topics in
  let r := Multicast.unsubscribe topics s in
  (Multicast.started s = false → r = (Return [], s, []))
  ∧ (Multicast.started s = true →
     outcome r
     = Return (p ← Multicast.peers s;
               if Peer.isWritable p then [] else [Multicast.CheckIfReady ts])
     ∧ Multicast.subscriptions (final r)
       = filter (λ t, t ∉ ts) (Multicast.subscriptions s)
     ∧ Multicast.peers (final r) = retracted ts <$> Multicast.peers s
     ∧ trace r = broadcast (announcement false ts) (Multicast.peers s)
     ∧ (∀ p, p ∈ Multicast.peers s → Peer.isWritable p = false →
             retracted ts p = p)
     ∧ Multicast.set_subscriptions (Multicast.subscriptions s)
         (Multicast.set_peers (Multicast.peers s) (final r)) = s).
Proof.
  cbn zeta. split.
  - intros Hs. unfold Multicast.unsubscribe. by rewrite run_get, Hs.
  - intros Hs. rewrite unsubscribe_run by done.
    cbn [outcome final trace fst snd]. repeat split.
    + intros p _ E%isWritable_false. unfold retracted. by rewrite E.
    + by destruct s.
Qed.

Lemma unsubscribe_retracts_witness :
  let s := demo_engine [demo_peer "QmA" []; Peer.new "QmB"] ["x"; "a"] ∅ in
  let r := Multicast.unsubscribe (utils.One "x") s in
  outcome r = Return [Multicast.CheckIfReady ["x"]]
  ∧ Multicast.subscriptions (final r) = ["a"]
  ∧ trace r = [Push "QmA" (announcement false ["x"])].
Proof.
  intros s r.
  destruct (unsubscribe_retracts (utils.One "x") s) as [_ H].
  destruct H as (H1 & H2 & _ & H3 & _); [reflexivity|].
  split; [exact H1 | split; [exact H2 | exact H3]].
Defined.

(** X13. Unsubscribing from the topics of a [subscribe] call takes them
    all out again and keeps the other local subscriptions in their order;
    when none of the topics was subscribed before, the local subscriptions
    are back to what they were. *)
Theorem subscribe_then_unsubscribe (topics : utils.OneOrMany Topic)
  (s : Multicast.t) :
  Multicast.started s = true →
  let ts := utils.ensureArray topics in
  let r := Multicast.unsubscribe topics (final (Multicast.subscribe topics s)) in
  Multicast.subscriptions (final r)
  = filter (λ t, t ∉ ts) (Multicast.subscriptions s)
  ∧ ((∀ t, t ∈ ts → t ∉ Multicast.subscriptions s) →
     Multicast.subscriptions (final r) = Multicast.subscriptions s).
Proof.
  intros Hs. cbn zeta. rewrite subscribe_run by done.
  cbn [outcome final trace fst snd]. rewrite unsubscribe_run by done.
  cbn [outcome final trace fst snd Multicast.subscriptions
       Multicast.set_peers Multicast.set_started Multicast.set_subscriptions].
  destruct (add_all_app (utils.ensureArray topics) (Multicast.subscriptions s))
    as (extra & -> & Hex).
  rewrite filter_app, (filter_none _ extra), app_nil_r.
  2:{ intros t Ht Hn. by apply Hn, Hex. }
  split; [done|]. intros Hfresh. apply filter_all.
  intros t Ht Hts. by apply (Hfresh t).
Qed.

Lemma subscribe_then_unsubscribe_witness :
  let s := demo_engine [demo_peer "QmA" []] ["x"; "y"] ∅ in
  Multicast.subscriptions
    (final (Multicast.unsubscribe (utils.Many ["a"; "y"])
              (final (Multicast.subscribe (utils.Many ["a"; "y"]) s))))
  = ["x"].
Proof.
  intros s.
  destruct (subscribe_then_unsubscribe (utils.Many ["a"; "y"]) s) as [H _];
    [reflexivity | exact H].
Defined.

Lemma run_immediates_fixed (l : list Multicast.Immediate) :
  l ≫= Multicast.run_immediate = l.
Proof.
  induction l as [|[ts] l IH]; [done|]. cbn. by f_equal.
Qed.

(** X14. [unsubscribe] does not cancel an announcement that [subscribe]
    deferred, and never reaches a record that had no stream.  After
    [subscribe] and [unsubscribe] of the same topics on an engine that has a
    record without a stream, the topics are not subscribed locally, yet the
    next [createStream] on that record still announces them as subscribed;
    and the retry that [unsubscribe] left with the event loop only schedules
    itself again, turn after turn. *)
Theorem unsubscribe_does_not_cancel (topics : utils.OneOrMany Topic)
  (s : Multicast.t) (i : nat) (q : Peer.t) :
  Multicast.started s = true →
  Multicast.peers s !! i = Some q →
  Peer.isWritable q = false →
  let ts := utils.ensureArray topics in
  let r := Multicast.unsubscribe topics (final (Multicast.subscribe topics s)) in
  Forall (λ t, t ∉ Multicast.subscriptions (final r)) ts
  ∧ (∃ q', Multicast.peers (final r) !! i = Some q'
           ∧ Peer.info q' = Peer.info q
           ∧ pushed (Peer.info q) (trace (Peer.createStream q'))
             = (announcement true <$> Peer.pending q)
               ++ [announcement true ts])
  ∧ (∃ imm, outcome r = Return imm
            ∧ Multicast.CheckIfReady ts ∈ imm
            ∧ ∀ n, Nat.iter n (λ l, l ≫= Multicast.run_immediate) imm = imm).
Proof.
  intros Hs Hi Hw. cbn zeta. rewrite subscribe_run by done.
  cbn [outcome final trace fst snd]. rewrite unsubscribe_run by done.
  cbn [outcome final trace fst snd Multicast.subscriptions Multicast.peers
       Multicast.set_peers Multicast.set_started Multicast.set_subscriptions].
  apply isWritable_false in Hw as Est.
  assert (announced (utils.ensureArray topics) q
          = Peer.set_pending (Peer.pending q ++ [utils.ensureArray topics]) q)
    as Hq by (unfold announced; by rewrite Est).
  split; [|split].
  - apply Forall_forall. intros t Ht [Hn _]%list_elem_of_filter. done.
  - exists (announced (utils.ensureArray topics) q). split; [|split].
    + rewrite !list_lookup_fmap, Hi. cbn. f_equal.
      unfold retracted. rewrite Hq. cbn [Peer.stream Peer.set_pending].
      by rewrite Est.
    + by rewrite Hq.
    + rewrite Hq, createStream_run. cbn [trace snd Peer.info Peer.set_pending
        Peer.pending].
      by rewrite pushed_own, fmap_app.
  - eexists. split; [reflexivity|]. split.
    + apply list_elem_of_bind.
      exists (announced (utils.ensureArray topics) q). split.
      * rewrite Hq. unfold Peer.isWritable. cbn [Peer.stream Peer.set_pending].
        rewrite Est. cbn. by left.
      * apply list_elem_of_fmap. exists q. split; [done|].
        by eapply list_elem_of_lookup_2.
    + intros n. induction n as [|n IH]; [done|].
      by rewrite Nat.iter_succ, IH, run_immediates_fixed.
Qed.

Lemma unsubscribe_does_not_cancel_witness :
  let s := demo_engine [Peer.new "QmB"] [] ∅ in
  let r := Multicast.unsubscribe (utils.One "a")
             (final (Multicast.subscribe (utils.One "a") s)) in
  Multicast.subscriptions (final r) = []
  ∧ ∃ q', Multicast.peers (final r) !! 0%nat = Some q'
          ∧ pushed "QmB" (trace (Peer.createStream q'))
            = [announcement true ["a"]].
Proof.
  intros s r.
  destruct (unsubscribe_does_not_cancel (utils.One "a") s 0 (Peer.new "QmB"))
    as (_ & (q' & H1 & _ & H2) & _); [reflexivity..|].
  split; [reflexivity|]. exists q'. split; [exact H1 | exact H2].
Defined.

(** ** Looking a record up in the peer map *)

Lemma fmap_if_absent (id : PeerId) (g : Peer.t → Peer.t) (ps : list Peer.t) :
  id ∉ Peer.info <$> ps →
  (λ p, if bool_decide (Peer.info p = id) then g p else p) <$> ps = ps.
Proof.
  intros Hid. induction ps as [|p ps IH]; [done|].
  rewrite fmap_cons, not_elem_of_cons in Hid. destruct Hid as [Hp Hps].
  cbn. rewrite bool_decide_eq_false_2 by done. f_equal. by apply IH.
Qed.

Lemma fmap_if_same (id : PeerId) (g : Peer.t → Peer.t) (ps : list Peer.t) :
  (∀ p, g p = p) →
  (λ p, if bool_decide (Peer.info p = id) then g p else p) <$> ps = ps.
Proof.
  intros Hg. induction ps as [|p ps IH]; [done|].
  cbn. rewrite Hg, IH. by case_bool_decide.
Qed.

Lemma on_peer_absent (id : PeerId) (f : M Peer.t unit) (ps : list Peer.t) :
  id ∉ Peer.info <$> ps → Multicast.on_peer id f ps = (Return tt, ps, []).
Proof.
  intros Hid. induction ps as [|p ps IH]; [done|].
  rewrite fmap_cons, not_elem_of_cons in Hid. destruct Hid as [Hp Hps].
  cbn. rewrite bool_decide_eq_false_2 by done. by rewrite IH.
Qed.

Lemma on_peer_present (f : M Peer.t unit) (ps : list Peer.t) (q : Peer.t) :
  NoDup (Peer.info <$> ps) → q ∈ ps →
  Multicast.on_peer (Peer.info q) f ps =
    (outcome (f q),
     (λ p, if bool_decide (Peer.info p = Peer.info q) then final (f q) else p)
       <$> ps,
     trace (f q)).
Proof.
  intros Hnd Hq. induction ps as [|p ps IH]; [by inversion Hq|].
  rewrite fmap_cons in Hnd. apply NoDup_cons in Hnd as [Hp Hnd].
  cbn [Multicast.on_peer fmap list_fmap]. case_bool_decide as Hpq.
  - assert (p = q) as ->.
    { apply elem_of_cons in Hq as [->|Hq]; [done|].
      exfalso. apply Hp. rewrite Hpq. by apply list_elem_of_fmap_2. }
    rewrite fmap_if_absent by done.
    by destruct (f q) as [[o q'] tr].
  - apply elem_of_cons in Hq as [->|Hq]; [done|].
    by rewrite IH.
Qed.

Lemma updateSubscriptions_silent (changes : list rpc.SubOpts) (p : Peer.t) :
  Peer.updateSubscriptions changes p
  = (Return tt, final (Peer.updateSubscriptions changes p), []).
Proof. by destruct (updateSubscriptions_run changes p) as [p' ->]. Qed.

Lemma peers_get_updateSubscriptions_run (id : PeerId)
  (changes : list rpc.SubOpts) (s : Multicast.t) :
  NoDup (Peer.info <$> Multicast.peers s) →
  Multicast.peers_get id (Peer.updateSubscriptions changes) s =
    (Return tt,
     Multicast.set_peers
       ((λ p, if bool_decide (Peer.info p = id)
              then final (Peer.updateSubscriptions changes p) else p)
          <$> Multicast.peers s) s, []).
Proof.
  intros Hnd. unfold Multicast.peers_get.
  destruct (decide (id ∈ Peer.info <$> Multicast.peers s)) as [Hin|Hout].
  - apply list_elem_of_fmap in Hin as (q & -> & Hq).
    rewrite on_peer_present by done.
    rewrite updateSubscriptions_silent. cbn [outcome trace fst snd].
    do 3 f_equal. apply list_fmap_ext. intros i p Hp.
    cbn [final fst snd]. case_bool_decide as Hpq; [|done].
    by rewrite (NoDup_fmap_eq Peer.info (Multicast.peers s) p q Hnd
                  (list_elem_of_lookup_2 _ _ _ Hp) Hq Hpq).
  - by rewrite on_peer_absent, fmap_if_absent.
Qed.

Lemma set_peers_same (s : Multicast.t) :
  Multicast.set_peers (Multicast.peers s) s = s.
Proof. by destruct s. Qed.

(** X15. A record that carries no messages changes nothing but the topics
    of its sender: the subscription deltas are applied to the record of the
    peer the record came from and to no other, nothing is pushed or
    delivered, and when the sender is not in the peer map the engine is left
    as it was. *)
Theorem onRpc_updates_sender_only (h : Host) (form : Form) (now : Z)
  (id : PeerId) (r : rpc.RPC) (s : Multicast.t) :
  NoDup (Peer.info <$> Multicast.peers s) →
  default [] (rpc.msgs r) = [] →
  let res := Multicast._onRpc h form now id (Some r) s in
  outcome res = Return tt
  ∧ trace res = [Log (LogRpcFrom id)]
  ∧ Multicast.peers (final res)
    = (λ p, if bool_decide (Peer.info p = id)
            then final (Peer.updateSubscriptions
                          (default [] (rpc.subscriptions r)) p)
            else p) <$> Multicast.peers s
  ∧ Multicast.set_peers (Multicast.peers s) (final res) = s
  ∧ (id ∉ Peer.info <$> Multicast.peers s → final res = s).
Proof.
  intros Hnd Hmsgs. cbn zeta. unfold Multicast._onRpc.
  assert (match rpc.msgs r with
          | Some ((_ :: _) as msgs) =>
              Multicast._processRpcMessages h form now
                (utils.normalizeInRpcMessages h msgs)
          | _ => ret tt
          end = ret tt) as ->.
  { destruct (rpc.msgs r) as [[|w ws]|]; done. }
  rewrite run_bind. cbn [tell]. rewrite run_bind. cbn [ret].
  assert (match rpc.subscriptions r with
          | Some ((_ :: _) as subs) =>
              Multicast.peers_get id (Peer.updateSubscriptions subs)
          | _ => ret tt
          end s
          = Multicast.peers_get id
              (Peer.updateSubscriptions (default [] (rpc.subscriptions r))) s)
    as ->.
  { destruct (rpc.subscriptions r) as [[|c cs]|]; try done;
      cbn [from_option Datatypes.id];
      rewrite (peers_get_updateSubscriptions_run _ []) by done;
      by rewrite fmap_if_same, set_peers_same. }
  rewrite peers_get_updateSubscriptions_run by done.
  cbn [outcome final trace fst snd app Multicast.peers Multicast.set_peers
       Multicast.set_started].
  repeat split.
  - by destruct s.
  - intros Hout. by rewrite fmap_if_absent, set_peers_same.
Qed.

Lemma onRpc_updates_sender_only_witness :
  let s := demo_engine [demo_peer "QmA" []; demo_peer "QmB" ["x"]] [] ∅ in
  let r := {| rpc.subscriptions :=
                Some [ {| rpc.subscribe := true; rpc.topicCID := "a" |} ];
              rpc.msgs := None |} in
  Multicast.peers (final (Multicast._onRpc demo_host SyncForm 5 "QmA" (Some r) s))
  = [demo_peer "QmA" ["a"]; demo_peer "QmB" ["x"]].
Proof.
  intros s r.
  destruct (onRpc_updates_sender_only demo_host SyncForm 5 "QmA" r s)
    as (_ & _ & H & _);
    [by apply (bool_decide_unpack _) | reflexivity |].
  by rewrite H.
Defined.

(** ** A message on its way back *)

Lemma forEach_one {S A} (f : A → M S unit) (x : A) (s : S) :
  forEach [x] f s = f x s.
Proof.
  cbn [forEach]. rewrite run_bind.
  destruct (f x s) as [[[[]|e] s1] t1]; cbn; by rewrite ?app_nil_r.
Qed.

Lemma onRpc_messages_run (h : Host) (form : Form) (now : Z) (id : PeerId)
  (w : rpc.Message) (ws : list rpc.Message) (s : Multicast.t) :
  Multicast._onRpc h form now id
    (Some {| rpc.subscriptions := None; rpc.msgs := Some (w :: ws) |}) s =
    let f := Multicast._processRpcMessages h form now
               (utils.normalizeInRpcMessages h (w :: ws)) s in
    (outcome f, final f, Log (LogRpcFrom id) :: trace f).
Proof.
  unfold Multicast._onRpc. cbn [rpc.msgs rpc.subscriptions].
  rewrite run_bind. cbn [tell]. rewrite run_bind. cbv zeta.
  destruct (Multicast._processRpcMessages _ _ _ _ _) as [[[[]|e] s1] t1];
    cbn; by rewrite ?app_nil_r.
Qed.

(** X16. The receive path does not single out the sender: a record with a
    fresh message that still has hops left, and whose local deliveries all
    return, is forwarded to every writable peer that shares a topic with it,
    the peer it came from included.  With no validators registered, the
    sender gets its own message pushed back, payload, sequence number and
    topics unchanged. *)
Theorem message_returns_to_sender (h : Host) (form : Form) (now : Z)
  (w : rpc.Message) (s : Multicast.t) (q : Peer.t) :
  Multicast.fwrdHooks s = ∅ →
  q ∈ Multicast.peers s →
  Peer.isWritable q = true →
  (∃ t, t ∈ Peer.topics q ∧ t ∈ rpc.topicIDs w) →
  rpc.hops w ≠ 0 →
  TimeCache.has (Multicast.cache s) now
    (utils.msgId (bs58_encode h (rpc.from w))
       (Buffer_toString h (rpc.seqno w))) = false →
  calm h s (rpc.topicIDs w) (utils.normalizeInRpcMessages h [w]) = true →
  ∃ w',
    w' ∈ sent (Peer.info q)
           (trace (Multicast._onRpc h form now (Peer.info q)
                     (Some {| rpc.subscriptions := None;
                              rpc.msgs := Some [w] |}) s))
    ∧ rpc.data w' = rpc.data w ∧ rpc.seqno w' = rpc.seqno w
    ∧ rpc.topicIDs w' = rpc.topicIDs w.
Proof.
  intros Hreg Hq Hw (t & Htq & Htw) Hhops Hfresh Hcalm. revert Hcalm.
  rewrite onRpc_messages_run. cbv zeta. cbn [trace snd].
  rewrite sent_log. unfold Multicast._processRpcMessages.
  cbn [utils.normalizeInRpcMessages fmap list_fmap].
  set (m := {| from := bs58_encode h (rpc.from w); data := rpc.data w;
               seqno := rpc.seqno w; hops := rpc.hops w;
               topicIDs := rpc.topicIDs w |}).
  intros Hcalm. rewrite forEach_one, (process_run_calm _ _ _ _ _ Hcalm).
  change (id_of h m) with (utils.msgId (bs58_encode h (rpc.from w))
                             (Buffer_toString h (rpc.seqno w))).
  rewrite Hfresh. cbn [hops m]. rewrite bool_decide_eq_false_2 by done.
  cbv zeta. cbn [trace snd].
  set (m' := if bool_decide (0 < rpc.hops w)
             then Multicast.set_hops (rpc.hops w - 1) m else m).
  exists (on_wire h m'). split.
  - rewrite sent_app. apply elem_of_app. right.
    apply forward_unvalidated_sends; try done.
    + exists t. split; [done|]. split; [done|].
      subst m'. by case_bool_decide.
    + by left.
  - subst m'. by case_bool_decide.
Qed.

Lemma message_returns_to_sender_witness :
  let q := demo_peer "QmA" ["a"] in
  let s := demo_engine [q] [] ∅ in
  let w := on_wire demo_host (demo_message 2 ["a"]) in
  ∃ w',
    w' ∈ sent "QmA"
           (trace (Multicast._onRpc demo_host SyncForm 5 "QmA"
                     (Some {| rpc.subscriptions := None;
                              rpc.msgs := Some [w] |}) s))
    ∧ rpc.data w' = rpc.data w ∧ rpc.seqno w' = rpc.seqno w
    ∧ rpc.topicIDs w' = rpc.topicIDs w.
Proof.
  intros q s w.
  apply (message_returns_to_sender demo_host SyncForm 5 w s q).
  - reflexivity.
  - by apply (bool_decide_unpack _).
  - reflexivity.
  - exists "a". split; by apply (bool_decide_unpack _).
  - by apply (bool_decide_unpack _).
  - reflexivity.
  - reflexivity.
Defined.

(** ** What the engine keeps of its peers *)

Section Keys.
Context {K : Type} (key : Peer.t → K).
Hypothesis key_local :
  ∀ p p', Peer.info p' = Peer.info p → Peer.topics p' = Peer.topics p →
          key p' = key p.

Lemma each_peer_keeps (f : M Peer.t unit) (ps : list Peer.t) :
  (∀ p, key (final (f p)) = key p) →
  key <$> final (Multicast.each_peer f ps) = key <$> ps.
Proof.
  intros Hf. destruct (each_peer_prefix f ps) as (k & _ & -> & _).
  rewrite fmap_app, <- list_fmap_compose.
  rewrite (list_fmap_ext (key ∘ (λ p, final (f p))) key)
    by (intros i p _; apply Hf).
  by rewrite <- fmap_app, take_drop.
Qed.

Lemma forward_keeps (h : Host) (form : Form) (topics : list Topic)
  (messages : list Message) (s : Multicast.t) :
  key <$> Multicast.peers
            (final (Multicast._forwardMessages h form topics messages s))
  = key <$> Multicast.peers s.
Proof.
  rewrite run_forward. cbn [final fst snd Multicast.peers Multicast.set_peers
    Multicast.set_started].
  apply each_peer_keeps. intros p.
  destruct (local_forward_to h form (Multicast.fwrdHooks s) topics messages p)
    as (Hi & Ht & _).
  by apply key_local.
Qed.

Lemma process_keeps (h : Host) (form : Form) (now : Z) (m : Message)
  (s : Multicast.t) :
  key <$> Multicast.peers (final (Multicast.process h form now m s))
  = key <$> Multicast.peers s.
Proof.
  rewrite process_run. destruct (TimeCache.has _ _ _); [done|].
  cbv zeta. destruct (outcome (Multicast._emitMessages _ _ _ _)); [|done].
  case_bool_decide; [done|].
  cbn [final fst snd]. by rewrite forward_keeps.
Qed.

Lemma processRpcMessages_keeps (h : Host) (form : Form) (now : Z)
  (msgs : list Message) (s : Multicast.t) :
  key <$> Multicast.peers
            (final (Multicast._processRpcMessages h form now msgs s))
  = key <$> Multicast.peers s.
Proof.
  unfold Multicast._processRpcMessages. revert s.
  induction msgs as [|m msgs IH]; intros s; [done|].
  cbn [forEach]. rewrite run_bind.
  pose proof (process_keeps h form now m s) as Hm.
  destruct (Multicast.process h form now m s) as [[[[]|e] s1] t1];
    cbn [final fst snd] in Hm; [|done].
  specialize (IH s1).
  destruct (forEach msgs _ s1) as [[o s2] t2]. cbn [final fst snd] in IH |- *.
  by rewrite IH.
Qed.

End Keys.

Lemma buildMessages_frame (h : Host) (now : Z) (from : PeerId)
  (topics : list Topic) (hops : Z) (payloads : list Buffer)
  (s : Multicast.t) :
  ∃ c,
    final (Array_map payloads (Multicast.buildMessage h now from topics hops) s)
    = Multicast.set_entropy (Multicast.entropy s + length payloads)
        (Multicast.set_cache c s).
Proof.
  revert s. induction payloads as [|msg rest IH]; intros s.
  - exists (Multicast.cache s). cbn. rewrite Nat.add_0_r. by destruct s.
  - cbn [Array_map]. rewrite run_bind.
    unfold Multicast.buildMessage at 1. rewrite run_get, run_bind.
    cbn [put]. rewrite run_bind, cache_put_run. cbn [ret app].
    set (s1 := Multicast.set_cache _ _).
    destruct (IH s1) as (c & Hc).
    destruct (buildMessages_run h now from topics hops rest s1)
      as (s' & Hrun & _).
    rewrite Hrun in Hc. cbn [final fst snd] in Hc.
    rewrite run_bind, Hrun. cbn [ret app final fst snd].
    exists c. rewrite Hc. subst s1.
    cbn [Multicast.entropy Multicast.set_cache Multicast.set_entropy length].
    by rewrite Nat.add_succ_r.
Qed.

Lemma publish_frame (h : Host) (form : Form) (now : Z)
  (topics : utils.OneOrMany Topic) (messages : utils.OneOrMany Buffer)
  (hops : Z) (s : Multicast.t) :
  Multicast.started s = true →
  let ts := utils.ensureArray topics in
  let payloads := utils.ensureArray messages in
  let msgs := built h (Multicast.localId s) ts hops (Multicast.entropy s)
                payloads in
  let ids := drawn_ids h (Multicast.localId s) (Multicast.entropy s)
               (length payloads) in
  ∃ c,
    Multicast.publish h form now topics messages hops s
    = (let s' := Multicast.set_entropy
                   (Multicast.entropy s + length payloads)
                   (Multicast.set_cache c s) in
       let e := Multicast._emitMessages h ts msgs s' in
       match outcome e with
       | Throw err =>
           (Throw err, s', Log LogPublish :: (CachePut <$> ids) ++ trace e)
       | Return _ =>
           let f := Multicast._forwardMessages h form ts msgs s' in
           (outcome f, final f,
            Log LogPublish :: (CachePut <$> ids) ++ trace e ++ trace f)
       end).
Proof.
  intros Hst ts payloads msgs ids.
  destruct (buildMessages_frame h now (Multicast.localId s) ts hops payloads s)
    as (c & Hc).
  destruct (buildMessages_run h now (Multicast.localId s) ts hops payloads s)
    as (s' & Hrun & Hsub & _).
  rewrite Hrun in Hc. cbn [final fst snd] in Hc.
  exists c. rewrite <- Hc. by apply publish_steps.
Qed.

(** The local emit reads the subscriptions and the listeners only. *)
Lemma emit_ext (h : Host) (t : Topic) (m : Message) (s s' : Multicast.t) :
  Multicast.listeners s' = Multicast.listeners s →
  Multicast.emit h t m s'
  = (outcome (Multicast.emit h t m s), s', [Emit t m]).
Proof.
  intros Hlis.
  assert (∀ (hs : list Handler) (x : Multicast.t),
            ∃ o, ∀ y : Multicast.t,
              forEach hs (λ f, match listener h f m with
                               | Some e => throw e
                               | None => ret tt
                               end) y = (o, y, [])) as Hloop.
  { intros hs _. induction hs as [|f hs [o IH]]; [by eexists|].
    destruct (listener h f m) as [e|] eqn:E.
    - exists (Throw e). intros y. cbn [forEach]. rewrite run_bind, E. done.
    - exists o. intros y. cbn [forEach]. rewrite run_bind, E. cbn [ret].
      by rewrite IH. }
  unfold Multicast.emit. rewrite !run_bind. cbn [tell].
  rewrite !run_get. cbv beta. rewrite Hlis.
  destruct (default [] (Multicast.listeners s !! t)) as [|f hs].
  - by case_bool_decide.
  - destruct (Hloop (f :: hs) s) as [o Ho]. by rewrite !Ho.
Qed.

Lemma emitMessages_ext (h : Host) (topics : list Topic)
  (messages : list Message) (s s' : Multicast.t) :
  Multicast.subscriptions s' = Multicast.subscriptions s →
  Multicast.listeners s' = Multicast.listeners s →
  Multicast._emitMessages h topics messages s'
  = (outcome (Multicast._emitMessages h topics messages s), s',
     trace (Multicast._emitMessages h topics messages s)).
Proof.
  intros Hsub Hlis.
  assert (∀ t, ∃ o tr, ∀ y,
            Multicast.listeners y = Multicast.listeners s →
            forEach messages (λ m, Multicast.emit h t m) y = (o, y, tr))
    as Hinner.
  { intros t. induction messages as [|m ms (o & tr & IH)];
      [by exists (Return tt), []|].
    destruct (outcome (Multicast.emit h t m s)) as [[]|e] eqn:E.
    - exists o, (Emit t m :: tr). intros y Hy. cbn [forEach].
      rewrite run_bind, (emit_ext h t m s y Hy), E. by rewrite IH.
    - exists (Throw e), [Emit t m]. intros y Hy. cbn [forEach].
      by rewrite run_bind, (emit_ext h t m s y Hy), E. }
  assert (∃ o tr, ∀ y,
            Multicast.subscriptions y = Multicast.subscriptions s →
            Multicast.listeners y = Multicast.listeners s →
            Multicast._emitMessages h topics messages y = (o, y, tr))
    as (o & tr & Hall).
  { unfold Multicast._emitMessages.
    induction topics as [|t ts (o & tr & IH)]; [by exists (Return tt), []|].
    destruct (Hinner t) as (o1 & tr1 & H1).
    destruct (bool_decide (t ∈ Multicast.subscriptions s)) eqn:Et.
    - destruct o1 as [[]|e].
      + exists o, (tr1 ++ tr). intros y Hs Hl. cbn [forEach].
        rewrite run_bind, run_get, Hs, Et. cbn [negb].
        rewrite (H1 y Hl). by rewrite IH.
      + exists (Throw e), tr1. intros y Hs Hl. cbn [forEach].
        rewrite run_bind, run_get, Hs, Et. cbn [negb].
        by rewrite (H1 y Hl).
    - exists o, tr. intros y Hs Hl. cbn [forEach].
      rewrite run_bind, run_get, Hs, Et. cbn [negb ret].
      by rewrite IH. }
  by rewrite (Hall s eq_refl eq_refl), (Hall s' Hsub Hlis).
Qed.

Lemma updateSubscriptions_set_topics (changes : list rpc.SubOpts)
  (p : Peer.t) :
  final (Peer.updateSubscriptions changes p)
  = Peer.set_topics (Peer.topics (final (Peer.updateSubscriptions changes p)))
      p.
Proof.
  revert p. induction changes as [|c cs IH]; intros p; [by destruct p|].
  rewrite updateSubscriptions_cons.
  set (p1 := if rpc.subscribe c then _ else _).
  rewrite (IH p1) at 1. subst p1. by destruct (rpc.subscribe c).
Qed.

(** X17. The engine never adds, drops, renames or reorders a record of the
    peer map on its own: forwarding, receiving, publishing, subscribing and
    unsubscribing leave the identities of the records as they are, in
    order, and of these only the subscription deltas of a received record
    change the topics of a record. *)
Theorem engine_keeps_peer_identities (h : Host) (form : Form)
  (s : Multicast.t) :
  let key p := (Peer.info p, Peer.topics p) in
  (∀ topics messages,
     key <$> Multicast.peers
               (final (Multicast._forwardMessages h form topics messages s))
     = key <$> Multicast.peers s)
  ∧ (∀ now msgs,
       key <$> Multicast.peers
                 (final (Multicast._processRpcMessages h form now msgs s))
       = key <$> Multicast.peers s)
  ∧ (∀ now topics messages hops,
       key <$> Multicast.peers
                 (final (Multicast.publish h form now topics messages hops s))
       = key <$> Multicast.peers s)
  ∧ (∀ topics,
       key <$> Multicast.peers (final (Multicast.subscribe topics s))
       = key <$> Multicast.peers s)
  ∧ (∀ topics,
       key <$> Multicast.peers (final (Multicast.unsubscribe topics s))
       = key <$> Multicast.peers s)
  ∧ (∀ now id rpc,
       Peer.info <$> Multicast.peers
                       (final (Multicast._onRpc h form now id rpc s))
       = Peer.info <$> Multicast.peers s).
Proof.
  intros key.
  assert (∀ p p', Peer.info p' = Peer.info p →
                  Peer.topics p' = Peer.topics p → key p' = key p) as Hkey
    by (intros p p' Hi Ht; unfold key; by rewrite Hi, Ht).
  split; [|split; [|split; [|split; [|split]]]].
  - intros topics messages. by apply forward_keeps.
  - intros now msgs. by apply processRpcMessages_keeps.
  - intros now topics messages hops.
    destruct (Multicast.started s) eqn:Hs.
    + destruct (publish_frame h form now topics messages hops s Hs)
        as (c & ->).
      cbv zeta. destruct (outcome (Multicast._emitMessages _ _ _ _));
        cbn [final fst snd]; [by rewrite forward_keeps | done].
    + unfold Multicast.publish. by rewrite run_get, Hs.
  - intros topics. destruct (Multicast.started s) eqn:Hs.
    + rewrite subscribe_run by done.
      cbn [final fst snd Multicast.peers Multicast.set_peers
           Multicast.set_started].
      rewrite <- list_fmap_compose. apply list_fmap_ext. intros i p _.
      cbn. unfold announced. by destruct (Peer.stream p).
    + unfold Multicast.subscribe. by rewrite run_get, Hs.
  - intros topics. destruct (Multicast.started s) eqn:Hs.
    + rewrite unsubscribe_run by done.
      cbn [final fst snd Multicast.peers Multicast.set_peers
           Multicast.set_started].
      rewrite <- list_fmap_compose. apply list_fmap_ext. intros i p _.
      cbn. unfold retracted. by destruct (Peer.stream p).
    + unfold Multicast.unsubscribe. by rewrite run_get, Hs.
  - intros now id [r|]; [|done]. unfold Multicast._onRpc.
    rewrite run_bind. cbn [tell]. rewrite run_bind.
    set (recv := match rpc.msgs r with
                 | Some ((_ :: _) as msgs) =>
                     Multicast._processRpcMessages h form now
                       (utils.normalizeInRpcMessages h msgs)
                 | _ => ret tt
                 end).
    assert (Peer.info <$> Multicast.peers (final (recv s))
            = Peer.info <$> Multicast.peers s) as Hrecv.
    { subst recv. destruct (rpc.msgs r) as [[|w ws]|]; try done.
      apply processRpcMessages_keeps. by intros p p' ->. }
    destruct (recv s) as [[[[]|e] s1] t1]; cbn [final fst snd] in Hrecv |- *;
      [|done].
    destruct (rpc.subscriptions r) as [[|c cs]|]; try done.
    destruct (peers_get_updateSubscriptions id (c :: cs) s1) as [ps Hps].
    unfold Multicast.peers_get in Hps |- *.
    rewrite <- Hrecv. clear Hps.
    assert (∀ l, Peer.info <$> final (Multicast.on_peer id
                   (Peer.updateSubscriptions (c :: cs)) l)
                 = Peer.info <$> l) as Hon.
    { induction l as [|p l IH]; [done|]. cbn [Multicast.on_peer].
      case_bool_decide.
      - rewrite updateSubscriptions_silent. cbn [final fst snd fmap list_fmap].
        f_equal. by rewrite updateSubscriptions_set_topics.
      - destruct (Multicast.on_peer id _ l) as [[o l'] tr].
        cbn [final fst snd fmap list_fmap] in IH |- *. by rewrite IH. }
    specialize (Hon (Multicast.peers s1)).
    destruct (Multicast.on_peer id _ (Multicast.peers s1)) as [[o l'] tr].
    cbn [final fst snd] in Hon |- *. exact Hon.
Qed.

(** X18. [publish] never consults the cache of seen identifiers: whatever
    the cache holds, the same messages are built, delivered locally and
    pushed to the same peers. *)
Theorem publish_ignores_cache (h : Host) (form : Form) (now : Z)
  (topics : utils.OneOrMany Topic) (messages : utils.OneOrMany Buffer)
  (hops : Z) (s : Multicast.t) (c : TimeCache.t) :
  let r := Multicast.publish h form now topics messages hops s in
  let r' := Multicast.publish h form now topics messages hops
              (Multicast.set_cache c s) in
  outcome r' = outcome r ∧ trace r' = trace r
  ∧ Multicast.peers (final r') = Multicast.peers (final r).
Proof.
  cbv zeta. destruct (Multicast.started s) eqn:Hs.
  - destruct (publish_frame h form now topics messages hops s Hs) as (c1 & ->).
    destruct (publish_frame h form now topics messages hops
                (Multicast.set_cache c s) Hs) as (c2 & ->).
    cbv zeta.
    cbn [Multicast.localId Multicast.entropy Multicast.set_cache].
    set (ts := utils.ensureArray topics).
    set (msgs := built h (Multicast.localId s) ts hops (Multicast.entropy s)
                   (utils.ensureArray messages)).
    set (s1 := Multicast.set_entropy _ (Multicast.set_cache c1 s)).
    set (s2 := Multicast.set_entropy _ _).
    rewrite (emitMessages_ext h ts msgs s1 s2 eq_refl eq_refl).
    cbn [outcome trace fst snd].
    destruct (outcome (Multicast._emitMessages h ts msgs s1)); [|done].
    rewrite !run_forward. done.
  - unfold Multicast.publish. rewrite !run_get.
    cbn [Multicast.started Multicast.set_cache]. by rewrite Hs.
Qed.

(** ** Publishing nothing *)

Lemma narrow_nil (h : Host) (registry : gmap Topic (list Hook)) (q : Peer.t)
  (ts : list Topic) :
  narrow h registry q ts [] = inr [].
Proof.
  induction ts as [|t ts IH]; [done|].
  cbn [narrow]. by destruct (registry !! t).
Qed.

Lemma deliveries_nil (subs topics : list Topic) :
  deliveries subs topics [] = [].
Proof.
  unfold deliveries. by induction (filter _ topics) as [|t l IH].
Qed.

(** X19. Publishing an empty array of payloads is not a no-op in the form of
    [src/index.js]: nothing is cached or delivered locally, but every
    writable peer that shares a topic with the call is still pushed one
    record, with an empty list of messages. *)
Theorem publish_empty_batch (h : Host) (now : Z)
  (topics : utils.OneOrMany Topic) (hops : Z) (s : Multicast.t)
  (q : Peer.t) :
  Multicast.started s = true →
  NoDup (Peer.info <$> Multicast.peers s) →
  q ∈ Multicast.peers s →
  Peer.isWritable q = true →
  (∃ t, t ∈ Peer.topics q ∧ t ∈ utils.ensureArray topics) →
  let r := Multicast.publish h SyncForm now topics (utils.Many []) hops s in
  outcome r = Return tt
  ∧ pushed (Peer.info q) (trace r)
    = [{| rpc.subscriptions := None; rpc.msgs := Some [] |}]
  ∧ emitted (trace r) = []
  ∧ Multicast.cache (final r) = Multicast.cache s.
Proof.
  intros Hs Hnd Hq Hw Hshare. cbv zeta.
  assert (outcome (Multicast._forwardMessages h SyncForm
                     (utils.ensureArray topics) [] s) = Return tt) as Hret.
  { rewrite run_forward. cbn [outcome fst].
    rewrite each_peer_total; [done|].
    intros p. exists tt. rewrite sync_forward_to, narrow_nil.
    by destruct (negb _ || negb _). }
  pose proof (sync_forward_pushed h (utils.ensureArray topics) [] s q
                Hnd Hq Hw Hshare Hret) as Hpush.
  destruct (forward_frame h SyncForm (utils.ensureArray topics) [] s)
    as [[ps Hps] Hemit].
  unfold Multicast.publish. rewrite run_get, Hs.
  cbn [Multicast.assert]. rewrite run_bind. cbn [ret].
  rewrite run_bind. cbn [tell utils.ensureArray Array_map].
  rewrite run_bind. cbn [ret].
  rewrite run_bind, (emitMessages_run _ _ _ _ (calm_nil _ _ _)).
  rewrite deliveries_nil.
  destruct (Multicast._forwardMessages h SyncForm (utils.ensureArray topics)
              [] s) as [[o s2] t2].
  cbn [outcome final trace fst snd app] in *.
  subst o s2. split; [done|]. split; [exact Hpush|]. split; [exact Hemit|].
  reflexivity.
Qed.

Lemma publish_empty_batch_witness :
  let s := demo_engine [demo_peer "QmA" ["a"]] ["a"] {["a" := [1%nat]]} in
  pushed "QmA"
    (trace (Multicast.publish demo_host SyncForm 5 (utils.One "a")
              (utils.Many []) 3 s))
  = [{| rpc.subscriptions := None; rpc.msgs := Some [] |}].
Proof.
  intros s.
  destruct (publish_empty_batch demo_host 5 (utils.One "a") 3 s
              (demo_peer "QmA" ["a"])) as (_ & H & _).
  - reflexivity.
  - by apply (bool_decide_unpack _).
  - by apply (bool_decide_unpack _).
  - reflexivity.
  - exists "a". split; by apply (bool_decide_unpack _).
  - exact H.
Defined.

(** ** What a publication carries *)

Lemma built_fields (h : Host) (me : PeerId) (topics : list Topic) (k : Z)
  (e : nat) (payloads : list Buffer) (m : Message) :
  m ∈ built h me topics k e payloads →
  from m = me ∧ hops m = k ∧ topicIDs m = topics ∧ data m ∈ payloads.
Proof.
  revert e. induction payloads as [|b rest IH]; intros e Hm;
    [by inversion Hm|].
  cbn [built] in Hm. apply elem_of_cons in Hm as [->|Hm].
  - cbn. repeat split. by left.
  - destruct (IH _ Hm) as (? & ? & ? & ?). repeat split; try done.
    by right.
Qed.

(** X20. [publish] sends its messages as it built them: every message it
    pushes to a peer carries the hop count of the call, unchanged and
    unchecked (a count of zero is sent like any other), the topics of the
    call, one of its payloads, and the local peer as origin. *)
Theorem publish_sends_as_built (h : Host) (form : Form) (now : Z)
  (topics : utils.OneOrMany Topic) (messages : utils.OneOrMany Buffer)
  (hops : Z) (s : Multicast.t) (to : PeerId) (w : rpc.Message) :
  w ∈ sent to (trace (Multicast.publish h form now topics messages hops s)) →
  rpc.hops w = hops
  ∧ rpc.topicIDs w = utils.ensureArray topics
  ∧ rpc.data w ∈ utils.ensureArray messages
  ∧ rpc.from w = bs58_decode h (Multicast.localId s).
Proof.
  destruct (Multicast.started s) eqn:Hs.
  - destruct (publish_frame h form now topics messages hops s Hs) as (c & ->).
    cbv zeta. intros Hw.
    assert (w ∈ utils.normalizeOutRpcMessages h
                  (built h (Multicast.localId s) (utils.ensureArray topics)
                     hops (Multicast.entropy s)
                     (utils.ensureArray messages))) as Hw'.
    { destruct (outcome (Multicast._emitMessages _ _ _ _)) as [[]|err];
        cbn [trace snd] in Hw;
        rewrite sent_log, !sent_app, sent_puts, emitMessages_sent in Hw;
        cbn [app] in Hw;
        [by apply forward_sent_subset in Hw | by apply elem_of_nil in Hw]. }
    clear Hw. rename Hw' into Hw.
    rewrite normalizeOut_on_wire in Hw.
    apply list_elem_of_fmap in Hw as (m & -> & Hm).
    apply built_fields in Hm as (Hf & Hh & Ht & Hd).
    cbn [on_wire rpc.hops rpc.topicIDs rpc.data rpc.from].
    by rewrite Hf, Hh, Ht.
  - unfold Multicast.publish. rewrite run_get, Hs. cbn.
    by intros ?%elem_of_nil.
Qed.

Lemma publish_sends_as_built_witness :
  let s := demo_engine [demo_peer "QmA" ["a"]] [] ∅ in
  let w := {| rpc.from := String.list_byte_of_string "QmSelf";
              rpc.data := [];
              rpc.seqno := String.list_byte_of_string ".";
              rpc.hops := 0; rpc.topicIDs := ["a"] |} in
  w ∈ sent "QmA"
        (trace (Multicast.publish demo_host SyncForm 5 (utils.One "a")
                  (utils.One []) 0 s))
  ∧ rpc.topicIDs w = ["a"].
Proof.
  intros s w.
  assert (w ∈ sent "QmA"
                (trace (Multicast.publish demo_host SyncForm 5 (utils.One "a")
                          (utils.One []) 0 s))) as H
    by (by apply (bool_decide_unpack _)).
  split; [exact H|].
  exact (proj1 (proj2 (publish_sends_as_built demo_host SyncForm 5
                         (utils.One "a") (utils.One []) 0 s "QmA" w H))).
Defined.

(** ** The dial hook *)

Lemma sendSubscriptions_set (subs : list Topic) (q : Peer.t)
  (st : list rpc.RPC) :
  Peer.stream q = Some st →
  Peer.sendSubscriptions (Peer.JsSet subs) q =
    match subs with
    | [] => (Return tt, q, [])
    | _ => (Return tt,
            Peer.set_stream (Some (st ++ [announcement true subs])) q,
            [Push (Peer.info q) (announcement true subs)])
    end.
Proof.
  intros E. unfold Peer.sendSubscriptions, Peer._sendRawSubscriptions.
  destruct subs as [|t subs]; [done|].
  rewrite bool_decide_eq_false_2 by done. by apply write_open.
Qed.

(** X21. The dial hook announces the whole local subscription set to the
    peer that was dialled.  When the base [_onDial] reports an error, the
    callback gets it at once and nothing is sent.  When it reports none and
    has left a writable record for the peer in the map, that record is
    pushed one record listing every local subscription, or nothing when
    there is none, and the callback is deferred; and when it has left no
    record for the peer, the hook throws. *)
Theorem onDial_announces
  (super_onDial : PeerId → M Multicast.t (option JsError)) (id : PeerId)
  (callback : Callback) (s : Multicast.t) :
  let r0 := super_onDial id s in
  let r := Multicast._onDial super_onDial id callback s in
  (∀ e, outcome r0 = Return (Some e) →
        r = (Return tt, final r0, trace r0 ++ [Invoke callback (Some e)]))
  ∧ (outcome r0 = Return None →
     id ∉ Peer.info <$> Multicast.peers (final r0) →
     (∃ e, outcome r = Throw e) ∧ final r = final r0 ∧ trace r = trace r0)
  ∧ (∀ q st,
       outcome r0 = Return None →
       NoDup (Peer.info <$> Multicast.peers (final r0)) →
       q ∈ Multicast.peers (final r0) → Peer.info q = id →
       Peer.stream q = Some st →
       outcome r = Return tt
       ∧ trace r
         = trace r0
           ++ match Multicast.subscriptions (final r0) with
              | [] => []
              | subs => [Push id (announcement true subs)]
              end
           ++ [Defer callback None]).
Proof.
  cbv zeta. unfold Multicast._onDial. rewrite run_bind.
  destruct (super_onDial id s) as [[o s0] t0].
  cbn [outcome final trace fst snd].
  split; [|split].
  - intros e ->. reflexivity.
  - intros -> Hout. rewrite run_get, bool_decide_eq_false_2 by done.
    cbn. rewrite app_nil_r. eauto.
  - intros q st -> Hnd Hq Hid Hst. rewrite run_get.
    rewrite bool_decide_eq_true_2
      by (rewrite <- Hid; by apply list_elem_of_fmap_2).
    rewrite run_bind. unfold Multicast.peers_get. subst id.
    rewrite on_peer_present by done.
    rewrite (sendSubscriptions_set _ q st) by done.
    by destruct (Multicast.subscriptions s0).
Qed.

Lemma onDial_announces_witness :
  let s := demo_engine [] ["a"; "b"] ∅ in
  trace (Multicast._onDial demo_onDial "QmA" 9%nat s)
  = [Push "QmA" (announcement true ["a"; "b"]); Defer 9%nat None].
Proof.
  intros s.
  destruct (onDial_announces demo_onDial "QmA" 9%nat s) as (_ & _ & H).
  destruct (H (demo_peer "QmA" []) []) as [_ Ht].
  - reflexivity.
  - by apply (bool_decide_unpack _).
  - by apply (bool_decide_unpack _).
  - reflexivity.
  - reflexivity.
  - exact Ht.
Defined.

(** ** The facade: listeners are counted *)

Lemma on_multicast_run {A} (m : M Multicast.t A) (s : Facade.t) :
  Facade.on_multicast m s =
    (outcome (m (Facade.multicast s)),
     with_multicast (final (m (Facade.multicast s))) s,
     trace (m (Facade.multicast s))).
Proof.
  unfold Facade.on_multicast. by destruct (m _) as [[o mc] tr].
Qed.

Lemma with_multicast_same (s : Facade.t) :
  with_multicast (Facade.multicast s) s = s.
Proof. by destruct s. Qed.





Lemma remove_last_snoc (handler : Handler) (l : list Handler) :
  Multicast.remove_last handler (l ++ [handler]) = l.
Proof.
  unfold Multicast.remove_last. rewrite reverse_snoc. cbn.
  rewrite bool_decide_eq_true_2 by done. apply reverse_involutive.
Qed.












(** ** The facade: what it refuses *)

Lemma facade_removeFrwdHook_run (topic : Topic) (hook : Hook)
  (s : Facade.t) :
  Facade.on_multicast (Multicast.removeFrwdHook topic hook) s =
    (Return tt,
     with_multicast
       (final (Multicast.removeFrwdHook topic hook (Facade.multicast s))) s,
     []).
Proof. reflexivity. Qed.

(** The bulk removal of the facade leaves none of the hooks it is given in
    the entry of the topic, and adds none. *)
Lemma removeFrwdHooks_removes (topic : Topic) (hooks : list Hook)
  (s : Facade.t) :
  let r := Facade.removeFrwdHooks topic hooks s in
  let entry (x : Facade.t) :=
    default [] (Multicast.fwrdHooks (Facade.multicast x) !! topic) in
  outcome r = Return tt
  ∧ ∀ v, v ∈ entry (final r) → v ∈ entry s ∧ v ∉ hooks.
Proof.
  cbv zeta. unfold Facade.removeFrwdHooks. revert s.
  induction hooks as [|h0 hooks IH]; intros s.
  - split; [done|]. intros v Hv. split; [done|]. apply not_elem_of_nil.
  - cbn [forEach]. rewrite run_bind, facade_removeFrwdHook_run.
    set (s1 := with_multicast _ s).
    destruct (IH s1) as (Ho & Hin).
    destruct (forEach hooks _ s1) as [[o s2] t2].
    cbn [outcome final fst snd] in Ho, Hin |- *.
    split; [done|].
    intros v Hv. destruct (Hin v Hv) as [Hv1 Hout].
    unfold s1 in Hv1. rewrite removeFrwdHook_run in Hv1.
    cbn [final fst snd with_multicast Facade.multicast] in Hv1.
    destruct (Multicast.fwrdHooks (Facade.multicast s) !! topic) as [vs|]
      eqn:E.
    + cbn [Multicast.fwrdHooks Multicast.set_fwrdHooks] in Hv1.
      rewrite lookup_insert_eq in Hv1. cbn [from_option Datatypes.id] in Hv1.
      apply elem_of_set_delete in Hv1 as [Hne Hvs].
      split; [exact Hvs|]. apply not_elem_of_cons. by split.
    + rewrite E in Hv1. by apply elem_of_nil in Hv1.
Qed.

(** X25. With the node and the engine both stopped, the five operations of
    the facade that test for it touch nothing: [subscribe] and [publish]
    defer the not-started error to the callback, [ls] and [peers] answer with
    it, and [unsubscribe], which has no callback, throws it.  A [peers] call
    without topic is the exception: the guard runs before the callback is
    found in the place of the topic, and the deferred report fails for want
    of a function to call.  The two operations on hooks do not test for it:
    [addFrwdHooks] and [removeFrwdHooks] return and change the registry of
    the stopped engine, the one installing every hook it is given, the other
    leaving none of them. *)
Theorem facade_not_started (h : Host) (form : Form) (now : Z)
  (s : Facade.t) :
  Facade.node_isStarted s = false →
  Multicast.started (Facade.multicast s) = false →
  let err := Error Facade.NOT_STARTED_YET in
  let entry topic (x : Facade.t) :=
    default [] (Multicast.fwrdHooks (Facade.multicast x) !! topic) in
  (∀ topic f o handler callback,
     Facade.subscribe topic (Facade.IsFunction f) callback handler s
     = (Return tt, s, [Defer callback (Some err)])
     ∧ Facade.subscribe topic (Facade.IsObject o) handler callback s
       = (Return tt, s, [Defer callback (Some err)]))
  ∧ (∀ topic data hops callback,
       Facade.publish h form now topic data hops callback s
       = (Return tt, s, [Defer callback (Some err)]))
  ∧ (∀ topic handler,
       Facade.unsubscribe topic handler s = (Throw err, s, []))
  ∧ Facade.ls s = (Return (Facade.Answer (inl err)), s, [])
  ∧ (∀ topic,
       Facade.peers (Some topic) s = (Return (Facade.Answer (inl err)), s, []))
  ∧ (∃ e, Facade.peers None s = (Return (Facade.Fails e), s, []))
  ∧ (∀ topic hooks,
       let r := Facade.addFrwdHooks topic hooks s in
       outcome r = Return tt
       ∧ ∀ v, v ∈ hooks → v ∈ entry topic (final r))
  ∧ (∀ topic hooks,
       let r := Facade.removeFrwdHooks topic hooks s in
       outcome r = Return tt
       ∧ ∀ v, v ∈ hooks → v ∉ entry topic (final r)).
Proof.
  intros Hn Hm err entry.
  split; [|split; [|split; [|split; [|split; [|split; [|split]]]]]].
  - intros. unfold Facade.subscribe. by rewrite !run_get, Hn, Hm.
  - intros. unfold Facade.publish. by rewrite run_get, Hn, Hm.
  - intros. unfold Facade.unsubscribe. by rewrite run_get, Hn, Hm.
  - unfold Facade.ls. by rewrite run_get, Hn, Hm.
  - intros. unfold Facade.peers. by rewrite run_get, Hn, Hm.
  - eexists. unfold Facade.peers. by rewrite run_get, Hn, Hm.
  - intros topic hooks r.
    destruct (addFrwdHooks_installs topic hooks s) as [Ho Hin].
    split; [exact Ho|]. intros v Hv. apply Hin. by left.
  - intros topic hooks r.
    destruct (removeFrwdHooks_removes topic hooks s) as (Ho & Hin).
    split; [exact Ho|]. intros v Hv Hv'. by destruct (Hin v Hv').
Qed.

Lemma facade_not_started_witness :
  let s := {| Facade.node_isStarted := false;
              Facade.multicast :=
                Multicast.set_started false [] (demo_engine [] [] ∅) |} in
  Facade.unsubscribe "a" 1%nat s
  = (Throw (Error Facade.NOT_STARTED_YET), s, [])
  ∧ 7%nat ∈ default []
              (Multicast.fwrdHooks
                 (Facade.multicast
                    (final (Facade.addFrwdHooks "a" [7%nat] s))) !! "a").
Proof.
  intros s.
  destruct (facade_not_started demo_host SyncForm 0 s)
    as (_ & _ & H & _ & _ & _ & Hadd & _); [reflexivity | reflexivity |].
  split; [apply H|]. apply (Hadd "a" [7%nat]). by left.
Defined.

(** X26. The facade's guard only fires when the node and the engine are
    both stopped.  With the node started and the engine stopped, [ls] and
    [peers] answer from the engine's state, and a [publish] of a buffer or a
    first [subscribe] to a topic runs into the engine's own assertion: the
    call throws, the facade is left as it was, and the callback is never
    called. *)
Theorem facade_half_started (h : Host) (form : Form) (now : Z)
  (s : Facade.t) :
  Facade.node_isStarted s = true →
  Multicast.started (Facade.multicast s) = false →
  let failure := AssertionError "Multicast is not started" in
  (∀ topic b hops callback,
     Facade.publish h form now topic (Facade.IsBuffer b) hops callback s
     = (Throw failure, s, []))
  ∧ (∀ topic f callback ignored,
       Multicast.listenerCount topic (Facade.multicast s) = 0%nat →
       Facade.subscribe topic (Facade.IsFunction f) callback ignored s
       = (Throw failure, s, []))
  ∧ Facade.ls s
    = (Return (Facade.Answer
                 (inr (Multicast.subscriptions (Facade.multicast s)))),
       s, []).
Proof.
  intros Hn Hm failure.
  unfold Facade.subscribe, Facade.publish, Facade.ls.
  split; [|split].
  - intros topic b hops callback. rewrite run_get, Hn. cbn [negb andb].
    rewrite run_bind, on_multicast_run.
    unfold Multicast.publish. rewrite run_get, Hm.
    by destruct s.
  - intros topic f callback ignored Hc. rewrite run_get, Hn.
    cbn [negb andb]. rewrite (bool_decide_eq_true_2 _ Hc).
    cbn [when]. rewrite run_bind, on_multicast_run.
    unfold Multicast.subscribe. rewrite run_get, Hm.
    by destruct s.
  - rewrite run_get, Hn. reflexivity.
Qed.

Lemma facade_half_started_witness :
  let s := {| Facade.node_isStarted := true;
              Facade.multicast :=
                Multicast.set_started false [] (demo_engine [] [] ∅) |} in
  Facade.subscribe "a" (Facade.IsFunction 1%nat) 8%nat 8%nat s
  = (Throw (AssertionError "Multicast is not started"), s, []).
Proof.
  intros s.
  destruct (facade_half_started demo_host SyncForm 0 s) as (_ & H & _);
    [reflexivity | reflexivity |].
  apply H. reflexivity.
Defined.

(** X27. The facade's [publish] checks the payload before it touches the
    engine, and calls back only after the engine has returned.  A payload
    that is not a buffer is reported to the callback and the engine is left
    alone; a buffer is published as the single payload of a call to the
    engine, after which the callback is deferred; and when the engine's
    [publish] throws, the exception goes to the caller and the callback is
    never called. *)
Theorem facade_publish_checks_data (h : Host) (form : Form) (now : Z)
  (topic : utils.OneOrMany Topic) (data : Facade.JsValue) (hops : Z)
  (callback : Callback) (s : Facade.t) :
  Facade.node_isStarted s || Multicast.started (Facade.multicast s) = true →
  let r := Facade.publish h form now topic data hops callback s in
  match data with
  | Facade.NotBuffer =>
      r = (Return tt, s,
           [Defer callback (Some (Error "data must be a Buffer"))])
  | Facade.IsBuffer b =>
      let e := Multicast.publish h form now topic (utils.One b) hops
                 (Facade.multicast s) in
      final r = with_multicast (final e) s
      ∧ match outcome e with
        | Return _ =>
            outcome r = Return tt ∧ trace r = trace e ++ [Defer callback None]
        | Throw err => outcome r = Throw err ∧ trace r = trace e
        end
  end.
Proof.
  intros Hg. cbv zeta. unfold Facade.publish. rewrite run_get.
  assert (negb (Facade.node_isStarted s)
          && negb (Multicast.started (Facade.multicast s)) = false) as ->.
  { by destruct (Facade.node_isStarted s),
         (Multicast.started (Facade.multicast s)). }
  destruct data as [b|]; [|done].
  rewrite run_bind, on_multicast_run.
  destruct (Multicast.publish h form now topic (utils.One b) hops _)
    as [[[[]|err] mc] tr]; by cbn.
Qed.

Lemma facade_publish_checks_data_witness :
  let s := {| Facade.node_isStarted := true;
              Facade.multicast := demo_engine [demo_peer "QmA" ["a"]] [] ∅ |} in
  Facade.publish demo_host SyncForm 5 (utils.One "a") Facade.NotBuffer 3 8%nat s
  = (Return tt, s, [Defer 8%nat (Some (Error "data must be a Buffer"))]).
Proof.
  intros s.
  apply (facade_publish_checks_data demo_host SyncForm 5 (utils.One "a")
           Facade.NotBuffer 3 8%nat s).
  reflexivity.
Defined.

(** X28. The facade's [peers] lists the identifiers of the peers in the
    order of the peer map and filters by topic only when the topic is
    truthy: for a topic that is left out, and for the empty string, every
    peer is listed; for any other topic, exactly the peers whose topics
    include it.  The engine is not changed. *)
Theorem facade_peers_by_topic (topic : option Topic) (s : Facade.t) :
  Facade.node_isStarted s || Multicast.started (Facade.multicast s) = true →
  let all := Multicast.peers (Facade.multicast s) in
  ∃ ids,
    Facade.peers topic s = (Return (Facade.Answer (inr ids)), s, [])
    ∧ match topic with
      | None | Some "" => ids = Peer.info <$> all
      | Some t => ids = Peer.info <$> filter (λ p, t ∈ Peer.topics p) all
      end.
Proof.
  intros Hg all. unfold Facade.peers. rewrite run_get.
  assert (negb (Facade.node_isStarted s)
          && negb (Multicast.started (Facade.multicast s)) = false) as ->.
  { by destruct (Facade.node_isStarted s),
         (Multicast.started (Facade.multicast s)). }
  eexists. split; [reflexivity|]. fold all.
  destruct topic as [[|c t]|].
  - f_equal. apply filter_all. by intros p _.
  - f_equal. apply list_filter_iff. intros p. cbn.
    rewrite bool_decide_eq_false_2 by done. apply bool_decide_spec.
  - f_equal. apply filter_all. by intros p _.
Qed.

Lemma facade_peers_by_topic_witness :
  let s := {| Facade.node_isStarted := true;
              Facade.multicast :=
                demo_engine [demo_peer "QmA" ["a"]; demo_peer "QmB" ["b"]]
                  [] ∅ |} in
  Facade.peers (Some "") s
  = (Return (Facade.Answer (inr ["QmA"; "QmB"])), s, [])
  ∧ Facade.peers (Some "b") s = (Return (Facade.Answer (inr ["QmB"])), s, []).
Proof.
  intros s. split.
  - destruct (facade_peers_by_topic (Some "") s) as (ids & H & ->);
      [reflexivity | exact H].
  - destruct (facade_peers_by_topic (Some "b") s) as (ids & H & ->);
      [reflexivity | exact H].
Defined.

(** ** Stopping *)

(** X29. When the [stop] of the base protocol reports an error, the
    engine's [stop] hands it to the callback at once and resets nothing:
    the local subscriptions, the registry, the cache and the listeners are
    what they were. *)
Theorem stop_reports_error (h : Host) (callback : Callback) (s : Multicast.t)
  (e : JsError) :
  (super_stop h (Multicast.started s, Multicast.peers s)).1 = Some e →
  let r := Multicast.stop h callback s in
  outcome r = Return tt
  ∧ trace r = [Invoke callback (Some e)]
  ∧ final r
    = Multicast.set_started
        (super_stop h (Multicast.started s, Multicast.peers s)).2.1
        (super_stop h (Multicast.started s, Multicast.peers s)).2.2 s.
Proof.
  intros E. cbv zeta. unfold Multicast.stop. rewrite run_get.
  destruct (super_stop h _) as [err [started' peers']]. cbn in E. subst err.
  done.
Qed.

Lemma stop_reports_error_witness :
  let s := demo_engine [demo_peer "QmA" ["foo"]] ["foo"; "bar"] ∅ in
  Multicast.stop failing_host 9%nat s
  = (Return tt, s, [Invoke 9%nat (Some (Error "not started"))]).
Proof.
  intros s.
  destruct (stop_reports_error failing_host 9%nat s (Error "not started"))
    as (H1 & H2 & H3); [reflexivity|].
  destruct (Multicast.stop failing_host 9%nat s) as [[o s'] tr].
  cbn [outcome final trace fst snd] in *. by subst.
Defined.



